(** * vscode-colorize: the coordination and caching layer

    A shallow embedding of the rate limiter ([lib/util/rate-limiter]), the
    cache manager ([lib/cache-manager]), the colorize orchestration
    ([extension]) and the extraction request handler of the language server
    ([server/src]), with the properties the specification states about them. *)

From Stdlib Require Import ZArith Lia Ascii.
From stdpp Require Import gmap strings list fin_maps functions pretty.

(** * Rate limiter *)

Module RateLimiter.

Local Open Scope Z_scope.

(** What [await fn()] produces inside the closure built by [executeAsync]:
    the value the caller's function resolves to, or the error it fails with.
    The caller's function is taken to complete. *)
Inductive Outcome : Type :=
| Returns (v : nat)
| Throws (e : nat).

(** The closures handed to [execute].  [Plain k] is a caller's
    [() => void], named [k].  [Wrapper p k r] is the closure of
    [executeAsync]: it calls the caller's function [k], whose awaited
    outcome is [r], and settles promise [p] with it. *)
Inductive Work : Type :=
| Plain (k : nat)
| Wrapper (p : nat) (k : nat) (r : Outcome).

Inductive PromiseState : Type :=
| Pending
| Fulfilled (v : nat)
| Rejected (e : nat).

#[global] Instance Outcome_eq_dec : EqDecision Outcome.
Proof. solve_decision. Defined.

#[global] Instance Work_eq_dec : EqDecision Work.
Proof. solve_decision. Defined.

#[global] Instance PromiseState_eq_dec : EqDecision PromiseState.
Proof. solve_decision. Defined.

Definition settle (r : Outcome) : PromiseState :=
  match r with
  | Returns v => Fulfilled v
  | Throws e => Rejected e
  end.

(** The fields of [class RateLimiter]. *)
Record RateLimiter : Type := mkLimiter {
  minInterval : Z;
  lastExecutionTime : Z;
  timeoutId : option nat;
  queuedExecution : option Work;
}.

(** The limiter together with the part of the JavaScript host it talks to:
    the value [Date.now()] last returned, the table of armed timers (handle
    and due time), the log of the closures that ran (newest first), and the
    promises created by [executeAsync]. *)
Record Host : Type := mkHost {
  limiter : RateLimiter;
  clock : Z;
  timers : list (nat * Z);
  nextTimer : nat;
  ran : list (Z * Work);
  promises : list PromiseState;
}.

(** [new RateLimiter(minInterval)] in a host with nothing armed, whose
    clock has not yet been read; clock values are milliseconds since the
    epoch, so none is negative. *)
Definition create (I : Z) : Host :=
  mkHost (mkLimiter I 0 None None) 0 [] 0 [] [].

Definition set_limiter (l : RateLimiter) (w : Host) : Host :=
  mkHost l (clock w) (timers w) (nextTimer w) (ran w) (promises w).

Definition set_clock (t : Z) (w : Host) : Host :=
  mkHost (limiter w) t (timers w) (nextTimer w) (ran w) (promises w).

Fixpoint due_of (h : nat) (tms : list (nat * Z)) : option Z :=
  match tms with
  | [] => None
  | (h', due) :: tms => if decide (h' = h) then Some due else due_of h tms
  end.

Definition timer_due (h : nat) (w : Host) : option Z := due_of h (timers w).

(** [clearTimeout(h)]: the timer is taken out of the host's table. *)
Definition clearTimeout (h : nat) (w : Host) : Host :=
  mkHost (limiter w) (clock w) (filter (λ e, e.1 ≠ h) (timers w))
         (nextTimer w) (ran w) (promises w).

(** [setTimeout(cb, delay)] at time [now]: a fresh handle, due [delay]
    later.  The callback is always the one closure of [execute]; see
    [onTimeout]. *)
Definition setTimeout (now delay : Z) (w : Host) : nat * Host :=
  (nextTimer w,
   mkHost (limiter w) (clock w) (timers w ++ [(nextTimer w, now + delay)])
          (S (nextTimer w)) (ran w) (promises w)).

(** A promise settles once; later [resolve]/[reject] calls are ignored. *)
Definition settle_promise (p : nat) (r : Outcome) (ps : list PromiseState)
  : list PromiseState :=
  match ps !! p with
  | Some Pending => <[p := settle r]> ps
  | _ => ps
  end.

(** Calling a closure at time [now]: it is entered in the log, and the
    closure of [executeAsync] settles its promise.  A closure is taken not to
    call the methods of the limiter that runs it. *)
Definition call (now : Z) (f : Work) (w : Host) : Host :=
  match f with
  | Plain _ =>
      mkHost (limiter w) (clock w) (timers w) (nextTimer w)
             ((now, f) :: ran w) (promises w)
  | Wrapper p _ r =>
      mkHost (limiter w) (clock w) (timers w) (nextTimer w)
             ((now, f) :: ran w) (settle_promise p r (promises w))
  end.

(** [execute(fn)], with [now] the value of [Date.now()]. *)
Definition execute (now : Z) (fn : Work) (w : Host) : Host :=
  let timeSinceLastExecution := now - lastExecutionTime (limiter w) in
  (* Clear any pending execution *)
  let w :=
    match timeoutId (limiter w) with
    | Some h =>
        let w := clearTimeout h w in
        set_limiter (mkLimiter (minInterval (limiter w))
                               (lastExecutionTime (limiter w))
                               None
                               (queuedExecution (limiter w))) w
    | None => w
    end in
  if decide (minInterval (limiter w) ≤ timeSinceLastExecution) then
    (* execute immediately *)
    let w := set_limiter (mkLimiter (minInterval (limiter w)) now
                                    (timeoutId (limiter w))
                                    (queuedExecution (limiter w))) w in
    call now fn w
  else
    (* queue for later execution *)
    let w := set_limiter (mkLimiter (minInterval (limiter w))
                                    (lastExecutionTime (limiter w))
                                    (timeoutId (limiter w))
                                    (Some fn)) w in
    let '(h, w) :=
      setTimeout now (minInterval (limiter w) - timeSinceLastExecution) w in
    set_limiter (mkLimiter (minInterval (limiter w))
                           (lastExecutionTime (limiter w))
                           (Some h)
                           (queuedExecution (limiter w))) w.

(** The callback given to [setTimeout] by [execute], run at time [now]. *)
Definition onTimeout (now : Z) (w : Host) : Host :=
  match queuedExecution (limiter w) with
  | Some f =>
      let w := set_limiter (mkLimiter (minInterval (limiter w)) now
                                      (timeoutId (limiter w))
                                      (queuedExecution (limiter w))) w in
      let w := call now f w in
      set_limiter (mkLimiter (minInterval (limiter w))
                             (lastExecutionTime (limiter w))
                             None None) w
  | None => w
  end.

(** [executeAsync(fn)]: a new promise [p], and [execute] of the closure that
    settles it.  Returns the promise. *)
Definition executeAsync (now : Z) (k : nat) (r : Outcome) (w : Host)
  : nat * Host :=
  let p := length (promises w) in
  let w := mkHost (limiter w) (clock w) (timers w) (nextTimer w) (ran w)
                  (promises w ++ [Pending]) in
  (p, execute now (Wrapper p k r) w).

(** [cancel()]. *)
Definition cancel (w : Host) : Host :=
  match timeoutId (limiter w) with
  | Some h =>
      let w := clearTimeout h w in
      set_limiter (mkLimiter (minInterval (limiter w))
                             (lastExecutionTime (limiter w))
                             None None) w
  | None => w
  end.

(** What can happen to a limiter: a call of one of its methods at a given
    time, or the host firing timer [h] at a given time. *)
Inductive Event : Type :=
| Execute (t : Z) (k : nat)
| ExecuteAsync (t : Z) (k : nat) (r : Outcome)
| Cancel
| Fires (t : Z) (h : nat).

(** One event.  [None] when the host cannot produce it: the clock does not
    run backwards, and a timer fires only while armed and not before it is
    due; a fired timer leaves the table. *)
Definition step (w : Host) (e : Event) : option Host :=
  match e with
  | Execute t k =>
      if decide (clock w ≤ t) then Some (execute t (Plain k) (set_clock t w))
      else None
  | ExecuteAsync t k r =>
      if decide (clock w ≤ t)
      then Some (executeAsync t k r (set_clock t w)).2
      else None
  | Cancel => Some (cancel w)
  | Fires t h =>
      match timer_due h w with
      | Some due =>
          if decide (clock w ≤ t ∧ due ≤ t)
          then Some (onTimeout t (clearTimeout h (set_clock t w)))
          else None
      | None => None
      end
  end.

Fixpoint run (w : Host) (tr : list Event) : option Host :=
  match tr with
  | [] => Some w
  | e :: tr =>
      match step w e with
      | Some w => run w tr
      | None => None
      end
  end.


(** ** A punctual host

    The event loop left to itself: between two calls, every armed timer fires
    at the moment it is due. *)

Fixpoint earliest (tms : list (nat * Z)) : option (nat * Z) :=
  match tms with
  | [] => None
  | (h, due) :: tms =>
      match earliest tms with
      | Some (h', due') =>
          if decide (due' < due) then Some (h', due') else Some (h, due)
      | None => Some (h, due)
      end
  end.

Definition before (limit : option Z) (due : Z) : bool :=
  match limit with
  | Some t => bool_decide (due ≤ t)
  | None => true
  end.

(** Fire, in order of due time, the timers due at or before [limit]
    (all of them when there is no limit). *)
Fixpoint advance (fuel : nat) (limit : option Z) (w : Host) : option Host :=
  match fuel with
  | O => Some w
  | S fuel =>
      match earliest (timers w) with
      | Some (h, due) =>
          if before limit due
          then w ← step w (Fires due h); advance fuel limit w
          else Some w
      | None => Some w
      end
  end.

(** Calls made at the given times, then the host left alone until nothing is
    armed any more. *)
Fixpoint play (w : Host) (calls : list Event) : option Host :=
  match calls with
  | [] => advance (length (timers w)) None w
  | e :: calls =>
      let limit := match e with
                   | Execute t _ | ExecuteAsync t _ _ | Fires t _ => Some t
                   | Cancel => Some (clock w)
                   end in
      w ← advance (length (timers w)) limit w;
      w ← step w e;
      play w calls
  end.

(** The times at which closures ran, oldest first. *)
Definition executions (w : Host) : list (Z * Work) := rev (ran w).

(** ** Invariants of reachable hosts *)

(** Consecutive entries of a list of times, newest first, are at least [I]
    apart. *)
Fixpoint spaced (I : Z) (ts : list Z) : Prop :=
  match ts with
  | [] => True
  | t :: ts' =>
      match ts' with
      | [] => True
      | t' :: _ => t' + I ≤ t
      end ∧ spaced I ts'
  end.



Definition is_wrapper_of (p : nat) (f : Work) : Prop :=
  match f with
  | Wrapper p' _ _ => p' = p
  | Plain _ => False
  end.

Record wf (w : Host) : Prop := mk_wf {
  (* the host has a timer armed exactly when the limiter holds its handle,
     and it is due one interval after the last execution *)
  wf_timers :
    match timeoutId (limiter w) with
    | Some h =>
        timers w =
          [(h, lastExecutionTime (limiter w) + minInterval (limiter w))]
        ∧ is_Some (queuedExecution (limiter w))
    | None => timers w = []
    end;
  wf_clock : lastExecutionTime (limiter w) ≤ clock w;
  wf_last :
    match ran w with
    | [] => True
    | (t, _) :: _ => t = lastExecutionTime (limiter w)
    end;
  wf_spaced : spaced (minInterval (limiter w)) (ran w).*1;
  (* a wrapper waiting for its timer belongs to a pending promise and has
     not run *)
  wf_queued :
    ∀ p k r, timeoutId (limiter w) ≠ None →
             queuedExecution (limiter w) = Some (Wrapper p k r) →
             promises w !! p = Some Pending
             ∧ ∀ e, e ∈ ran w → ¬ is_wrapper_of p e.2;
  (* a wrapper that ran has settled its promise *)
  wf_ran :
    ∀ t p k r, (t, Wrapper p k r) ∈ ran w →
               promises w !! p = Some (settle r);
  (* a settled promise was settled by a wrapper that ran *)
  wf_settled :
    ∀ p st, promises w !! p = Some st → st ≠ Pending →
            ∃ e, e ∈ ran w ∧ is_wrapper_of p e.2;
}.


(** Promise [p] has been given up: it is pending and no armed closure will
    settle it. *)
Definition abandoned (p : nat) (w : Host) : Prop :=
  promises w !! p = Some Pending
  ∧ (∀ f, timeoutId (limiter w) ≠ None →
          queuedExecution (limiter w) = Some f → ¬ is_wrapper_of p f).

(** Calling a closure whose promise, if it has one, is pending and has not
    been run for. *)
Definition callable (f : Work) (w : Host) : Prop :=
  ∀ p k r, f = Wrapper p k r →
           promises w !! p = Some Pending
           ∧ ∀ e, e ∈ ran w → ¬ is_wrapper_of p e.2.

(** The promises after closure [f] has been called. *)
Definition promises_after (f : Work) (ps : list PromiseState)
  : list PromiseState :=
  match f with
  | Plain _ => ps
  | Wrapper p _ r => settle_promise p r ps
  end.


End RateLimiter.

(** * Cache manager *)

Module CacheManager.

(** The part of a [vscode.TextDocument] the cache manager reads. *)
Record TextDocument : Type := mkDocument {
  fileName : string;
  isDirty : bool;
}.

(** JavaScript truthiness of a string: every string but the empty one. *)
Definition truthy (s : string) : bool :=
  match s with
  | EmptyString => false
  | String _ _ => true
  end.

(** [lruArray.indexOf(fileName)]: the first position holding [fileName],
    [None] standing for [-1]. *)
Definition indexOf (lruArray : list string) (fileName : string) : option nat :=
  fst <$> list_find (λ f, f = fileName) lruArray.

(** [_updateLRU(lruArray, fileName)]. *)
Definition _updateLRU (lruArray : list string) (fileName : string)
  : list string :=
  (* Remove if exists *)
  let lruArray :=
    match indexOf lruArray fileName with
    | Some index => delete index lruArray
    | None => lruArray
    end in
  (* Add to end (most recently used) *)
  lruArray ++ [fileName].

Section WithDecorations.

(** The cached values, [Map<number, IDecoration[]>] in the source; the cache
    manager never looks inside them. *)
Context {V : Type}.

(** The fields of [class CacheManager].  [MAX_CACHE_SIZE] is a field of the
    class, which the constructor leaves at its initialiser [100]. *)
Record CacheManager : Type := mkCache {
  _dirtyCache : gmap string V;
  _decorationsCache : gmap string V;
  _dirtyCacheLRU : list string;
  _decorationsCacheLRU : list string;
  MAX_CACHE_SIZE : nat;
}.

Definition new_CacheManager : CacheManager := mkCache ∅ ∅ [] [] 100.

(** [getCachedDecorations(document)]: the cached value, [None] standing for
    [undefined], and the manager after the call. *)
Definition getCachedDecorations (document : TextDocument) (this : CacheManager)
  : option V * CacheManager :=
  let fileName := fileName document in
  if negb (isDirty document)
     && bool_decide (is_Some (_decorationsCache this !! fileName)) then
    (* Update LRU order for decorations cache *)
    (_decorationsCache this !! fileName,
     mkCache (_dirtyCache this) (_decorationsCache this)
             (_dirtyCacheLRU this)
             (_updateLRU (_decorationsCacheLRU this) fileName)
             (MAX_CACHE_SIZE this))
  else if bool_decide (is_Some (_dirtyCache this !! fileName)) then
    (* Update LRU order for dirty cache *)
    (_dirtyCache this !! fileName,
     mkCache (_dirtyCache this) (_decorationsCache this)
             (_updateLRU (_dirtyCacheLRU this) fileName)
             (_decorationsCacheLRU this)
             (MAX_CACHE_SIZE this))
  else (None, this).

(** The common body of [_saveDirtyDecoration] and [_saveSavedDecorations],
    which differ only in the pair of fields they work on: the cache [cache]
    and its LRU array [lru]. *)
Definition save_entry (max : nat) (fileName : string) (decorations : V)
    (cache : gmap string V) (lru : list string)
  : gmap string V * list string :=
  (* Enforce cache size limit with LRU eviction *)
  let '(cache, lru) :=
    if bool_decide (max ≤ size cache)
       && negb (bool_decide (is_Some (cache !! fileName))) then
      (* Remove least recently used item *)
      match lru with
      | lruFile :: lru =>
          (* [lru.shift()], then [if (lruFile)] *)
          (if truthy lruFile then delete lruFile cache else cache, lru)
      | [] => (cache, lru)
      end
    else (cache, lru) in
  (* Update LRU tracking *)
  let lru := _updateLRU lru fileName in
  (<[fileName := decorations]> cache, lru).

Definition _saveDirtyDecoration (fileName : string) (decorations : V)
    (this : CacheManager) : CacheManager :=
  let '(cache, lru) :=
    save_entry (MAX_CACHE_SIZE this) fileName decorations
               (_dirtyCache this) (_dirtyCacheLRU this) in
  mkCache cache (_decorationsCache this) lru (_decorationsCacheLRU this)
          (MAX_CACHE_SIZE this).

Definition _saveSavedDecorations (fileName : string) (decorations : V)
    (this : CacheManager) : CacheManager :=
  let '(cache, lru) :=
    save_entry (MAX_CACHE_SIZE this) fileName decorations
               (_decorationsCache this) (_decorationsCacheLRU this) in
  mkCache (_dirtyCache this) cache (_dirtyCacheLRU this) lru
          (MAX_CACHE_SIZE this).

(** [saveDecorations(document, deco)]. *)
Definition saveDecorations (document : TextDocument) (deco : V)
    (this : CacheManager) : CacheManager :=
  if isDirty document then _saveDirtyDecoration (fileName document) deco this
  else _saveSavedDecorations (fileName document) deco this.

(** [clearCache()]. *)
Definition clearCache (this : CacheManager) : CacheManager :=
  mkCache ∅ ∅ [] [] (MAX_CACHE_SIZE this).

(** The public operations, and a sequence of them applied in order. *)
Inductive Op : Type :=
| Get (document : TextDocument)
| Save (document : TextDocument) (deco : V)
| Clear.

Definition apply (this : CacheManager) (op : Op) : CacheManager :=
  match op with
  | Get document => (getCachedDecorations document this).2
  | Save document deco => saveDecorations document deco this
  | Clear => clearCache this
  end.

Definition apply_all (this : CacheManager) (ops : list Op) : CacheManager :=
  foldl apply this ops.

(** A cache and its LRU array agree: the array lists the keys of the cache,
    each once. *)
Definition in_step (cache : gmap string V) (lru : list string) : Prop :=
  NoDup lru ∧ ∀ f, f ∈ lru ↔ is_Some (cache !! f).

Definition consistent (this : CacheManager) : Prop :=
  in_step (_dirtyCache this) (_dirtyCacheLRU this)
  ∧ in_step (_decorationsCache this) (_decorationsCacheLRU this).

Definition no_empty_key (this : CacheManager) : Prop :=
  _dirtyCache this !! EmptyString = None
  ∧ _decorationsCache this !! EmptyString = None.

Definition op_document (op : Op) : option TextDocument :=
  match op with
  | Get document | Save document _ => Some document
  | Clear => None
  end.

End WithDecorations.

Arguments CacheManager V : clear implicits.
Arguments Op V : clear implicits.

(** Saved documents [file1.css], [file2.css], ... *)
Definition numbered (i : nat) : TextDocument :=
  mkDocument ("file" +:+ pretty i +:+ ".css") false.

(** A document whose file name is the empty string is saved, and then a
    hundred documents with other names. *)
Definition overflow_after_empty_name : list (Op nat) :=
  Save (mkDocument EmptyString false) 0
  :: ((λ i, Save (numbered i) i) <$> seq 1 100).

End CacheManager.

(** * The extension: reconciling decorations and colorizing an editor *)

Module Colorize.
Import CacheManager.

(** vscode's [Position] and [Range]; [Range.isEqual] compares both ends. *)
Record Position : Type := mkPosition {
  line : nat;
  character : nat;
}.

Record Range : Type := mkRange {
  range_start : Position;
  range_end : Position;
}.

#[global] Instance Position_eq_dec : EqDecision Position.
Proof. solve_decision. Defined.

#[global] Instance Range_eq_dec : EqDecision Range.
Proof. solve_decision. Defined.

Definition isEqual (a b : Range) : bool := bool_decide (a = b).

(** Modelled from the spec: the interface [IDecoration] of
    [lib/util/color-util], which is not among the sources.  An annotation has
    a source range and a disposal flag; [dispose()] sets the flag and does
    nothing more when it is already set; [generateRange(line)] recomputes the
    range for a line and stores it in [currentRange].  Decorations are
    objects: they are named by a reference, and their mutable fields live in
    a heap. *)
Record Decoration : Type := mkDecoration {
  currentRange : Range;
  disposed : bool;
}.

Abbreviation Heap := (nat → Decoration).

(** [Map<number, IDecoration[]>]: the entries in insertion order, each line
    at most once. *)
Definition DecoMap : Type := list (nat * list nat).

Definition map_has (m : DecoMap) (line : nat) : bool :=
  bool_decide (line ∈ m.*1).

Definition map_get (m : DecoMap) (line : nat) : option (list nat) :=
  snd <$> (snd <$> list_find (λ e, e.1 = line) m).

(** [m.set(line, decorations)]: an entry that exists keeps its place. *)
Definition map_set (m : DecoMap) (line : nat) (decorations : list nat)
  : DecoMap :=
  if map_has m line
  then (λ e, if decide (e.1 = line) then (line, decorations) else e) <$> m
  else m ++ [(line, decorations)].

(** [array.findIndex(p)], [None] standing for [-1]. *)
Definition findIndex {A} (P : A → bool) (l : list A) : option nat :=
  fst <$> list_find (λ x, P x) l.

Section WithDecorations.

(** The range [generateRange(line)] computes for the decoration at a
    reference: it depends on the position and text of the colour the
    decoration was built for, which do not change. *)
Variable rangeAt : nat → nat → Range.

Definition generateRange (deco line : nat) (h : Heap) : Heap :=
  <[deco := mkDecoration (rangeAt deco line) (disposed (h deco))]> h.

Definition dispose (deco : nat) (h : Heap) : Heap :=
  <[deco := mkDecoration (currentRange (h deco)) true]> h.

(** The body of [decorations.forEach] in [removeDuplicateDecorations]. *)
Definition dedup_one (line : nat) (acc : list nat * Heap) (deco : nat)
  : list nat * Heap :=
  let '(newDecorations, h) := acc in
  let h := generateRange deco line h in
  let exist_ :=
    findIndex (λ x, isEqual (currentRange (h deco)) (currentRange (h x)))
              newDecorations in
  match exist_ with
  | Some exist_ =>
      let h := match newDecorations !! exist_ with
               | Some d => dispose d h
               | None => h
               end in
      (* [filter((_, i) => i !== exist)] drops position [exist] *)
      let newDecorations := delete exist_ newDecorations in
      (newDecorations ++ [deco], h)
  | None => (newDecorations ++ [deco], h)
  end.

Definition dedup_line (line : nat) (decorations : list nat) (h : Heap)
  : list nat * Heap :=
  foldl (dedup_one line) ([], h) decorations.

(** [removeDuplicateDecorations(context)]: the new [context.deco] and the
    heap after the calls of [generateRange] and [dispose]. *)
Definition removeDuplicateDecorations (deco : DecoMap) (h : Heap)
  : DecoMap * Heap :=
  foldl (λ (acc : DecoMap * Heap) (entry : nat * list nat),
           let '(m, h) := acc in
           let '(line, decorations) := entry in
           let '(newDecorations, h) := dedup_line line decorations h in
           (map_set m line newDecorations, h))
        ([], h) deco.

(** What holds of the heap [h0] before, and of the new array [nd] and the
    heap [h] after, [decorations.forEach] has gone through [pre] on a
    line. *)
Record line_inv (line : nat) (h0 : Heap) (pre nd : list nat) (h : Heap)
  : Prop := mk_line_inv {
  li_nodup : NoDup ((λ d, rangeAt d line) <$> nd);
  li_sub : ∀ x, x ∈ nd → x ∈ pre;
  li_range : ∀ x, x ∈ pre → currentRange (h x) = rangeAt x line;
  li_range_frame : ∀ x, x ∉ pre → currentRange (h x) = currentRange (h0 x);
  li_cover : ∀ x, x ∈ pre → x ∈ nd ∨ disposed (h x) = true;
  li_earlier :
    ∀ i j a b, i < j → pre !! i = Some a → pre !! j = Some b →
               rangeAt a line = rangeAt b line → disposed (h a) = true;
  li_last :
    ∀ j b, pre !! j = Some b →
           (∀ k c, j < k → pre !! k = Some c →
                   rangeAt c line ≠ rangeAt b line) →
           b ∈ nd;
  li_mono : ∀ x, disposed (h0 x) = true → disposed (h x) = true;
  li_frame :
    ∀ x, disposed (h x) = true →
         disposed (h0 x) = true
         ∨ ∃ i j b, i < j ∧ pre !! i = Some x ∧ pre !! j = Some b
                    ∧ rangeAt x line = rangeAt b line;
}.

(** What holds after the entries [pm] of the map have been gone through. *)
Record map_inv (h0 : Heap) (pm m' : DecoMap) (h : Heap) : Prop := mk_map_inv {
  mi_keys : m'.*1 = pm.*1;
  mi_lines :
    ∀ line ds, (line, ds) ∈ pm →
      ∃ ds', (line, ds') ∈ m'
        ∧ NoDup ((λ d, rangeAt d line) <$> ds')
        ∧ (∀ x, x ∈ ds' → x ∈ ds)
        ∧ (∀ i j a b, i < j → ds !! i = Some a → ds !! j = Some b →
                      rangeAt a line = rangeAt b line →
                      disposed (h a) = true)
        ∧ (∀ j b, ds !! j = Some b →
                  (∀ k c, j < k → ds !! k = Some c →
                          rangeAt c line ≠ rangeAt b line) →
                  b ∈ ds');
  mi_range :
    ∀ line ds x, (line, ds) ∈ pm → x ∈ ds →
      (∀ line' ds', (line', ds') ∈ pm → x ∈ ds' → line' = line) →
      currentRange (h x) = rangeAt x line;
  mi_mono : ∀ x, disposed (h0 x) = true → disposed (h x) = true;
  mi_frame :
    ∀ x, disposed (h x) = true →
         disposed (h0 x) = true
         ∨ ∃ line ds i j b,
             (line, ds) ∈ pm ∧ i < j ∧ ds !! i = Some x ∧ ds !! j = Some b
             ∧ rangeAt x line = rangeAt b line;
}.

End WithDecorations.

(** [updateContextDecorations(decorations, context)]: the new
    [context.deco]. *)
Definition updateContextDecorations (decorations : DecoMap) (deco : DecoMap)
  : DecoMap :=
  foldl (λ (deco : DecoMap) (entry : nat * list nat),
           let line := entry.1 in
           match map_get deco line with
           | Some old =>
               map_set deco line (old ++ default [] (map_get decorations line))
           | None =>
               map_set deco line (default [] (map_get decorations line))
           end)
        deco decorations.

(** The live annotations of a line: those not disposed. *)
Definition live (h : Heap) (decorations : list nat) : list nat :=
  filter (λ d, disposed (h d) = false) decorations.

(** Three annotation objects on line 3: the first two are for a colour at
    columns 4 to 11, the third for one at columns 20 to 24; none is
    disposed. *)
Definition columns (d line : nat) : Range :=
  if decide (d = 2)
  then mkRange (mkPosition line 20) (mkPosition line 24)
  else mkRange (mkPosition line 4) (mkPosition line 11).

Definition all_live : Heap :=
  λ _, mkDecoration (mkRange (mkPosition 0 0) (mkPosition 0 0)) false.

Definition two_on_line_3 : DecoMap := [(3, [0; 1; 2])].

(** ** Colorizing an editor *)

Record TextEditor : Type := mkEditor {
  document : TextDocument;
  selections : list nat;
  lineCount : nat;
}.

(** The fields of [class ColorizeContext] used by [colorize]. *)
Record ColorizeContext : Type := mkContext {
  editor : option TextEditor;
  nbLine : option nat;
  deco : DecoMap;
  currentSelection : option (list nat);
}.

(** The extension and the cache manager it shares with the other handlers;
    [called_back] counts the calls of the queue's [cb]. *)
Record Extension : Type := mkExtension {
  extension : ColorizeContext;
  cacheManager : CacheManager DecoMap;
  called_back : nat;
}.

(** How the closure given to [colorizeLimiter] ends. *)
Inductive Completion : Type :=
| Returned
| Thrown (error : string).

Section WithCollaborators.

(** [canColorize] reads the configuration and matches glob patterns. *)
Variable canColorize : TextDocument → bool.

(** [await initDecorations(extension)]: the context afterwards, with
    whatever got into [extension.deco], and the error if it rejected.  It
    runs the extraction collaborators, which are not among the sources. *)
Variable initDecorations : ColorizeContext → ColorizeContext * option string.

Definition cb (st : Extension) : Extension :=
  mkExtension (extension st) (cacheManager st) (S (called_back st)).

(** The closure [colorize(editor, cb)] hands to [colorizeLimiter.execute].
    The status bar and the calls of [EditorManager.decorate] paint and
    leave the extension and the cache as they are; they are left out. *)
Definition colorize (editor : option TextEditor) (st : Extension)
  : Extension * Completion :=
  (* extension.editor = undefined; extension.deco = new Map(); *)
  let ctx := mkContext None (nbLine (extension st)) []
                       (currentSelection (extension st)) in
  match editor with
  | None => (cb (mkExtension ctx (cacheManager st) (called_back st)), Returned)
  | Some editor =>
      if negb (canColorize (document editor)) then
        (cb (mkExtension ctx (cacheManager st) (called_back st)), Returned)
      else
        let ctx := mkContext (Some editor) (nbLine ctx) (Colorize.deco ctx)
                             (Some (selections editor)) in
        let '(deco, cache) :=
          getCachedDecorations (document editor) (cacheManager st) in
        match deco with
        | Some deco =>
            let ctx := mkContext (Colorize.editor ctx)
                                 (Some (lineCount editor)) deco
                                 (currentSelection ctx) in
            (cb (mkExtension ctx cache (called_back st)), Returned)
        | None =>
            let ctx := mkContext (Colorize.editor ctx)
                                 (Some (lineCount editor)) (Colorize.deco ctx)
                                 (currentSelection ctx) in
            (* try { await initDecorations(extension); } *)
            let '(ctx, failure) := initDecorations ctx in
            (* finally { if (extension.editor) saveDecorations(...) } *)
            let cache :=
              match Colorize.editor ctx with
              | Some e => saveDecorations (document e) (Colorize.deco ctx) cache
              | None => cache
              end in
            match failure with
            | Some error =>
                (mkExtension ctx cache (called_back st), Thrown error)
            | None => (cb (mkExtension ctx cache (called_back st)), Returned)
            end
        end
  end.

End WithCollaborators.

(** An editor on the saved document [a.css], an extension that has not
    cached anything, and an extraction that fails at once. *)
Definition a_css : TextEditor := mkEditor (mkDocument "a.css" false) [0] 10.

Definition fresh : Extension :=
  mkExtension (mkContext None (Some 0) [] None) new_CacheManager 0.

Definition failing_extraction (ctx : ColorizeContext)
  : ColorizeContext * option string :=
  (ctx, Some "extraction failed").

End Colorize.

(** * The language server: extracting file contents *)

Module Server.

Local Open Scope Z_scope.

(** What a call that may throw produces: a value, or the message of the
    error thrown. *)
Inductive Result (A : Type) : Type :=
| Ok (a : A)
| Err (message : string).

Arguments Ok {A} a.
Arguments Err {A} message.

(** The file system as the server sees it during one request:
    [fs.statSync(fileName).size] and [fs.readFileSync(fileName, 'utf8')],
    each of which may throw. *)
Record FileSystem : Type := mkFs {
  statSync : string → Result Z;
  readFileSync : string → Result string;
}.

Definition DEFAULT_FILE_SIZE_LIMIT : Z := 1024 * 1024.

(** [isFileSizeWithinLimit(fileName, sizeLimit = DEFAULT_FILE_SIZE_LIMIT)];
    [None] is an argument left out. *)
Definition isFileSizeWithinLimit (fs : FileSystem) (fileName : string)
    (sizeLimit : option Z) : bool :=
  let sizeLimit := default DEFAULT_FILE_SIZE_LIMIT sizeLimit in
  match statSync fs fileName with
  | Ok size => bool_decide (size ≤ sizeLimit)
  | Err _ => false
  end.

Record DocumentLine : Type := mkLine {
  text : string;
  line : nat;
}.

(** [text.split(/\n/)]. *)
Fixpoint split_newline (s : string) : list string :=
  match s with
  | EmptyString => [EmptyString]
  | String c s =>
      if Ascii.eqb c "010"%char then EmptyString :: split_newline s
      else match split_newline s with
           | l :: ls => String c l :: ls
           | [] => [String c EmptyString]
           end
  end.

Definition size_limit_message (sizeLimit : Z) : string :=
  "File size exceeds limit (" +:+ pretty sizeLimit +:+ " bytes)".

(** [extractFileContent(fileName, sizeLimit = DEFAULT_FILE_SIZE_LIMIT)]. *)
Definition extractFileContent (fs : FileSystem) (fileName : string)
    (sizeLimit : option Z) : Result (list DocumentLine) :=
  let sizeLimit := default DEFAULT_FILE_SIZE_LIMIT sizeLimit in
  (* Check file size before reading *)
  if negb (isFileSizeWithinLimit fs fileName (Some sizeLimit)) then
    Err (size_limit_message sizeLimit +:+ ": " +:+ fileName)
  else
    match readFileSync fs fileName with
    | Ok text =>
        Ok (imap (λ index text, mkLine text index) (split_newline text))
    | Err message => Err message
    end.

(** The request and the response of [colorize_extract_variables]. *)
Record Request : Type := mkRequest {
  rootFolder : string;
  includes : list string;
  excludes : list string;
  fileSizeLimit : option Z;
}.

Record ExtractVariablesError : Type := mkError {
  error_fileName : option string;
  error : string;
}.

Record Response : Type := mkResponse {
  filesContent : list (string * list DocumentLine);
  errors : option (list ExtractVariablesError);
}.

Definition MAX_FILES_PER_BATCH : nat := 100.

(** The body of [for (const fileName of batch)]: the two arrays afterwards. *)
Definition process_file (fs : FileSystem) (fileSizeLimit : Z)
    (acc : list (string * list DocumentLine) * list ExtractVariablesError)
    (fileName : string)
  : list (string * list DocumentLine) * list ExtractVariablesError :=
  let '(filesContent, errors) := acc in
  (* Check file size before processing *)
  if negb (isFileSizeWithinLimit fs fileName (Some fileSizeLimit)) then
    (filesContent,
     errors ++ [mkError (Some fileName) (size_limit_message fileSizeLimit)])
  else
    match extractFileContent fs fileName (Some fileSizeLimit) with
    | Ok content => (filesContent ++ [(fileName, content)], errors)
    | Err message =>
        (* Log error and continue with next file *)
        (filesContent, errors ++ [mkError (Some fileName) message])
    end.

(** [files.slice(i, j)]. *)
Definition slice {A} (i j : nat) (l : list A) : list A :=
  take (j - i) (drop i l).

(** [for (let i = 0; i < files.length; i += MAX_FILES_PER_BATCH)], from [i]
    on, for at most [fuel] rounds. *)
Fixpoint process_batches (fuel : nat) (fs : FileSystem) (fileSizeLimit : Z)
    (files : list string) (i : nat)
    (acc : list (string * list DocumentLine) * list ExtractVariablesError)
  : list (string * list DocumentLine) * list ExtractVariablesError :=
  match fuel with
  | O => acc
  | S fuel =>
      if bool_decide (i < length files)%nat then
        let batch := slice i (i + MAX_FILES_PER_BATCH) files in
        process_batches fuel fs fileSizeLimit files (i + MAX_FILES_PER_BATCH)
                        (foldl (process_file fs fileSizeLimit) acc batch)
      else acc
  end.

(** The handler of [colorize_extract_variables].  [settings] is what
    [await getDocumentSettings(request.rootFolder)] gives, reduced to its
    [fileSizeLimit]; [files] is what [globbySync] returns for the request.
    Either may throw, which the outer [catch] turns into a response. *)
Definition handler (fs : FileSystem) (settings : Result Z)
    (files : Result (list string)) (request : Request) : Response :=
  match settings with
  | Err message => mkResponse [] (Some [mkError None message])
  | Ok settings_fileSizeLimit =>
      let fileSizeLimit :=
        match fileSizeLimit request with
        | Some limit => limit
        | None => settings_fileSizeLimit
        end in
      match files with
      | Err message => mkResponse [] (Some [mkError None message])
      | Ok files =>
          let '(filesContent, errors) :=
            process_batches (length files) fs fileSizeLimit files 0 ([], []) in
          mkResponse filesContent
                     (match errors with
                      | [] => None
                      | _ :: _ => Some errors
                      end)
      end
  end.

(** [haystack.includes(needle)]. *)
Fixpoint string_includes (needle haystack : string) : bool :=
  String.prefix needle haystack
  || match haystack with
     | EmptyString => false
     | String _ haystack => string_includes needle haystack
     end.

(** How the client tells the size-limit errors from the others. *)
Definition is_size_limit_error (e : ExtractVariablesError) : bool :=
  string_includes "File size exceeds limit" (error e).

(** What the loop does with one file. *)
Definition extracted (fs : FileSystem) (fileSizeLimit : Z) (fileName : string)
  : option (string * list DocumentLine) :=
  if isFileSizeWithinLimit fs fileName (Some fileSizeLimit) then
    match extractFileContent fs fileName (Some fileSizeLimit) with
    | Ok content => Some (fileName, content)
    | Err _ => None
    end
  else None.

Definition reported (fs : FileSystem) (fileSizeLimit : Z) (fileName : string)
  : option ExtractVariablesError :=
  if isFileSizeWithinLimit fs fileName (Some fileSizeLimit) then
    match extractFileContent fs fileName (Some fileSizeLimit) with
    | Ok _ => None
    | Err message => Some (mkError (Some fileName) message)
    end
  else Some (mkError (Some fileName) (size_limit_message fileSizeLimit)).

(** A disk with a file of 2 MiB, a file that is gone and a file that cannot
    be read among small ones, and a request that leaves the ceiling to the
    settings. *)
Definition disk : FileSystem :=
  mkFs (λ f, if decide (f = "big.css") then Ok (2 * 1024 * 1024)
             else if decide (f = "gone.css") then Err "ENOENT"
             else Ok 10)
       (λ f, if decide (f = "locked.css") then Err "EACCES"
             else Ok "a: red").

Definition found : list string :=
  ["a.css"; "big.css"; "gone.css"; "locked.css"; "z.css"].

Definition plain_request : Request := mkRequest "/" [] [] None.

(** The errors of a response, [undefined] read as none. *)
Definition error_list (r : Response) : list ExtractVariablesError :=
  default [] (errors r).

End Server.

(** * The rate limiter in use *)

Module RateLimiterUse.
Import RateLimiter.
Local Open Scope Z_scope.




(** Times in the order of the clock. *)
Fixpoint in_order (now : Z) (calls : list (Z * nat)) : Prop :=
  match calls with
  | [] => True
  | (t, _) :: calls => now ≤ t ∧ in_order t calls
  end.


End RateLimiterUse.

(** * Debounce *)

Module Debounce.

Local Open Scope Z_scope.

Section WithArgs.

(** The arguments the debounced function is called with, and passes on to
    [func]. *)
Context {Args : Type}.

(** What is observed of a debounced function: its own calls and the calls it
    makes of [func], each with the time and the arguments. *)
Inductive Entry : Type :=
| Called (t : Z) (args : Args)
| Ran (t : Z) (args : Args).

(** The closure [debounce(func, wait)] returns, with the part of the host it
    talks to: [timeout] is the variable of the closure; a timer of the table
    has a handle, a due time and the arguments its callback has captured;
    [history] has the newest entry first. *)
Record Host : Type := mkHost {
  wait : Z;
  timeout : option nat;
  clock : Z;
  timers : list (nat * (Z * Args));
  nextTimer : nat;
  history : list Entry;
}.


Definition set_clock (t : Z) (w : Host) : Host :=
  mkHost (wait w) (timeout w) t (timers w) (nextTimer w) (history w).

Definition clearTimeout (h : nat) (w : Host) : Host :=
  mkHost (wait w) (timeout w) (clock w) (filter (λ e, e.1 ≠ h) (timers w))
         (nextTimer w) (history w).

(** A call of the debounced function with [args], at time [now].  A timer
    handle is an object, so [if (timeout)] holds exactly when the variable
    is not [null]. *)
Definition debounced (now : Z) (args : Args) (w : Host) : Host :=
  let w := match timeout w with
           | Some h => clearTimeout h w
           | None => w
           end in
  (* timeout = setTimeout(() => { func(...args); timeout = null; }, wait) *)
  mkHost (wait w) (Some (nextTimer w)) (clock w)
         (timers w ++ [(nextTimer w, (now + wait w, args))])
         (S (nextTimer w)) (Called now args :: history w).

(** The callback given to [setTimeout], run at time [now]; [func] is taken to
    return, and not to call the debounced function. *)
Definition onTimeout (now : Z) (args : Args) (w : Host) : Host :=
  mkHost (wait w) None (clock w) (timers w) (nextTimer w)
         (Ran now args :: history w).

Fixpoint timer_of (h : nat) (tms : list (nat * (Z * Args)))
  : option (Z * Args) :=
  match tms with
  | [] => None
  | (h', timer) :: tms => if decide (h' = h) then Some timer else timer_of h tms
  end.

Inductive Event : Type :=
| Call (t : Z) (args : Args)
| Fires (t : Z) (h : nat).

(** One event.  [None] when the host cannot produce it: the clock does not
    run backwards, and a timer fires only while armed and not before it is
    due; a fired timer leaves the table. *)
Definition step (w : Host) (e : Event) : option Host :=
  match e with
  | Call t args =>
      if decide (clock w ≤ t) then Some (debounced t args (set_clock t w))
      else None
  | Fires t h =>
      match timer_of h (timers w) with
      | Some (due, args) =>
          if decide (clock w ≤ t ∧ due ≤ t)
          then Some (onTimeout t args (clearTimeout h (set_clock t w)))
          else None
      | None => None
      end
  end.

Fixpoint run (w : Host) (tr : list Event) : option Host :=
  match tr with
  | [] => Some w
  | e :: tr =>
      match step w e with
      | Some w => run w tr
      | None => None
      end
  end.

(** The event loop left to itself: every armed timer fires at the moment it
    is due. *)
Fixpoint earliest (tms : list (nat * (Z * Args))) : option (nat * Z) :=
  match tms with
  | [] => None
  | (h, (due, _)) :: tms =>
      match earliest tms with
      | Some (h', due') =>
          if decide (due' < due) then Some (h', due') else Some (h, due)
      | None => Some (h, due)
      end
  end.

Fixpoint advance (fuel : nat) (limit : option Z) (w : Host) : option Host :=
  match fuel with
  | O => Some w
  | S fuel =>
      match earliest (timers w) with
      | Some (h, due) =>
          if match limit with
             | Some t => bool_decide (due ≤ t)
             | None => true
             end
          then w ← step w (Fires due h); advance fuel limit w
          else Some w
      | None => Some w
      end
  end.

(** Calls at the given times, then the host left alone until nothing is
    armed any more. *)
Fixpoint play (w : Host) (calls : list (Z * Args)) : option Host :=
  match calls with
  | [] => advance (length (timers w)) None w
  | (t, args) :: calls =>
      w ← advance (length (timers w)) (Some t) w;
      w ← step w (Call t args);
      play w calls
  end.


(** In a history, newest entry first, every call of [func] comes straight
    after the call of the debounced function whose arguments it passes on,
    and at least [wait] later. *)
Fixpoint paired (wait : Z) (entries : list Entry) : Prop :=
  match entries with
  | [] => True
  | Called _ _ :: entries => paired wait entries
  | Ran t args :: entries =>
      match entries with
      | Called c args' :: _ => args' = args ∧ c + wait ≤ t
      | _ => False
      end ∧ paired wait entries
  end.

(** A timer is armed exactly when the closure holds its handle; it is the
    timer of the latest call. *)
Record wf (w : Host) : Prop := mk_wf {
  wf_timers :
    match timeout w with
    | Some h =>
        ∃ c args entries,
          timers w = [(h, (c + wait w, args))]
          ∧ history w = Called c args :: entries
          ∧ c ≤ clock w
    | None => timers w = []
    end;
  wf_paired : paired (wait w) (history w);
}.




(** Times in the order of the clock. *)
Fixpoint in_order (now : Z) (calls : list (Z * Args)) : Prop :=
  match calls with
  | [] => True
  | (t, _) :: calls => now ≤ t ∧ in_order t calls
  end.

End WithArgs.

Arguments Entry Args : clear implicits.
Arguments Host Args : clear implicits.
Arguments Event Args : clear implicits.

End Debounce.

(** * The cache manager in use *)

Module CacheManagerUse.
Import CacheManager.

Section WithDecorations.
Context {V : Type}.
Implicit Types this : CacheManager V.

(** Neither cache holds more files than [MAX_CACHE_SIZE]. *)
Definition within_capacity this : Prop :=
  size (_dirtyCache this) ≤ MAX_CACHE_SIZE this
  ∧ size (_decorationsCache this) ≤ MAX_CACHE_SIZE this.

(** The file names the operations are about. *)
Definition names_used (ops : list (Op V)) : list string :=
  omap (λ op, fileName <$> op_document op) ops.

(** The two partitions: the cache of dirty documents with its LRU array,
    and the cache of saved documents with its own. *)
Definition cache_of (dirty : bool) this : gmap string V :=
  if dirty then _dirtyCache this else _decorationsCache this.

Definition lru_of (dirty : bool) this : list string :=
  if dirty then _dirtyCacheLRU this else _decorationsCacheLRU this.

(** [f] is in the LRU array of a partition, and every name behind it is one
    of [others]. *)
Definition ahead_of (others : list string) (f : string) (dirty : bool) this
  : Prop :=
  ∃ pre post, lru_of dirty this = pre ++ f :: post
              ∧ ∀ g, g ∈ post → g ∈ others.

(** The operation saves decorations for file [f] into a partition. *)
Definition saves_into (dirty : bool) (f : string) (op : Op V) : Prop :=
  match op with
  | Save document _ => fileName document = f ∧ isDirty document = dirty
  | Get _ | Clear => False
  end.

End WithDecorations.

End CacheManagerUse.

(** * The language server, seen from its client *)

Module ServerUse.
Import Server.
Local Open Scope Z_scope.

(** The separator of [text.split(/\n/)]. *)
Definition newline : string := String "010"%char EmptyString.

(** A file the loop of the handler can extract: its size is known and within
    the ceiling, and it can be read. *)
Definition readable (fs : FileSystem) (fileSizeLimit : Z) (fileName : string)
  : bool :=
  isFileSizeWithinLimit fs fileName (Some fileSizeLimit)
  && match readFileSync fs fileName with
     | Ok _ => true
     | Err _ => false
     end.

End ServerUse.

(** * The server's cache of document settings *)

Module DocumentSettings.
Import CacheManager Server.
Local Open Scope Z_scope.

(** [ColorizeSettings], by the one field the server reads and writes; a
    settings object that comes from the client may lack it. *)
Record ColorizeSettings : Type := mkSettings {
  settings_fileSizeLimit : option Z;
}.

Definition defaultSettings : ColorizeSettings :=
  mkSettings (Some (1024 * 1024)).

Definition MAX_DOCUMENT_SETTINGS : nat := 100.

(** The module-level variables.  A [Thenable] kept in [documentSettings] is
    given by what it settles to; [asked] lists the [scopeUri] of the calls of
    [connection.workspace.getConfiguration], oldest first. *)
Record State : Type := mkState {
  hasConfigurationCapability : bool;
  documentSettings : gmap string (Result ColorizeSettings);
  documentSettingsLRU : list string;
  asked : list string;
}.

(** Every settings object kept has a file size limit. *)
Definition limits_defined (s : State) : Prop :=
  ∀ uri settings, documentSettings s !! uri = Some (Ok settings) →
                  is_Some (settings_fileSizeLimit settings).

(** The settings kept and their LRU array are in step, the empty string is
    not a key, and no more than [MAX_DOCUMENT_SETTINGS] are kept. *)
Record settled (s : State) : Prop := mk_settled {
  settled_in_step : in_step (documentSettings s) (documentSettingsLRU s);
  settled_no_empty : documentSettings s !! EmptyString = None;
  settled_size : (size (documentSettings s) ≤ MAX_DOCUMENT_SETTINGS)%nat;
}.

(** The settings kept for [f] are [v], and every resource behind [f] in the
    LRU array is one of [others]. *)
Definition kept_ahead (others : list string) (f : string)
    (v : Result ColorizeSettings) (s : State) : Prop :=
  documentSettings s !! f = Some v
  ∧ ∃ pre post, documentSettingsLRU s = pre ++ f :: post
                ∧ ∀ g, g ∈ post → g ∈ others.

(** The server once [onInitialize] has recorded the capability. *)
Definition initialized (capability : bool) : State :=
  mkState capability ∅ [] [].

(** The callback of [.then] in [getDocumentSettings]. *)
Definition ensure_fileSizeLimit (settings : ColorizeSettings)
  : ColorizeSettings :=
  match settings_fileSizeLimit settings with
  | None => mkSettings (settings_fileSizeLimit defaultSettings)
  | Some _ => settings
  end.

Definition then_ {A B} (f : A → B) (r : Result A) : Result B :=
  match r with
  | Ok a => Ok (f a)
  | Err message => Err message
  end.

Section WithClient.

(** What the client answers to the [n]-th call of [getConfiguration], for a
    given [scopeUri]: a settings object, or a failure. *)
Variable getConfiguration : nat → string → Result ColorizeSettings.

(** [getDocumentSettings(resource)]: what the returned [Thenable] settles
    to, and the state afterwards. *)
Definition getDocumentSettings (resource : string) (s : State)
  : Result ColorizeSettings * State :=
  if negb (hasConfigurationCapability s) then (Ok defaultSettings, s)
  else
    (* Update LRU order - remove if exists and add to end *)
    let lru :=
      match indexOf (documentSettingsLRU s) resource with
      | Some lruIndex => delete lruIndex (documentSettingsLRU s)
      | None => documentSettingsLRU s
      end ++ [resource] in
    match documentSettings s !! resource with
    | Some result =>
        (result,
         mkState (hasConfigurationCapability s) (documentSettings s) lru
                 (asked s))
    | None =>
        let '(settings, lru) :=
          if bool_decide (MAX_DOCUMENT_SETTINGS ≤ size (documentSettings s))%nat
             && bool_decide (0 < length lru)%nat then
            match lru with
            | lruResource :: lru =>
                (if truthy lruResource
                 then delete lruResource (documentSettings s)
                 else documentSettings s, lru)
            | [] => (documentSettings s, lru)
            end
          else (documentSettings s, lru) in
        let result :=
          then_ ensure_fileSizeLimit
                (getConfiguration (length (asked s)) resource) in
        (result,
         mkState (hasConfigurationCapability s)
                 (<[resource := result]> settings) lru
                 (asked s ++ [resource]))
    end.

(** [connection.onDidChangeConfiguration]. *)
Definition onDidChangeConfiguration (s : State) : State :=
  if hasConfigurationCapability s
  then mkState (hasConfigurationCapability s) ∅ [] (asked s)
  else s.

(** [documents.onDidClose]. *)
Definition onDidClose (uri : string) (s : State) : State :=
  mkState (hasConfigurationCapability s)
          (delete uri (documentSettings s))
          match indexOf (documentSettingsLRU s) uri with
          | Some lruIndex => delete lruIndex (documentSettingsLRU s)
          | None => documentSettingsLRU s
          end
          (asked s).

(** What reaches the server: a document is opened ([onDidOpen] awaits
    [getDocumentSettings]) or closed, the configuration changes, or
    [colorize_extract_variables] asks for the settings of a root folder. *)
Inductive Event : Type :=
| DidOpen (uri : string)
| DidClose (uri : string)
| DidChangeConfiguration
| ExtractVariables (rootFolder : string).

Definition handle (s : State) (e : Event) : State :=
  match e with
  | DidOpen uri => (getDocumentSettings uri s).2
  | DidClose uri => onDidClose uri s
  | DidChangeConfiguration => onDidChangeConfiguration s
  | ExtractVariables rootFolder => (getDocumentSettings rootFolder s).2
  end.

(** The settings of the resources asked for one after the other. *)
Definition requests (resources : list string) (s : State) : State :=
  foldl (λ s resource, (getDocumentSettings resource s).2) s resources.

Definition resource_of (e : Event) : option string :=
  match e with
  | DidOpen uri | DidClose uri => Some uri
  | ExtractVariables rootFolder => Some rootFolder
  | DidChangeConfiguration => None
  end.

End WithClient.

(** The ceiling the handler takes from the settings it awaited. *)
Definition ceiling (settings : Result ColorizeSettings) : Result (option Z) :=
  then_ settings_fileSizeLimit settings.

End DocumentSettings.

(** * The extension asks the server for the variables of a workspace *)

Module VariablesExtraction.
Import CacheManager Server.

(** What the user and [VariablesManager] get to see of one extraction: the
    lines written with [console.error], the warning and the error message
    shown in a window, and the files handed to
    [VariablesManager.getWorkspaceVariables]. *)
Inductive Logged : Type :=
| Line (message : string)
| ExtractionError (error : string).

Record Shown : Type := mkShown {
  console : list Logged;
  warningMessage : option string;
  errorMessage : option string;
  workspaceVariables : option (list (string * list DocumentLine));
}.

Definition error_line (e : ExtractVariablesError) : string :=
  match error_fileName e with
  | Some fileName =>
      if truthy fileName
      then "Error processing " +:+ fileName +:+ ": " +:+ error e
      else "Error: " +:+ error e
  | None => "Error: " +:+ error e
  end.

Definition size_limit_warning (count : nat) : string :=
  pretty count +:+ " file(s) exceeded the size limit and were skipped. "
  +:+ "You can adjust the limit in settings (colorize.fileSizeLimit).".

(** The [try] block of [triggerVariablesExtraction], from the answer to
    [client.sendRequest] on; the request itself may fail. *)
Definition on_response (response : Result Response) : Shown :=
  match response with
  | Err error =>
      mkShown [ExtractionError error] None
              (Some "Failed to extract color variables. See console for details.")
              None
  | Ok response =>
      (* Handle the new response format which includes errors *)
      let '(console, warningMessage) :=
        match errors response with
        | Some (e :: es) =>
            let errors := e :: es in
            let fileSizeLimitErrors :=
              filter (λ e, is_size_limit_error e) errors in
            (Line ∘ error_line <$> errors,
             if bool_decide (0 < length fileSizeLimitErrors)
             then Some (size_limit_warning (length fileSizeLimitErrors))
             else None)
        | _ => ([], None)
        end in
      (* Process the files content that were successfully extracted *)
      mkShown console warningMessage None
              match filesContent response with
              | [] => None
              | _ :: _ => Some (filesContent response)
              end
  end.

End VariablesExtraction.

(** * The extension: the other handlers of the live map and the cache *)

Module Handlers.
Import CacheManager Colorize.

(** [cleanDecorationList(context, cb)]: the new [context.deco]; the callback
    is called afterwards.  The entries are gone through in order, and each
    line is set to those of its decorations that are not disposed. *)
Definition cleanDecorationList (deco : DecoMap) (h : Heap) : DecoMap :=
  foldl (λ (deco : DecoMap) (entry : nat * list nat),
           let '(line, decorations) := entry in
           map_set deco line
                   (filter (λ decoration, disposed (h decoration) = false)
                           decorations))
        deco deco.

(** The task [handleCloseOpen(document)] puts on the queue. *)
Definition handleCloseOpen (document : TextDocument) (st : Extension)
  : Extension :=
  match editor (extension st) with
  | Some e =>
      if decide (fileName (Colorize.document e) = fileName document) then
        cb (mkExtension (extension st)
                        (saveDecorations document (deco (extension st))
                                         (cacheManager st))
                        (called_back st))
      else cb st
  | None => cb st
  end.

#[global] Instance TextDocument_eq_dec : EqDecision TextDocument.
Proof. solve_decision. Defined.

#[global] Instance TextEditor_eq_dec : EqDecision TextEditor.
Proof. solve_decision. Defined.

(** [handleChangeActiveTextEditor(editor)], with [visible] what
    [getVisibleFileEditors()] returns: the extension afterwards, and the
    editors for which a [colorize] task is put on the queue, in order.
    Hiding the decorations paints and leaves the extension and the cache as
    they are; it is left out.  Editors are told apart by what they show. *)
Definition handleChangeActiveTextEditor (editor : option TextEditor)
    (visible : list TextEditor) (st : Extension)
  : Extension * list TextEditor :=
  match editor with
  | None => (st, [])
  | Some editor =>
      let st :=
        match Colorize.editor (extension st) with
        | Some e =>
            mkExtension (extension st)
                        (saveDecorations (document e) (deco (extension st))
                                         (cacheManager st))
                        (called_back st)
        | None => st
        end in
      (st, filter (λ e, e ≠ editor) visible ++ [editor])
  end.

(** An editor on the dirty document [b.less], and an extraction that finds
    nothing. *)
Definition b_less : TextEditor := mkEditor (mkDocument "b.less" true) [4] 20.

Definition no_colours (ctx : ColorizeContext)
  : ColorizeContext * option string :=
  (ctx, None).

(** The heap in which the decoration at reference 0 is disposed and no
    other is; and an extension whose active editor shows [a.css] with three
    decorations on line 3. *)
Definition first_disposed : Heap :=
  λ d, mkDecoration (mkRange (mkPosition 0 0) (mkPosition 0 0))
                    (bool_decide (d = 0)).

Definition showing_a_css : Extension :=
  mkExtension (mkContext (Some a_css) (Some 10) two_on_line_3 (Some [0]))
              new_CacheManager 0.

End Handlers.

(** * Properties of the rate limiter *)

Module RateLimiterFacts.
Import RateLimiter.
Local Open Scope Z_scope.

Lemma wf_create I : wf (create I).
Proof. split; simpl; try done; set_solver. Qed.


Lemma settle_promise_eq p r ps :
  ps !! p = Some Pending → settle_promise p r ps !! p = Some (settle r).
Proof.
  intros Hp. unfold settle_promise. rewrite Hp.
  apply list_lookup_insert_eq. by eapply lookup_lt_Some.
Qed.

Lemma settle_promise_ne p q r ps :
  p ≠ q → settle_promise p r ps !! q = ps !! q.
Proof.
  intros Hne. unfold settle_promise.
  destruct (ps !! p) as [[]|]; try done. by apply list_lookup_insert_ne.
Qed.


Lemma wf_call now f q' w :
  wf w →
  timers w = [] →
  lastExecutionTime (limiter w) + minInterval (limiter w) ≤ now →
  now ≤ clock w →
  callable f w →
  wf (call now f
        (mkHost (mkLimiter (minInterval (limiter w)) now None q')
                (clock w) [] (nextTimer w) (ran w) (promises w))).
Proof.
  intros [Ht Hc Hl Hs Hq Hr Hst] Htms Hgap Hclk Hcall.
  destruct w as [[I last tid q] clk tms nt rn ps]; simpl in *.
  assert (Hsp : spaced I (now :: rn.*1)).
  { destruct rn as [|[t' f'] rn]; simpl in *; [done|]. split; [lia|done]. }
  destruct f as [k|p k r].
  - split; simpl; try done.
    + intros t p k' r' [Heq|Hin]%elem_of_cons; [done|]. eauto.
    + intros p st Hp Hne. destruct (Hst p st Hp Hne) as (e & He & Hw).
      exists e. split; [by right|done].
  - destruct (Hcall p k r eq_refl) as [Hp Hnot].
    split; simpl; try done.
    + intros t p' k' r' [Heq|Hin]%elem_of_cons.
      * inversion Heq; subst. by apply settle_promise_eq.
      * destruct (decide (p = p')) as [->|Hne].
        { exfalso. by apply (Hnot _ Hin). }
        rewrite settle_promise_ne by done. eauto.
    + intros p' st Hp' Hne. destruct (decide (p = p')) as [->|Hpp].
      * exists (now, Wrapper p' k r). split; [by left|done].
      * rewrite settle_promise_ne in Hp' by done.
        destruct (Hst p' st Hp' Hne) as (e & He & Hw).
        exists e. split; [by right|done].
Qed.

Lemma wf_execute now fn w :
  wf w → clock w = now → callable fn w → wf (execute now fn w).
Proof.
  intros Hwf Hnow Hcall. unfold execute.
  set (w1 := match timeoutId (limiter w) with Some h => _ | None => w end).
  assert (Hw1 : ∃ q', w1 = mkHost (mkLimiter (minInterval (limiter w))
                     (lastExecutionTime (limiter w)) None q')
                     (clock w) [] (nextTimer w) (ran w) (promises w)).
  { subst w1. destruct Hwf as [Ht Hc Hl Hs Hq Hr Hst].
    destruct w as [[I last tid q] clk tms nt rn ps]; simpl in *.
    destruct tid as [h|]; simpl.
    - destruct Ht as [-> Hsome]. unfold set_limiter, clearTimeout; simpl.
      rewrite filter_cons_False by (simpl; tauto).
      rewrite filter_nil. by exists q.
    - subst tms. by exists q. }
  clearbody w1. destruct Hw1 as [q' ->]. simpl.
  case_decide as Hdec.
  - unfold set_limiter; simpl.
    assert (Hw0 : wf (mkHost (mkLimiter (minInterval (limiter w))
                     (lastExecutionTime (limiter w)) None q')
                     (clock w) [] (nextTimer w) (ran w) (promises w))).
    { destruct Hwf as [Ht Hc Hl Hs Hq Hr Hst]. split; simpl; done. }
    apply (wf_call now fn q' _ Hw0); simpl; try done; lia.
  - destruct Hwf as [Ht Hc Hl Hs Hq Hr Hst].
    split; simpl; try done.
    + split; [|by eauto]. do 2 f_equal. lia.
    + intros p k r _ [= ->]. by eapply Hcall.
Qed.

Lemma wf_executeAsync now k r w :
  wf w → clock w = now → wf (executeAsync now k r w).2.
Proof.
  intros Hwf Hnow. unfold executeAsync; simpl.
  destruct Hwf as [Ht Hc Hl Hs Hq Hr Hst].
  assert (Hlen : ∀ e, e ∈ ran w → ¬ is_wrapper_of (length (promises w)) e.2).
  { intros [t [k'|p' k' r']] Hin; simpl; [tauto|]. intros ->.
    apply Hr, lookup_lt_Some in Hin. lia. }
  apply wf_execute; [|done|].
  - split; simpl; try done.
    + intros p k' r' Hne Hque. destruct (Hq p k' r' Hne Hque) as [Hp Hnot].
      split; [|done]. by apply lookup_app_l_Some.
    + intros t p k' r' Hin. by apply lookup_app_l_Some, (Hr t p k' r').
    + intros p st Hp Hne. apply lookup_app_Some in Hp as [Hp|[_ Hp]]; [eauto|].
      apply list_lookup_singleton_Some in Hp as [_ <-]. done.
  - intros p k' r' [= <- <- <-]. simpl. split; [|done].
    rewrite lookup_app_r by lia. by rewrite Nat.sub_diag.
Qed.

Lemma wf_cancel w : wf w → wf (cancel w).
Proof.
  intros [Ht Hc Hl Hs Hq Hr Hst]. unfold cancel.
  destruct w as [[I last tid q] clk tms nt rn ps]; simpl in *.
  destruct tid as [h|]; simpl; [|done].
  destruct Ht as [-> Hsome]. unfold set_limiter, clearTimeout; simpl.
  rewrite filter_cons_False by (simpl; tauto).
  rewrite filter_nil. split; simpl; done.
Qed.

Lemma timer_due_wf h due w :
  wf w → timer_due h w = Some due →
  timeoutId (limiter w) = Some h
  ∧ due = lastExecutionTime (limiter w) + minInterval (limiter w)
  ∧ is_Some (queuedExecution (limiter w)).
Proof.
  intros [Ht _ _ _ _ _ _]. unfold timer_due.
  destruct (timeoutId (limiter w)) as [h'|].
  - destruct Ht as [-> Hsome]. simpl. case_decide; [|done].
    intros [= <-]. by subst.
  - by rewrite Ht.
Qed.

Lemma wf_timeout t h due w :
  wf w → timer_due h w = Some due → clock w ≤ t → due ≤ t →
  wf (onTimeout t (clearTimeout h (set_clock t w))).
Proof.
  intros Hwf Hdue Hclk Hle.
  destruct (timer_due_wf _ _ _ Hwf Hdue) as (Htid & -> & [f Hf]).
  assert (Hq := wf_queued _ Hwf).
  assert (Hw0 : wf (mkHost (mkLimiter (minInterval (limiter w))
                     (lastExecutionTime (limiter w)) None None)
                     t [] (nextTimer w) (ran w) (promises w))).
  { destruct Hwf as [Ht Hc Hl Hs _ Hr Hst]. split; simpl; try done. lia. }
  pose proof (wf_call t f None _ Hw0) as Hcall. simpl in Hcall.
  destruct Hwf as [Ht _ _ _ _ _ _].
  destruct w as [[I last tid q] clk tms nt rn ps]; simpl in *. subst tid q.
  destruct Ht as [-> _]. unfold onTimeout, clearTimeout; simpl.
  rewrite filter_cons_False by (simpl; tauto). rewrite filter_nil.
  assert (wf (call t f (mkHost (mkLimiter I t None None) t [] nt rn ps)))
    as Hgoal.
  { apply Hcall; try done; try lia. intros p k r ->. by eapply Hq. }
  destruct f; exact Hgoal.
Qed.

Lemma wf_step w e w' : wf w → step w e = Some w' → wf w'.
Proof.
  intros Hwf. destruct e as [t k|t k r| |t h]; simpl.
  - case_decide; [|done]. intros [= <-].
    destruct Hwf as [Ht Hc Hl Hs Hq Hr Hst].
    apply wf_execute; [split; simpl; try done; lia|done|done].
  - case_decide; [|done]. intros [= <-].
    destruct Hwf as [Ht Hc Hl Hs Hq Hr Hst].
    apply (wf_executeAsync t k r (set_clock t w));
      [split; simpl; try done; lia|done].
  - intros [= <-]. by apply wf_cancel.
  - destruct (timer_due h w) as [due|] eqn:Hdue; [|done].
    case_decide as Hdec; [|done]. intros [= <-].
    destruct Hdec. by eapply wf_timeout.
Qed.

Lemma wf_run tr : ∀ w w', wf w → run w tr = Some w' → wf w'.
Proof.
  induction tr as [|e tr IH]; simpl; intros w w' Hwf.
  - by intros [= <-].
  - destruct (step w e) as [w1|] eqn:Hstep; [|done].
    eauto using wf_step.
Qed.

Lemma minInterval_step w e w' :
  step w e = Some w' → minInterval (limiter w') = minInterval (limiter w).
Proof.
  destruct w as [[I last tid q] clk tms nt rn ps].
  destruct e as [t k|t k r| |t h]; simpl.
  - case_decide; [|done]. intros [= <-]. unfold execute; simpl.
    destruct tid; simpl; case_decide; done.
  - case_decide; [|done]. intros [= <-]. unfold execute; simpl.
    destruct tid; simpl; case_decide; done.
  - intros [= <-]. unfold cancel; simpl. by destruct tid.
  - unfold timer_due; simpl. destruct (due_of h tms); [|done].
    case_decide; [|done]. intros [= <-]. unfold onTimeout; simpl.
    by destruct q as [[]|].
Qed.

Lemma minInterval_run tr : ∀ w w',
  run w tr = Some w' → minInterval (limiter w') = minInterval (limiter w).
Proof.
  induction tr as [|e tr IH]; simpl; intros w w'.
  - by intros [= <-].
  - destruct (step w e) as [w1|] eqn:Hstep; [|done].
    intros Hrun. rewrite (IH _ _ Hrun). by eapply minInterval_step.
Qed.

(** ** What one call of [execute] and one timer firing do *)

Lemma call_eq now f w :
  call now f w =
  mkHost (limiter w) (clock w) (timers w) (nextTimer w)
         ((now, f) :: ran w) (promises_after f (promises w)).
Proof. by destruct f. Qed.

Lemma execute_cases now fn w :
  wf w →
  let l := limiter w in
  (minInterval l ≤ now - lastExecutionTime l
   ∧ execute now fn w =
       mkHost (mkLimiter (minInterval l) now None (queuedExecution l))
              (clock w) [] (nextTimer w)
              ((now, fn) :: ran w) (promises_after fn (promises w)))
  ∨ (now - lastExecutionTime l < minInterval l
     ∧ execute now fn w =
         mkHost (mkLimiter (minInterval l) (lastExecutionTime l)
                           (Some (nextTimer w)) (Some fn))
                (clock w)
                [(nextTimer w, lastExecutionTime l + minInterval l)]
                (S (nextTimer w)) (ran w) (promises w)).
Proof.
  intros [Ht _ _ _ _ _ _]. unfold execute.
  destruct w as [[I last tid q] clk tms nt rn ps]; simpl in *.
  destruct tid as [h|]; simpl.
  - destruct Ht as [-> _]. unfold set_limiter, clearTimeout; simpl.
    rewrite filter_cons_False by (simpl; tauto). rewrite filter_nil.
    case_decide; [left|right]; (split; [lia|]).
    + by rewrite call_eq.
    + simpl. do 3 f_equal. lia.
  - subst tms. case_decide; [left|right]; (split; [lia|]).
    + by rewrite call_eq.
    + unfold set_limiter; simpl. do 3 f_equal. lia.
Qed.

Lemma timeout_cases t h due w :
  wf w → timer_due h w = Some due →
  timeoutId (limiter w) = Some h
  ∧ due = lastExecutionTime (limiter w) + minInterval (limiter w)
  ∧ ∃ f, queuedExecution (limiter w) = Some f
         ∧ onTimeout t (clearTimeout h (set_clock t w)) =
             mkHost (mkLimiter (minInterval (limiter w)) t None None)
                    t [] (nextTimer w)
                    ((t, f) :: ran w) (promises_after f (promises w)).
Proof.
  intros Hwf Hdue.
  destruct (timer_due_wf _ _ _ Hwf Hdue) as (Htid & -> & [f Hf]).
  do 2 (split; [done|]). exists f. split; [done|].
  destruct Hwf as [Ht _ _ _ _ _ _].
  destruct w as [[I last tid q] clk tms nt rn ps]; simpl in *. subst tid q.
  destruct Ht as [-> _]. unfold onTimeout, clearTimeout; simpl.
  rewrite filter_cons_False by (simpl; tauto). rewrite filter_nil.
  by destruct f.
Qed.

Lemma cancel_cases w :
  wf w →
  ran (cancel w) = ran w ∧ promises (cancel w) = promises w
  ∧ timers (cancel w) = [] ∧ timeoutId (limiter (cancel w)) = None
  ∧ clock (cancel w) = clock w.
Proof.
  intros [Ht _ _ _ _ _ _]. unfold cancel.
  destruct w as [[I last tid q] clk tms nt rn ps]; simpl in *.
  destruct tid as [h|]; simpl; [|done].
  destruct Ht as [-> _]. unfold clearTimeout; simpl.
  rewrite filter_cons_False by (simpl; tauto). by rewrite filter_nil.
Qed.

(** ** Spacing of executions *)





Lemma reachable_wf I tr w :
  run (create I) tr = Some w → wf w ∧ minInterval (limiter w) = I.
Proof.
  intros Hrun. split.
  - eapply wf_run; [apply wf_create|done].
  - by rewrite (minInterval_run _ _ _ Hrun).
Qed.






(** ** The punctual host is one of the hosts *)

Lemma run_app tr1 : ∀ w tr2,
  run w (tr1 ++ tr2) = w1 ← run w tr1; run w1 tr2.
Proof.
  induction tr1 as [|e tr1 IH]; intros w tr2; [by destruct tr2|].
  simpl. destruct (step w e) as [w1|]; [apply IH|done].
Qed.

Lemma advance_run fuel limit : ∀ w w',
  advance fuel limit w = Some w' → ∃ tr, run w tr = Some w'.
Proof.
  induction fuel as [|fuel IH]; intros w w'; cbn [advance].
  - intros [= <-]. by exists [].
  - destruct (earliest (timers w)) as [[h due]|];
      [|intros [= <-]; by exists []].
    destruct (before limit due); [|intros [= <-]; by exists []].
    destruct (step w (Fires due h)) as [w1|] eqn:Hstep; [|by cbn].
    intros Hadv. destruct (IH _ _ Hadv) as [tr Htr].
    exists (Fires due h :: tr). cbn [run]. by rewrite Hstep.
Qed.

(** What [play] computes is a run: the bound on executions holds of it. *)
Lemma play_run calls : ∀ w w',
  play w calls = Some w' → ∃ tr, run w tr = Some w'.
Proof.
  induction calls as [|e calls IH]; intros w w'; cbn [play].
  - apply advance_run.
  - destruct (advance _ _ w) as [w1|] eqn:Hadv; [|by cbn].
    cbn [mbind option_bind].
    destruct (step w1 e) as [w2|] eqn:Hstep; [|by cbn].
    intros Hplay. destruct (advance_run _ _ _ _ Hadv) as [tr1 Htr1].
    destruct (IH _ _ Hplay) as [tr2 Htr2].
    exists (tr1 ++ e :: tr2). rewrite run_app, Htr1. cbn [run mbind option_bind].
    by rewrite Hstep.
Qed.

(** ** The scenario of three calls *)

(** Decide a comparison of clock values in the goal by arithmetic. *)
Ltac settle_comparison :=
  match goal with
  | |- context [decide (?a ≤ ?b)] =>
      first [ rewrite (decide_True (P := a ≤ b)) by lia
            | rewrite (decide_False (P := a ≤ b)) by lia ]
  | |- context [decide (?P ∧ ?Q)] =>
      first [ rewrite (decide_True (P := P ∧ Q)) by lia
            | rewrite (decide_False (P := P ∧ Q)) by lia ]
  | |- context [bool_decide (?a ≤ ?b)] =>
      first [ rewrite (bool_decide_true (a ≤ b)) by lia
            | rewrite (bool_decide_false (a ≤ b)) by lia ]
  end.

(** C2 (as the code behaves). With [I = 300] and calls at [B], [B + 50] and
    [B + 600], where the clock value [B] of the first call is at least one
    interval (so that it runs at once) and timers fire when due, three
    closures run: the first call's at [B], the second call's from its timer
    at [B + 300], and the third call's at [B + 600].  Two closures run, the
    first call's and the third call's, only when the host has not fired the
    timer of the second call by the time of the third, which clears it. *)
Theorem scenario_three_executions (B : Z) :
  300 ≤ B →
  executions <$>
    play (create 300) [Execute B 0; Execute (B + 50) 1; Execute (B + 600) 2]
  = Some [(B, Plain 0); (B + 300, Plain 1); (B + 600, Plain 2)]
  ∧ executions <$>
      run (create 300) [Execute B 0; Execute (B + 50) 1; Execute (B + 600) 2]
    = Some [(B, Plain 0); (B + 600, Plain 2)].
Proof.
  intros HB. split.
  - unfold play, create, advance, step, execute, timer_due; simpl.
    repeat (settle_comparison; simpl).
    unfold executions; simpl.
    by replace (B + 50 + (300 - (B + 50 - B))) with (B + 300) by lia.
  - unfold run, create, step, execute; simpl.
    repeat (settle_comparison; simpl).
    done.
Qed.

Lemma scenario_three_executions_witness :
  300 ≤ 1700000000000 ∧
  executions <$>
    play (create 300) [Execute 1700000000000 0; Execute (1700000000000 + 50) 1;
                       Execute (1700000000000 + 600) 2]
  = Some [(1700000000000, Plain 0); (1700000000000 + 300, Plain 1);
          (1700000000000 + 600, Plain 2)].
Proof. split; [lia|]. apply scenario_three_executions. lia. Defined.

(** The scenario does not end with two executions at the first and the last
    call: at a clock value such as [Date.now()] gives, the timer armed by the
    second call fires in between; and at clock value [0] itself the first
    call is not run at once but queued, the limiter starting with
    [lastExecutionTime = 0]. *)
Lemma scenario_not_two_immediate_executions :
  (executions <$>
     play (create 300) [Execute 1000 0; Execute 1050 1; Execute 1600 2]
   = Some [(1000, Plain 0); (1300, Plain 1); (1600, Plain 2)]
   ∧ executions <$>
       play (create 300) [Execute 1000 0; Execute 1050 1; Execute 1600 2]
     ≠ Some [(1000, Plain 0); (1600, Plain 2)])
  ∧ (executions <$>
       play (create 300) [Execute 0 0; Execute 50 1; Execute 600 2]
     = Some [(300, Plain 1); (600, Plain 2)]
     ∧ executions <$>
         play (create 300) [Execute 0 0; Execute 50 1; Execute 600 2]
       ≠ Some [(0, Plain 0); (600, Plain 2)]).
Proof. repeat split; (reflexivity || discriminate). Qed.

(** ** Promises of [executeAsync] *)

Lemma wf_new_promise w :
  wf w →
  wf (mkHost (limiter w) (clock w) (timers w) (nextTimer w) (ran w)
             (promises w ++ [Pending])).
Proof.
  intros [Ht Hc Hl Hs Hq Hr Hst]. split; simpl; try done.
  - intros p k' r' Hne Hque. destruct (Hq p k' r' Hne Hque) as [Hp Hnot].
    split; [|done]. by apply lookup_app_l_Some.
  - intros t p k' r' Hin. by apply lookup_app_l_Some, (Hr t p k' r').
  - intros p st Hp Hne. apply lookup_app_Some in Hp as [Hp|[_ Hp]]; [eauto|].
    apply list_lookup_singleton_Some in Hp as [_ <-]. done.
Qed.


Lemma wf_set_clock t w : wf w → clock w ≤ t → wf (set_clock t w).
Proof. intros [] ?. split; simpl; try done. lia. Qed.

(** The shape of the host after an event, as far as promises are concerned:
    either nothing ran, or one closure [f] ran and settled its promise. *)
Lemma step_cases w e w' :
  wf w → step w e = Some w' →
  let ps := match e with
            | ExecuteAsync _ _ _ => promises w ++ [Pending]
            | _ => promises w
            end in
  let fn := match e with
            | Execute _ k => Some (Plain k)
            | ExecuteAsync _ k r => Some (Wrapper (length (promises w)) k r)
            | _ => None
            end in
  (* a closure ran *)
  (∃ t f, ran w' = (t, f) :: ran w ∧ promises w' = promises_after f ps
          ∧ timeoutId (limiter w') = None
          ∧ (fn = Some f
             ∨ (fn = None ∧ timeoutId (limiter w) ≠ None
                ∧ queuedExecution (limiter w) = Some f)))
  (* nothing ran *)
  ∨ (ran w' = ran w ∧ promises w' = ps
     ∧ (timeoutId (limiter w') = None
        ∨ ∃ f, fn = Some f ∧ queuedExecution (limiter w') = Some f)).
Proof.
  intros Hwf. destruct e as [t k|t k r| |t h]; simpl.
  - case_decide; [|done]. intros [= <-].
    destruct (execute_cases t (Plain k) _ (wf_set_clock t w Hwf ltac:(done)))
      as [[_ ->]|[_ ->]]; simpl.
    + left. exists t, (Plain k). eauto 10.
    + right. eauto 10.
  - case_decide; [|done]. intros [= <-].
    pose proof (wf_new_promise _ (wf_set_clock t w Hwf ltac:(done))) as Hwf'.
    unfold executeAsync; simpl.
    destruct (execute_cases t (Wrapper (length (promises w)) k r) _ Hwf')
      as [[_ Heq]|[_ Heq]]; simpl in Heq; rewrite Heq; simpl.
    + left. exists t, (Wrapper (length (promises w)) k r). eauto 10.
    + right. eauto 10.
  - intros [= <-]. destruct (cancel_cases w Hwf) as (? & ? & ? & ? & ?).
    right. eauto.
  - destruct (timer_due h w) as [due|] eqn:Hdue; [|done].
    case_decide; [|done]. intros [= <-].
    destruct (timeout_cases t h due w Hwf Hdue) as (Htid & _ & f & Hf & ->).
    simpl. left. exists t, f. repeat split; try done.
    right. rewrite Htid. done.
Qed.

Lemma promises_after_other f p ps :
  ¬ is_wrapper_of p f → promises_after f ps !! p = ps !! p.
Proof.
  destruct f as [k|p' k r]; simpl; [done|]. intros Hne.
  by apply settle_promise_ne.
Qed.





Lemma abandoned_step p w e w' :
  wf w → abandoned p w → step w e = Some w' → abandoned p w'.
Proof.
  intros Hwf [Hp Hque] Hstep.
  assert (Hlt : (p < length (promises w))%nat) by by eapply lookup_lt_Some.
  assert (Hps : match e with
                | ExecuteAsync _ _ _ => promises w ++ [Pending]
                | _ => promises w
                end !! p = Some Pending).
  { destruct e; try done. by apply lookup_app_l_Some. }
  destruct (step_cases w e w' Hwf Hstep)
    as [(t & f & Hr' & Hp' & Ht' & Hf)|(Hr' & Hp' & Hq')]; unfold abandoned.
  - rewrite Hp', Ht'. split; [|done]. rewrite promises_after_other; [done|].
    destruct Hf as [Hf|(_ & Hne & Hf)]; [|by apply Hque].
    destruct e; simplify_eq; simpl; [tauto|]. lia.
  - rewrite Hp'. split; [done|]. intros f Hne Hf.
    destruct Hq' as [Hq'|(f' & Hfn & Hq')]; [done|].
    rewrite Hq' in Hf. injection Hf as ->.
    destruct e; simplify_eq; simpl; [tauto|]. lia.
Qed.

Lemma abandoned_run tr : ∀ p w w',
  wf w → abandoned p w → run w tr = Some w' → abandoned p w'.
Proof.
  induction tr as [|e tr IH]; simpl; intros p w w' Hwf Hab.
  - by intros [= <-].
  - destruct (step w e) as [w1|] eqn:Hstep; [|done].
    eauto using wf_step, abandoned_step.
Qed.




End RateLimiterFacts.

(** * Properties of the cache manager *)

Module CacheManagerFacts.
Import CacheManager.

Lemma truthy_nonempty s : truthy s = true ↔ s ≠ EmptyString.
Proof. destruct s; simpl; split; congruence. Qed.

Lemma indexOf_Some l f i : indexOf l f = Some i → l !! i = Some f.
Proof.
  unfold indexOf. destruct (list_find _ l) as [[j y]|] eqn:Hfind; [|done].
  simpl. intros [= <-]. apply list_find_Some in Hfind as (Hj & -> & _). done.
Qed.

Lemma indexOf_None l f : indexOf l f = None → f ∉ l.
Proof.
  unfold indexOf. destruct (list_find _ l) as [[j y]|] eqn:Hfind; [done|].
  intros _ Hin. apply list_find_None in Hfind.
  rewrite Forall_forall in Hfind. by apply (Hfind f).
Qed.

Lemma updateLRU_fresh l f : f ∉ l → _updateLRU l f = l ++ [f].
Proof.
  intros Hnot. unfold _updateLRU.
  destruct (indexOf l f) as [i|] eqn:Hi; [|done].
  apply indexOf_Some, list_elem_of_lookup_2 in Hi. done.
Qed.

Lemma updateLRU_Permutation l f :
  f ∈ l → _updateLRU l f ≡ₚ l.
Proof.
  intros Hin. unfold _updateLRU.
  destruct (indexOf l f) as [i|] eqn:Hi.
  - apply indexOf_Some in Hi. rewrite (delete_Permutation l i f Hi) at 2.
    by rewrite Permutation_app_comm.
  - by apply indexOf_None in Hi.
Qed.

Lemma elem_of_updateLRU l f g : g ∈ _updateLRU l f ↔ g ∈ l ∨ g = f.
Proof.
  destruct (decide (f ∈ l)) as [Hin|Hnot].
  - rewrite (updateLRU_Permutation l f Hin). split; [by left|].
    intros [?| ->]; done.
  - rewrite (updateLRU_fresh l f Hnot).
    rewrite elem_of_app, list_elem_of_singleton.
    done.
Qed.

Lemma NoDup_updateLRU l f : NoDup l → NoDup (_updateLRU l f).
Proof.
  intros Hnd. destruct (decide (f ∈ l)) as [Hin|Hnot].
  - by rewrite (updateLRU_Permutation l f Hin).
  - rewrite (updateLRU_fresh l f Hnot). apply NoDup_app. split; [done|].
    split; [|apply NoDup_singleton].
    intros x Hx ->%list_elem_of_singleton. done.
Qed.

Section WithDecorations.
Context {V : Type}.
Implicit Types (cache : gmap string V) (lru : list string).
Implicit Types this : CacheManager V.

Lemma in_step_size cache lru : in_step cache lru → size cache = length lru.
Proof.
  intros [Hnd Hiff]. rewrite <- size_dom.
  assert (dom cache = list_to_set lru) as ->.
  { apply set_eq. intros f. rewrite elem_of_dom, elem_of_list_to_set.
    by rewrite Hiff. }
  by rewrite size_list_to_set.
Qed.

Lemma in_step_empty : in_step (∅ : gmap string V) [].
Proof.
  split; [constructor|]. intros f. rewrite lookup_empty. split.
  - by intros ?%elem_of_nil.
  - by intros [? ?].
Qed.

Lemma in_step_promote cache lru f :
  in_step cache lru → is_Some (cache !! f) → in_step cache (_updateLRU lru f).
Proof.
  intros [Hnd Hiff] Hf. split; [by apply NoDup_updateLRU|].
  intros g. rewrite elem_of_updateLRU, Hiff. split; [|by left].
  by intros [?| ->].
Qed.

Lemma in_step_insert cache lru f v :
  in_step cache lru →
  in_step (<[f := v]> cache) (_updateLRU lru f).
Proof.
  intros [Hnd Hiff]. split; [by apply NoDup_updateLRU|].
  intros g. rewrite elem_of_updateLRU, lookup_insert_is_Some, Hiff.
  destruct (decide (f = g)) as [->|Hne]; [by split; [left|right]|].
  split; [intros [?| ->]; [by right|done]|].
  intros [?|[_ ?]]; [done|by left].
Qed.

Lemma in_step_shift cache lru g :
  in_step cache (g :: lru) → in_step (delete g cache) lru.
Proof.
  intros [[Hg Hnd]%NoDup_cons Hiff]. split; [done|].
  intros h. rewrite lookup_delete_is_Some, <- Hiff, elem_of_cons.
  split; [|by intros [? [?|?]]].
  intros Hh. split; [by intros ->|by right].
Qed.

(** Saving keeps a cache and its LRU array in step, as long as the empty
    string is not a key. *)
Lemma in_step_save max f v cache lru :
  in_step cache lru → cache !! EmptyString = None → f ≠ EmptyString →
  in_step (save_entry max f v cache lru).1 (save_entry max f v cache lru).2
  ∧ (save_entry max f v cache lru).1 !! EmptyString = None.
Proof.
  intros Hin Hempty Hf. unfold save_entry.
  destruct (_ && _); [destruct lru as [|g lru]|]; simpl.
  - split; [by apply in_step_insert|by rewrite lookup_insert_ne].
  - assert (Hg : g ≠ EmptyString).
    { intros ->.
      assert (is_Some (cache !! EmptyString)) as [? ?]; [|congruence].
      apply Hin. by left. }
    apply truthy_nonempty in Hg as ->. split.
    + by apply in_step_insert, in_step_shift.
    + rewrite lookup_insert_ne by done. by rewrite lookup_delete_None; right.
  - split; [by apply in_step_insert|by rewrite lookup_insert_ne].
Qed.

Lemma consistent_apply this op :
  consistent this → no_empty_key this →
  (∀ document, op_document op = Some document →
               fileName document ≠ EmptyString) →
  consistent (apply this op) ∧ no_empty_key (apply this op).
Proof.
  intros [Hd Hs] [Hed Hes] Hname. destruct op as [doc|doc v|]; simpl.
  - unfold getCachedDecorations.
    destruct (negb _ && _) eqn:Hhit; simpl.
    + apply andb_true_iff in Hhit as [_ Hhit%bool_decide_eq_true].
      split; [split; [done|by apply in_step_promote]|by split].
    + destruct (bool_decide (is_Some (_dirtyCache this !! _))) eqn:Hhit';
        simpl; [|split; by split].
      apply bool_decide_eq_true in Hhit'.
      split; [split; [by apply in_step_promote|done]|by split].
  - specialize (Hname doc eq_refl). unfold saveDecorations.
    destruct (isDirty doc).
    + unfold _saveDirtyDecoration.
      pose proof (in_step_save (MAX_CACHE_SIZE this) (fileName doc) v _ _
                    Hd Hed Hname) as [Hin Hne].
      destruct (save_entry _ _ _ _ _) as [c l]. simpl in *. split; by split.
    + unfold _saveSavedDecorations.
      pose proof (in_step_save (MAX_CACHE_SIZE this) (fileName doc) v _ _
                    Hs Hes Hname) as [Hin Hne].
      destruct (save_entry _ _ _ _ _) as [c l]. simpl in *. split; by split.
  - split; [split; apply in_step_empty|]. by split.
Qed.

(** Away from the empty file name the invariant of the specification holds:
    in every state reached from a new manager, each cache and its LRU array
    are in step. *)
Lemma consistent_apply_all (ops : list (Op V)) :
  (∀ op document, op ∈ ops → op_document op = Some document →
                  fileName document ≠ EmptyString) →
  consistent (apply_all new_CacheManager ops).
Proof.
  intros Hnames.
  assert (H0 : consistent (new_CacheManager (V:=V))
               ∧ no_empty_key (new_CacheManager (V:=V))).
  { split; [split; apply in_step_empty|]. by split. }
  unfold apply_all. revert H0 Hnames. generalize (new_CacheManager (V:=V)).
  induction ops as [|op ops IH]; intros this [Hc Hk] Hnames; simpl; [done|].
  apply IH.
  - apply consistent_apply; [done|done|].
    intros doc Hdoc. eapply Hnames; [by left|done].
  - intros op' doc Hin. apply Hnames. by right.
Qed.

(** Saving distinct, non-empty file names into the saved partition of an
    empty manager of capacity [N ≥ 1] keeps the newest [N] of them, in order
    of insertion. *)
Lemma save_keeps_newest (N : nat) (entries : list (string * V)) :
  1 ≤ N → NoDup entries.*1 → EmptyString ∉ entries.*1 →
  let this := foldl (λ this e, saveDecorations (mkDocument e.1 false) e.2 this)
                    (mkCache ∅ ∅ [] [] N) entries in
  let kept := drop (length entries - N) entries.*1 in
  MAX_CACHE_SIZE this = N
  ∧ _decorationsCacheLRU this = kept
  ∧ in_step (_decorationsCache this) kept
  ∧ _decorationsCache this !! EmptyString = None.
Proof.
  intros HN. induction entries as [|[f v] entries IH] using rev_ind;
    intros Hnd Hne; simpl.
  - split; [done|]. split; [done|]. split; [apply in_step_empty|done].
  - rewrite fmap_app in Hnd, Hne. simpl in Hnd, Hne.
    apply NoDup_app in Hnd as (Hnd & Hfresh & _).
    apply not_elem_of_app in Hne as [Hne Hf].
    assert (Hf' : f ≠ EmptyString) by (intros ->; apply Hf; by left).
    assert (Hfr : f ∉ entries.*1).
    { intros Hin. apply (Hfresh f Hin). by left. }
    specialize (IH Hnd Hne). simpl in IH. rewrite foldl_app. simpl.
    set (this := foldl _ _ entries) in *.
    destruct IH as (Hmax & Hlru & Hin & Hempty).
    unfold saveDecorations, _saveSavedDecorations; simpl.
    pose proof (in_step_save N f v _ _ Hin Hempty Hf') as [Hin' Hempty'].
    rewrite Hmax, Hlru.
    assert (Hgoal : (save_entry N f v (_decorationsCache this)
                       (drop (length entries - N) entries.*1)).2
                    = drop (length (entries ++ [(f, v)]) - N)
                           (entries ++ [(f, v)]).*1).
    { rewrite fmap_app, length_app. simpl.
      assert (Hsize := in_step_size _ _ Hin).
      rewrite length_drop, length_fmap in Hsize.
      assert (Habsent : ¬ is_Some (_decorationsCache this !! f)).
      { intros Hsome. apply Hin in Hsome. apply Hfr.
        by eapply subseteq_drop. }
      unfold save_entry. rewrite (bool_decide_eq_false_2 _ Habsent). simpl.
      rewrite andb_true_r. case_bool_decide as Hfull.
      - assert (Hlen : N ≤ length entries) by lia.
        destruct (lookup_lt_is_Some_2 entries.*1 (length entries - N))
          as [g Hg]; [rewrite length_fmap; lia|].
        rewrite (drop_S _ _ _ Hg). simpl.
        replace (length entries + 1 - N) with (S (length entries - N)) by lia.
        rewrite drop_app_le by (rewrite length_fmap; lia).
        apply updateLRU_fresh. intros Hin2. apply Hfr.
        by eapply subseteq_drop.
      - replace (length entries - N) with 0 by lia.
        replace (length entries + 1 - N) with 0 by lia. simpl.
        by apply updateLRU_fresh. }
    destruct (save_entry _ _ _ _ _) as [c l]. simpl in *. subst l.
    split; [done|]. split; [done|]. by split.
Qed.

(** After reading a saved document that is cached, the next save that has to
    evict does not evict that document, when the capacity is at least two. *)
Lemma read_protects_from_eviction this b d v :
  consistent this → no_empty_key this →
  2 ≤ MAX_CACHE_SIZE this →
  is_Some (_decorationsCache this !! b) →
  let this' := saveDecorations (mkDocument d false) v
                 (getCachedDecorations (mkDocument b false) this).2 in
  is_Some (_decorationsCache this' !! b).
Proof.
  intros [_ Hin] [_ Hempty] Hcap Hb. unfold getCachedDecorations. simpl.
  rewrite (bool_decide_eq_true_2 _ Hb). simpl.
  unfold saveDecorations, _saveSavedDecorations; simpl.
  pose proof (in_step_promote _ _ b Hin Hb) as Hin1.
  assert (Hsize := in_step_size _ _ Hin1).
  unfold save_entry. destruct (_ && _) eqn:Hcond; simpl.
  - apply andb_true_iff in Hcond as [Hfull%bool_decide_eq_true _].
    destruct (_updateLRU (_decorationsCacheLRU this) b) as [|g lru] eqn:Hlru.
    { simpl in Hsize. lia. }
    simpl. rewrite lookup_insert_is_Some.
    destruct (decide (d = b)) as [|Hdb]; [by left|right]. split; [done|].
    assert (Hgb : g ≠ b).
    { intros ->. destruct Hin1 as [Hnd _].
      assert (Hlast : last (b :: lru) = Some b).
      { rewrite <- Hlru. unfold _updateLRU. apply last_snoc. }
      apply NoDup_cons in Hnd as [Hnot _]. destruct lru as [|h lru].
      - simpl in Hsize. lia.
      - apply Hnot. rewrite last_cons_cons in Hlast.
        by apply last_Some_elem_of in Hlast. }
    destruct (truthy g); [|done]. by rewrite lookup_delete_is_Some.
  - rewrite lookup_insert_is_Some.
    destruct (decide (d = b)); [by left|by right].
Qed.

End WithDecorations.

(** The scenario of the specification, at capacity 2: after [a], [b], [c]
    the entry [a] is gone; reading [b] and saving [d] evicts [c], not [b]. *)
Example capacity_two_scenario :
  let a := mkDocument "a" false in
  let b := mkDocument "b" false in
  let c := mkDocument "c" false in
  let d := mkDocument "d" false in
  let this1 := apply_all (mkCache ∅ ∅ [] [] 2) [Save a 1; Save b 2; Save c 3] in
  let this2 := apply_all this1 [Get b; Save d 4] in
  (getCachedDecorations a this1).1 = None
  ∧ _decorationsCacheLRU this1 = ["b"; "c"]
  ∧ (getCachedDecorations b this1).1 = Some 2
  ∧ _decorationsCacheLRU this2 = ["b"; "d"]
  ∧ (getCachedDecorations c this2).1 = None
  ∧ (getCachedDecorations b this2).1 = Some 2.
Proof. by vm_compute. Qed.

(** C5, at the input where the code departs from it.  A document whose file
    name is the empty string is saved first, then a hundred others: when the
    hundred-and-first save has to evict, [shift()] takes the empty name off
    the LRU array but [if (lruFile)] skips the [delete], so the cache keeps
    a key its LRU array no longer lists. *)
Theorem empty_name_breaks_consistency :
  let this := apply_all new_CacheManager overflow_after_empty_name in
  _decorationsCache this !! EmptyString = Some 0
  ∧ (EmptyString ∉ _decorationsCacheLRU this)
  ∧ length (_decorationsCacheLRU this) = 100
  ∧ size (_decorationsCache this) = 101
  ∧ ¬ consistent this.
Proof.
  intros this.
  assert (H1 : _decorationsCache this !! EmptyString = Some 0)
    by by vm_compute.
  assert (H2 : EmptyString ∉ _decorationsCacheLRU this).
  { apply (bool_decide_unpack _). by vm_compute. }
  split; [done|]. split; [done|].
  split; [by vm_compute|]. split; [by vm_compute|].
  intros [_ [_ Hiff]]. apply H2, Hiff. by rewrite H1.
Qed.

(** C4, at the same input.  The hundred and one file names are distinct and
    the capacity is a hundred, yet the least recently inserted one is still
    in the cache, which now holds more entries than its capacity. *)
Theorem empty_name_is_not_evicted :
  let names := (λ op, default EmptyString (fileName <$> op_document op))
                 <$> overflow_after_empty_name in
  let this := apply_all new_CacheManager overflow_after_empty_name in
  NoDup names
  ∧ length names = MAX_CACHE_SIZE this + 1
  ∧ head names = Some EmptyString
  ∧ is_Some (_decorationsCache this !! EmptyString)
  ∧ size (_decorationsCache this) = MAX_CACHE_SIZE this + 1.
Proof.
  cbv zeta. split; [apply (bool_decide_unpack _); by vm_compute|].
  split; [by vm_compute|]. split; [by vm_compute|].
  split; [exists 0; by vm_compute|by vm_compute].
Qed.

End CacheManagerFacts.

(** * Properties of the reconciler and of colorize *)

Module ColorizeFacts.
Import CacheManager Colorize.

Lemma NoDup_fmap_eq {A B} (f : A → B) (l : list A) x y :
  NoDup (f <$> l) → x ∈ l → y ∈ l → f x = f y → x = y.
Proof.
  intros Hnd [i Hi]%list_elem_of_lookup [j Hj]%list_elem_of_lookup Hxy.
  assert (i = j) as ->; [|congruence].
  eapply (NoDup_lookup (f <$> l)); [done| |].
  - rewrite list_lookup_fmap, Hi. done.
  - rewrite list_lookup_fmap, Hj. simpl. by rewrite Hxy.
Qed.

Lemma elem_of_delete_ne {A} (l : list A) i x y :
  l !! i = Some y → x ∈ l → x ≠ y → x ∈ delete i l.
Proof.
  intros Hi Hx Hne. rewrite (delete_Permutation l i y Hi) in Hx.
  by apply elem_of_cons in Hx as [?|?].
Qed.

Lemma last_occurrence {A B} `{EqDecision B} (f : A → B) (l : list A) x :
  x ∈ l →
  ∃ j y, l !! j = Some y ∧ f y = f x
         ∧ ∀ k c, j < k → l !! k = Some c → f c ≠ f y.
Proof.
  induction l as [|a l IH] using rev_ind; intros Hx.
  - by apply elem_of_nil in Hx.
  - destruct (decide (f a = f x)) as [Heq|Hne].
    + exists (length l), a. split; [|split; [done|]].
      * rewrite lookup_app_r by lia. by rewrite Nat.sub_diag.
      * intros k c Hk Hc. apply lookup_lt_Some in Hc.
        rewrite length_app in Hc. simpl in Hc. lia.
    + apply elem_of_app in Hx as [Hx|Hx%list_elem_of_singleton];
        [|by subst].
      destruct (IH Hx) as (j & y & Hj & Hy & Hlater).
      exists j, y. split; [by apply lookup_app_l_Some|]. split; [done|].
      intros k c Hk Hc. apply lookup_app_Some in Hc as [Hc|[_ Hc]]; [eauto|].
      apply list_lookup_singleton_Some in Hc as [_ <-]. congruence.
Qed.

Lemma NoDup_mjoin_inv {A} (ls : list (list A)) p1 p2 l1 l2 y :
  NoDup (mjoin ls) → ls !! p1 = Some l1 → ls !! p2 = Some l2 →
  y ∈ l1 → y ∈ l2 → p1 = p2 ∧ NoDup l1.
Proof.
  revert p1 p2. induction ls as [|l ls IH]; intros p1 p2 Hnd H1 H2 Hy1 Hy2.
  - done.
  - simpl in Hnd. apply NoDup_app in Hnd as (Hl & Hdisj & Hls).
    assert (Hjoin : ∀ p l', ls !! p = Some l' → y ∈ l' → y ∈ mjoin ls).
    { intros p l' Hp Hy. apply list_elem_of_join. exists l'.
      split; [done|]. by eapply list_elem_of_lookup_2. }
    destruct p1 as [|p1], p2 as [|p2]; simpl in *; simplify_eq.
    + done.
    + destruct (Hdisj y Hy1). eauto.
    + destruct (Hdisj y Hy2). eauto.
    + destruct (IH p1 p2 Hls H1 H2 Hy1 Hy2) as [-> ?]. done.
Qed.

Lemma filter_range_le_1 {A B} `{EqDecision B} (f : A → B)
    (Q : A → Prop) `{∀ x, Decision (Q x)} (l : list A) (r : B) :
  NoDup (f <$> l) → length (filter (λ d, f d = r) (filter Q l)) ≤ 1.
Proof.
  induction l as [|a l IH]; intros Hnd; [simpl; lia|].
  rewrite fmap_cons in Hnd. apply NoDup_cons in Hnd as [Hnot Hnd].
  destruct (decide (f a = r)) as [Ha|Ha].
  - assert (Hnone : filter (λ d, f d = r) (filter Q l) = []).
    { clear IH Hnd. induction l as [|b l IHl]; [done|].
      rewrite fmap_cons, not_elem_of_cons in Hnot. destruct Hnot as [Hab Hnot].
      destruct (decide (Q b)).
      - rewrite filter_cons_True by done.
        rewrite filter_cons_False by congruence. auto.
      - rewrite filter_cons_False by done. auto. }
    destruct (decide (Q a)).
    + rewrite filter_cons_True by done. rewrite filter_cons_True by done.
      rewrite Hnone. simpl. lia.
    + rewrite filter_cons_False by done. rewrite Hnone. simpl. lia.
  - destruct (decide (Q a)).
    + rewrite filter_cons_True by done. rewrite filter_cons_False by done.
      auto.
    + rewrite filter_cons_False by done. auto.
Qed.

Lemma filter_range_ge_1 {A B} `{EqDecision B} (f : A → B)
    (Q : A → Prop) `{∀ x, Decision (Q x)} (l : list A) (y : A) :
  y ∈ l → Q y → 1 ≤ length (filter (λ d, f d = f y) (filter Q l)).
Proof.
  intros Hy HQ.
  assert (Hin : y ∈ filter (λ d, f d = f y) (filter Q l)).
  { apply list_elem_of_filter. split; [done|]. by apply list_elem_of_filter. }
  destruct (filter _ (filter Q l)); [by apply elem_of_nil in Hin|simpl; lia].
Qed.

Lemma map_get_Some (m : DecoMap) line ds :
  NoDup m.*1 → map_get m line = Some ds ↔ (line, ds) ∈ m.
Proof.
  intros Hnd. unfold map_get. split.
  - destruct (list_find _ m) as [[i [l d]]|] eqn:Hfind; [|done].
    simpl. intros [= <-]. apply list_find_Some in Hfind as (Hi & Hl & _).
    simpl in Hl. subst l. by eapply list_elem_of_lookup_2.
  - intros Hin.
    destruct (list_find (λ e, e.1 = line) m) as [[i [l d]]|] eqn:Hfind.
    + simpl. apply list_find_Some in Hfind as (Hi & Hl & _).
      simpl in Hl. subst l.
      apply list_elem_of_lookup in Hin as [j Hj].
      assert (i = j) as ->; [|congruence].
      eapply (NoDup_lookup m.*1); [done| |].
      * by rewrite list_lookup_fmap, Hi.
      * by rewrite list_lookup_fmap, Hj.
    + apply list_find_None in Hfind. rewrite Forall_forall in Hfind.
      by destruct (Hfind _ Hin).
Qed.

Lemma map_get_None (m : DecoMap) line :
  map_get m line = None ↔ line ∉ m.*1.
Proof.
  unfold map_get. split.
  - destruct (list_find _ m) as [[i [l d]]|] eqn:Hfind; [done|]. intros _.
    apply list_find_None in Hfind. rewrite Forall_forall in Hfind.
    intros ([l d] & -> & Hin)%list_elem_of_fmap. by apply (Hfind _ Hin).
  - intros Hnot. destruct (list_find _ m) as [[i [l d]]|] eqn:Hfind; [|done].
    apply list_find_Some in Hfind as (Hi & Hl & _). simpl in Hl. subst l.
    destruct Hnot. apply list_elem_of_fmap. exists (line, d).
    split; [done|]. by eapply list_elem_of_lookup_2.
Qed.

Lemma map_set_keys (m : DecoMap) line ds :
  (map_set m line ds).*1 = if map_has m line then m.*1 else m.*1 ++ [line].
Proof.
  unfold map_set. destruct (map_has m line).
  - rewrite <- list_fmap_compose. apply list_fmap_ext.
    intros i [l d] _. simpl. by case_decide.
  - by rewrite fmap_app.
Qed.

Lemma map_set_NoDup (m : DecoMap) line ds :
  NoDup m.*1 → NoDup (map_set m line ds).*1.
Proof.
  intros Hnd. rewrite map_set_keys. unfold map_has. case_bool_decide as Hin.
  - done.
  - apply NoDup_app. split; [done|]. split; [|apply NoDup_singleton].
    by intros x Hx ->%list_elem_of_singleton.
Qed.

Lemma elem_of_map_set (m : DecoMap) line ds l d :
  (l, d) ∈ map_set m line ds ↔
  (l = line ∧ d = ds ∧ True) ∨ (l ≠ line ∧ (l, d) ∈ m).
Proof.
  unfold map_set, map_has. case_bool_decide as Hin.
  - rewrite list_elem_of_fmap. split.
    + intros ([l' d'] & Heq & Hin'). simpl in Heq. case_decide as Hl.
      * injection Heq as -> ->. by left.
      * injection Heq as -> ->. right. done.
    + intros [(-> & -> & _)|[Hne Hin']].
      * apply list_elem_of_fmap in Hin as ([l' d'] & Hl & Hin'). simpl in Hl.
        subst l'. exists (line, d'). split; [|done]. simpl.
        by rewrite decide_True.
      * exists (l, d). split; [|done]. simpl. by rewrite decide_False.
  - rewrite elem_of_app, list_elem_of_singleton. split.
    + intros [Hin'|[= -> ->]]; [|by left]. right. split; [|done].
      intros ->. apply Hin. apply list_elem_of_fmap. by exists (line, d).
    + intros [(-> & -> & _)|[Hne Hin']]; [by right|by left].
Qed.

(** Merging appends the new annotations of a line to those the live map has
    for it, and leaves the other lines alone. *)
Lemma updateContextDecorations_spec (decorations deco : DecoMap) :
  NoDup decorations.*1 → NoDup deco.*1 →
  let merged := updateContextDecorations decorations deco in
  NoDup merged.*1
  ∧ (∀ line new, (line, new) ∈ decorations →
       (line, default [] (map_get deco line) ++ new) ∈ merged)
  ∧ (∀ line old, (line, old) ∈ deco → line ∉ decorations.*1 →
       (line, old) ∈ merged).
Proof.
  intros HndD Hnd. unfold updateContextDecorations.
  set (step := λ (deco : DecoMap) (entry : nat * list nat), _).
  assert (Hgen : ∀ pre suf, decorations = pre ++ suf →
    NoDup (foldl step deco pre).*1
    ∧ (∀ line new, (line, new) ∈ pre →
         (line, default [] (map_get deco line) ++ new) ∈ foldl step deco pre)
    ∧ (∀ line old, (line, old) ∈ deco → line ∉ pre.*1 →
         (line, old) ∈ foldl step deco pre)
    ∧ (∀ line, line ∈ (foldl step deco pre).*1 →
               line ∈ deco.*1 ∨ line ∈ pre.*1)).
  { induction pre as [|[line new] pre IH] using rev_ind; intros suf Hsplit.
    - simpl. split; [done|]. split; [|split; [done|by left]].
      intros line new Hin. by apply elem_of_nil in Hin.
    - rewrite <- app_assoc in Hsplit.
      destruct (IH _ Hsplit) as (IHnd & IHnew & IHold & IHkeys).
      rewrite foldl_app. simpl. set (cur := foldl step deco pre) in *.
      assert (Hget : map_get decorations line = Some new).
      { apply map_get_Some; [done|]. rewrite Hsplit.
        apply elem_of_app. right. by left. }
      assert (Hfresh : line ∉ pre.*1).
      { rewrite Hsplit, fmap_app in HndD.
        apply NoDup_app in HndD as (_ & Hdisj & _). intros Hin.
        apply (Hdisj line Hin). simpl. by left. }
      assert (Hcur : map_get cur line = map_get deco line).
      { destruct (map_get deco line) as [old|] eqn:Hold.
        - apply map_get_Some; [done|]. apply IHold; [|done].
          by apply map_get_Some.
        - apply map_get_None. intros Hin.
          destruct (IHkeys line Hin) as [Hd|Hp]; [|done].
          by apply map_get_None in Hold. }
      assert (Hstep : step cur (line, new) =
                      map_set cur line (default [] (map_get deco line) ++ new)).
      { unfold step. simpl. rewrite Hcur, Hget. simpl.
        by destruct (map_get deco line). }
      rewrite Hstep. split; [by apply map_set_NoDup|]. split; [|split].
      + intros l n [Hin|Hin%list_elem_of_singleton]%elem_of_app;
          apply elem_of_map_set.
        * right. split; [|by apply IHnew]. intros ->. apply Hfresh.
          apply list_elem_of_fmap. by exists (line, n).
        * injection Hin as -> ->. by left.
      + intros l old Hin Hnot. apply elem_of_map_set. right.
        rewrite fmap_app, not_elem_of_app in Hnot. destruct Hnot as [Hnot Hl].
        split; [|by apply IHold]. intros ->. apply Hl. by left.
      + intros l. rewrite map_set_keys, fmap_app. simpl.
        destruct (map_has cur line).
        * intros Hl. destruct (IHkeys l Hl) as [?|?]; [by left|right].
          apply elem_of_app. by left.
        * intros [Hl|Hl]%elem_of_app.
          -- destruct (IHkeys l Hl) as [?|?]; [by left|right].
             apply elem_of_app. by left.
          -- right. apply elem_of_app. by right. }
  destruct (Hgen decorations [] (eq_sym (app_nil_r _))) as (H1 & H2 & H3 & _).
  done.
Qed.

Section WithDecorations.
Variable rangeAt : nat → nat → Range.

Lemma disposed_generateRange d line (h : Heap) x :
  disposed (generateRange rangeAt d line h x) = disposed (h x).
Proof.
  unfold generateRange. destruct (decide (d = x)) as [->|Hne].
  - by rewrite fn_lookup_insert.
  - by rewrite fn_lookup_insert_ne.
Qed.

Lemma currentRange_generateRange d line (h : Heap) x :
  currentRange (generateRange rangeAt d line h x) =
  if decide (d = x) then rangeAt d line else currentRange (h x).
Proof.
  unfold generateRange. case_decide as Hd; [subst|].
  - by rewrite fn_lookup_insert.
  - by rewrite fn_lookup_insert_ne.
Qed.

Lemma disposed_dispose d (h : Heap) x :
  disposed (dispose d h x) = if decide (d = x) then true else disposed (h x).
Proof.
  unfold dispose. case_decide as Hd; [subst|].
  - by rewrite fn_lookup_insert.
  - by rewrite fn_lookup_insert_ne.
Qed.

Lemma currentRange_dispose d (h : Heap) x :
  currentRange (dispose d h x) = currentRange (h x).
Proof.
  unfold dispose. destruct (decide (d = x)) as [->|Hne].
  - by rewrite fn_lookup_insert.
  - by rewrite fn_lookup_insert_ne.
Qed.

Lemma line_inv_nil line h0 : line_inv rangeAt line h0 [] [] h0.
Proof.
  split; try done.
  - constructor.
  - intros x Hx. by apply elem_of_nil in Hx.
  - intros x Hx. by apply elem_of_nil in Hx.
  - by left.
Qed.

Lemma currentRange_generateRange_ne d line (h : Heap) x :
  x ≠ d → currentRange (generateRange rangeAt d line h x) = currentRange (h x).
Proof.
  intros Hne. rewrite currentRange_generateRange. by rewrite decide_False.
Qed.

Lemma lookup_snoc_cases {A} (l : list A) x j y :
  (l ++ [x]) !! j = Some y →
  (j < length l ∧ l !! j = Some y) ∨ (j = length l ∧ y = x).
Proof.
  intros [Hl|[Hge Hx]]%lookup_app_Some.
  - left. split; [by eapply lookup_lt_Some|done].
  - right. apply list_lookup_singleton_Some in Hx as [Hj ->]. split; [lia|done].
Qed.

Lemma line_inv_step line h0 pre nd h deco :
  line_inv rangeAt line h0 pre nd h →
  line_inv rangeAt line h0 (pre ++ [deco])
           (dedup_one rangeAt line (nd, h) deco).1
           (dedup_one rangeAt line (nd, h) deco).2.
Proof.
  intros [Hnd Hsub Hrange Hrframe Hcover Hearlier Hlast Hmono Hframe].
  unfold dedup_one.
  set (h1 := generateRange rangeAt deco line h).
  assert (Hd1 : ∀ x, disposed (h1 x) = disposed (h x)).
  { intros x. apply disposed_generateRange. }
  assert (Hr1 : ∀ x, x ∈ pre ++ [deco] → currentRange (h1 x) = rangeAt x line).
  { intros x Hx. unfold h1. rewrite currentRange_generateRange.
    case_decide as Hdx; [by subst|].
    apply elem_of_app in Hx as [Hx|Hx%list_elem_of_singleton]; [auto|done]. }
  assert (HP : ∀ x, x ∈ nd →
            isEqual (currentRange (h1 deco)) (currentRange (h1 x)) = true
            ↔ rangeAt x line = rangeAt deco line).
  { intros x Hx. rewrite !Hr1.
    - unfold isEqual. rewrite bool_decide_eq_true. split; congruence.
    - apply elem_of_app. left. auto.
    - apply elem_of_app. right. by apply list_elem_of_singleton. }
  assert (Hrf1 : ∀ x, x ∉ pre ++ [deco] →
            currentRange (h1 x) = currentRange (h0 x)).
  { intros x [Hx Hxd]%not_elem_of_app. unfold h1.
    rewrite currentRange_generateRange_ne; [by apply Hrframe|].
    intros ->. apply Hxd. by apply list_elem_of_singleton. }
  assert (Hlift : ∀ i j a b, i < j → pre !! i = Some a → pre !! j = Some b →
            (pre ++ [deco]) !! i = Some a ∧ (pre ++ [deco]) !! j = Some b).
  { intros. split; by apply lookup_app_l_Some. }
  unfold findIndex.
  destruct (list_find _ nd) as [[idx y]|] eqn:Hfind; simpl.
  - apply list_find_Some in Hfind as (Hidx & Hy & _).
    assert (Hyin : y ∈ nd) by by eapply list_elem_of_lookup_2.
    apply Is_true_true, HP in Hy; [|done].
    rewrite Hidx.
    set (h2 := dispose y h1).
    assert (Hd2 : ∀ x, disposed (h x) = true → disposed (h2 x) = true).
    { intros x Hx. unfold h2. rewrite disposed_dispose. case_decide; [done|].
      by rewrite Hd1. }
    assert (Hdy : disposed (h2 y) = true).
    { unfold h2. rewrite disposed_dispose. by rewrite decide_True. }
    split.
    + rewrite fmap_app. simpl.
      pose proof (delete_Permutation _ _ _ Hidx) as Hperm.
      rewrite Hperm in Hnd. simpl in Hnd.
      apply NoDup_cons in Hnd as [Hnot Hnd'].
      apply NoDup_app. split; [done|]. split; [|apply NoDup_singleton].
      intros r Hr ->%list_elem_of_singleton. by rewrite Hy in Hnot.
    + intros x [Hx|Hx]%elem_of_app; apply elem_of_app; [left|by right].
      by eapply Hsub, list_elem_of_delete_inv.
    + intros x Hx. unfold h2. rewrite currentRange_dispose. by apply Hr1.
    + intros x Hx. unfold h2. rewrite currentRange_dispose. by apply Hrf1.
    + intros x [Hx|Hx%list_elem_of_singleton]%elem_of_app.
      * destruct (Hcover x Hx) as [Hin|Hdis]; [|right; by apply Hd2].
        destruct (decide (x = y)) as [->|Hne]; [by right|left].
        apply elem_of_app. left. by eapply elem_of_delete_ne.
      * left. apply elem_of_app. right. by apply list_elem_of_singleton.
    + intros i j a b Hij Ha Hb Hab.
      apply lookup_snoc_cases in Hb as [[Hj Hb]|[-> ->]].
      * apply Hd2. eapply (Hearlier i j); eauto.
        apply lookup_snoc_cases in Ha as [[_ Ha]|[-> _]]; [done|lia].
      * apply lookup_snoc_cases in Ha as [[_ Ha]|[-> _]]; [|lia].
        apply list_elem_of_lookup_2 in Ha.
        destruct (Hcover a Ha) as [Hin|Hdis]; [|by apply Hd2].
        assert (a = y) as ->; [|done].
        eapply (NoDup_fmap_eq (λ d, rangeAt d line) nd); eauto. congruence.
    + intros j b Hb Hno.
      apply lookup_snoc_cases in Hb as [[Hj Hb]|[-> ->]].
      * apply elem_of_app. left. eapply elem_of_delete_ne; [done| |].
        -- apply (Hlast j b Hb). intros k c Hjk Hc.
           apply (Hno k c Hjk). by apply lookup_app_l_Some.
        -- intros ->. apply (Hno (length pre) deco Hj); [|done].
           rewrite lookup_app_r by lia. by rewrite Nat.sub_diag.
      * apply elem_of_app. right. by apply list_elem_of_singleton.
    + intros x Hx. by apply Hd2, Hmono.
    + intros x Hx. unfold h2 in Hx. rewrite disposed_dispose in Hx.
      case_decide as Hyx.
      * subst x. right. apply Hsub in Hyin.
        apply list_elem_of_lookup in Hyin as [i Hi].
        exists i, (length pre), deco. split; [by eapply lookup_lt_Some|].
        split; [by apply lookup_app_l_Some|]. split; [|done].
        rewrite lookup_app_r by lia. by rewrite Nat.sub_diag.
      * rewrite Hd1 in Hx.
        destruct (Hframe x Hx) as [?|(i & j & b & ? & ? & ? & ?)];
          [by left|right].
        exists i, j, b. split; [done|].
        split; [by apply lookup_app_l_Some|]. split; [|done].
        by apply lookup_app_l_Some.
  - apply list_find_None in Hfind. rewrite Forall_forall in Hfind.
    assert (Hnone : ∀ x, x ∈ nd → rangeAt x line ≠ rangeAt deco line).
    { intros x Hx Heq. apply (Hfind x Hx). apply Is_true_true. by apply HP. }
    assert (Hd2 : ∀ x, disposed (h x) = true → disposed (h1 x) = true).
    { intros x Hx. by rewrite Hd1. }
    split.
    + rewrite fmap_app. simpl.
      apply NoDup_app. split; [done|]. split; [|apply NoDup_singleton].
      intros r Hr ->%list_elem_of_singleton.
      apply list_elem_of_fmap in Hr as (x & Hrx & Hx). by apply (Hnone x Hx).
    + intros x [Hx|Hx]%elem_of_app; apply elem_of_app; [left|by right].
      by apply Hsub.
    + done.
    + done.
    + intros x [Hx|Hx%list_elem_of_singleton]%elem_of_app.
      * destruct (Hcover x Hx) as [Hin|Hdis]; [|right; by apply Hd2].
        left. apply elem_of_app. by left.
      * left. apply elem_of_app. right. by apply list_elem_of_singleton.
    + intros i j a b Hij Ha Hb Hab.
      apply lookup_snoc_cases in Hb as [[Hj Hb]|[-> ->]].
      * apply Hd2. eapply (Hearlier i j); eauto.
        apply lookup_snoc_cases in Ha as [[_ Ha]|[-> _]]; [done|lia].
      * apply lookup_snoc_cases in Ha as [[_ Ha]|[-> _]]; [|lia].
        apply list_elem_of_lookup_2 in Ha.
        destruct (Hcover a Ha) as [Hin|Hdis]; [|by apply Hd2].
        by destruct (Hnone a Hin).
    + intros j b Hb Hno.
      apply lookup_snoc_cases in Hb as [[Hj Hb]|[-> ->]].
      * apply elem_of_app. left.
        apply (Hlast j b Hb). intros k c Hjk Hc.
        apply (Hno k c Hjk). by apply lookup_app_l_Some.
      * apply elem_of_app. right. by apply list_elem_of_singleton.
    + intros x Hx. by apply Hd2, Hmono.
    + intros x Hx. rewrite Hd1 in Hx.
      destruct (Hframe x Hx) as [?|(i & j & b & ? & ? & ? & ?)];
          [by left|right].
      exists i, j, b. split; [done|].
      split; [by apply lookup_app_l_Some|]. split; [|done].
      by apply lookup_app_l_Some.
Qed.

Lemma dedup_line_inv line ds h0 :
  line_inv rangeAt line h0 ds
           (dedup_line rangeAt line ds h0).1 (dedup_line rangeAt line ds h0).2.
Proof.
  unfold dedup_line. induction ds as [|d ds IH] using rev_ind; simpl.
  - apply line_inv_nil.
  - rewrite foldl_app. simpl.
    destruct (foldl _ _ ds) as [nd h]. by apply line_inv_step.
Qed.

(** *** The whole map *)

Lemma map_set_fresh (m : DecoMap) line ds :
  line ∉ m.*1 → map_set m line ds = m ++ [(line, ds)].
Proof.
  intros Hnot. unfold map_set, map_has. by rewrite bool_decide_eq_false_2.
Qed.

Lemma removeDuplicateDecorations_inv (m : DecoMap) (h0 : Heap) :
  NoDup m.*1 →
  map_inv rangeAt h0 m (removeDuplicateDecorations rangeAt m h0).1
               (removeDuplicateDecorations rangeAt m h0).2.
Proof.
  unfold removeDuplicateDecorations.
  induction m as [|[line ds] m IH] using rev_ind; intros Hnd; simpl.
  - split; try done.
    + intros line ds Hin. by apply elem_of_nil in Hin.
    + intros line ds x Hin. by apply elem_of_nil in Hin.
    + by left.
  - rewrite fmap_app in Hnd. apply NoDup_app in Hnd as (Hnd & Hfresh & _).
    specialize (IH Hnd). rewrite foldl_app. simpl.
    destruct (foldl _ _ m) as [m' h]. simpl in IH.
    destruct IH as [Hkeys Hlines Hrange Hmono Hframe].
    pose proof (dedup_line_inv line ds h) as Hline.
    destruct (dedup_line rangeAt line ds h) as [nd h']. simpl in *.
    destruct Hline as [Lnd Lsub Lrange Lrframe _ Learlier Llast Lmono Lframe].
    assert (Hnew : line ∉ m'.*1).
    { rewrite Hkeys. intros Hin. apply (Hfresh line Hin). by left. }
    rewrite (map_set_fresh m' line nd Hnew). split.
    + by rewrite !fmap_app, Hkeys.
    + intros line' ds' [Hin|Hin%list_elem_of_singleton]%elem_of_app.
      * destruct (Hlines line' ds' Hin) as (nd' & ? & ? & ? & He & ?).
        exists nd'. split; [apply elem_of_app; by left|].
        do 2 (split; [done|]). split; [|done].
        intros i j a b Hij Ha Hb Hab. apply Lmono. eauto.
      * injection Hin as -> ->. exists nd.
        split; [apply elem_of_app; right; by apply list_elem_of_singleton|].
        done.
    + intros line' ds' x [Hin|Hin%list_elem_of_singleton]%elem_of_app Hx Hone.
      * assert (Hxds : x ∉ ds).
        { intros Hxds.
          assert (line = line') as ->.
          { apply (Hone line ds); [|done].
            apply elem_of_app. right. by apply list_elem_of_singleton. }
          apply Hnew. rewrite Hkeys. apply list_elem_of_fmap.
          by exists (line', ds'). }
        rewrite (Lrframe x Hxds). apply (Hrange line' ds' x Hin Hx).
        intros l2 d2 Hin2. apply Hone. apply elem_of_app. by left.
      * injection Hin as -> ->. by apply Lrange.
    + intros x Hx. by apply Lmono, Hmono.
    + intros x Hx.
      destruct (Lframe x Hx) as [Hx'|(i & j & b & Hij & Hi & Hj & Hr)].
      * destruct (Hframe x Hx') as [?|(l2 & ds2 & i & j & b & Hin & ?)];
          [by left|right].
        exists l2, ds2, i, j, b. split; [apply elem_of_app; by left|done].
      * right. exists line, ds, i, j, b.
        split; [apply elem_of_app; right; by apply list_elem_of_singleton|].
        done.
Qed.

Lemma dedup_map_spec (m : DecoMap) (h : Heap) :
  NoDup m.*1 →
  let m' := (removeDuplicateDecorations rangeAt m h).1 in
  let h' := (removeDuplicateDecorations rangeAt m h).2 in
  m'.*1 = m.*1
  ∧ ∀ line ds, (line, ds) ∈ m →
      ∃ ds', (line, ds') ∈ m'
        ∧ NoDup ((λ d, rangeAt d line) <$> ds')
        ∧ (∀ r, length (filter (λ d, rangeAt d line = r) (live h' ds')) ≤ 1)
        ∧ (∀ i j a b, i < j → ds !! i = Some a → ds !! j = Some b →
                      rangeAt a line = rangeAt b line →
                      disposed (h' a) = true)
        ∧ (∀ j b, ds !! j = Some b →
                  (∀ k c, j < k → ds !! k = Some c →
                          rangeAt c line ≠ rangeAt b line) →
                  b ∈ ds')
        ∧ (∀ x, x ∈ ds →
                (∀ line' ds', (line', ds') ∈ m → x ∈ ds' → line' = line) →
                currentRange (h' x) = rangeAt x line)
        ∧ (NoDup (mjoin m.*2) →
           (∀ y, y ∈ ds → disposed (h y) = false) →
           ∀ x, x ∈ ds →
                length (filter (λ d, rangeAt d line = rangeAt x line)
                               (live h' ds')) = 1).
Proof.
  intros Hkeys m' h'.
  destruct (removeDuplicateDecorations_inv m h Hkeys)
    as [Hk Hlines Hrange Hmono Hframe].
  fold m' h' in Hk, Hlines, Hrange, Hmono, Hframe. split; [done|].
  intros line ds Hin.
  destruct (Hlines line ds Hin) as (ds' & Hin' & Hnd & Hsub & Hearlier & Hlast).
  exists ds'. split; [done|]. split; [done|].
  split; [intros r; by apply filter_range_le_1|].
  split; [done|]. split; [done|].
  split; [intros x Hx Hone; by eapply Hrange|].
  intros Hexcl Hlive x Hx.
  apply Nat.le_antisymm; [by apply filter_range_le_1|].
  destruct (last_occurrence (λ d, rangeAt d line) ds x Hx)
    as (j & y & Hj & Hy & Hlater).
  simpl in Hy. rewrite <- Hy.
  apply (filter_range_ge_1 (λ d, rangeAt d line)); [by eapply Hlast|].
  destruct (disposed (h' y)) eqn:Hdis; [exfalso|done].
  destruct (Hframe y Hdis)
    as [Hy0|(l2 & ds2 & i & j2 & b & Hin2 & Hij & Hi & Hb & Hr)].
  - rewrite Hlive in Hy0; [done|]. by eapply list_elem_of_lookup_2.
  - apply list_elem_of_lookup in Hin as [p Hp].
    apply list_elem_of_lookup in Hin2 as [p2 Hp2].
    assert (Hp' : m.*2 !! p = Some ds) by by rewrite list_lookup_fmap, Hp.
    assert (Hp2' : m.*2 !! p2 = Some ds2) by by rewrite list_lookup_fmap, Hp2.
    destruct (NoDup_mjoin_inv m.*2 p p2 ds ds2 y Hexcl Hp' Hp2') as [-> Hnd1].
    { by eapply list_elem_of_lookup_2. }
    { by eapply list_elem_of_lookup_2. }
    rewrite Hp in Hp2. injection Hp2 as <- <-.
    assert (i = j) as -> by by eapply NoDup_lookup.
    by apply (Hlater j2 b Hij Hb).
Qed.

(** C6. After [removeDuplicateDecorations], on every line: the annotations
    left have pairwise different resolved ranges, so at most one that is not
    disposed has any given range; of two annotations of the line that
    resolve to the same range the earlier one is disposed, and the last one
    with a given range is kept; the resolved range of an annotation that
    sits on this line only is what its [currentRange] then holds; when no
    annotation object occurs twice in the map and those of the line were
    live, every range that occurred on the line has exactly one live
    annotation afterwards.  In particular,
    after new annotations have been merged into the live map by
    [updateContextDecorations], a range covered on a line by both sets has
    exactly one live annotation. *)
Theorem removeDuplicateDecorations_one_per_range (m : DecoMap) (h : Heap) :
  NoDup m.*1 →
  let m' := (removeDuplicateDecorations rangeAt m h).1 in
  let h' := (removeDuplicateDecorations rangeAt m h).2 in
  (m'.*1 = m.*1
   ∧ ∀ line ds, (line, ds) ∈ m →
       ∃ ds', (line, ds') ∈ m'
         ∧ NoDup ((λ d, rangeAt d line) <$> ds')
         ∧ (∀ r, length (filter (λ d, rangeAt d line = r) (live h' ds')) ≤ 1)
         ∧ (∀ i j a b, i < j → ds !! i = Some a → ds !! j = Some b →
                       rangeAt a line = rangeAt b line →
                       disposed (h' a) = true)
         ∧ (∀ j b, ds !! j = Some b →
                   (∀ k c, j < k → ds !! k = Some c →
                           rangeAt c line ≠ rangeAt b line) →
                   b ∈ ds')
         ∧ (∀ x, x ∈ ds →
                 (∀ line' ds', (line', ds') ∈ m → x ∈ ds' → line' = line) →
                 currentRange (h' x) = rangeAt x line)
         ∧ (NoDup (mjoin m.*2) →
            (∀ y, y ∈ ds → disposed (h y) = false) →
            ∀ x, x ∈ ds →
                 length (filter (λ d, rangeAt d line = rangeAt x line)
                                (live h' ds')) = 1))
  ∧ (∀ decorations line old new a b,
       NoDup decorations.*1 →
       (line, old) ∈ m → (line, new) ∈ decorations →
       a ∈ old → b ∈ new → rangeAt a line = rangeAt b line →
       let merged := updateContextDecorations decorations m in
       let deduplicated := removeDuplicateDecorations rangeAt merged h in
       NoDup (mjoin merged.*2) →
       (∀ y, y ∈ old ++ new → disposed (h y) = false) →
       ∃ ds', (line, ds') ∈ deduplicated.1
              ∧ length (filter (λ d, rangeAt d line = rangeAt a line)
                               (live deduplicated.2 ds')) = 1).
Proof.
  intros Hkeys m' h'. split; [by apply dedup_map_spec|].
  intros decorations line old new a b HkeysD Hold Hnew Ha Hb Hab
         merged deduplicated Hexcl Hlive.
  destruct (updateContextDecorations_spec decorations m HkeysD Hkeys)
    as (Hmk & Hmnew & _).
  specialize (Hmnew line new Hnew). fold merged in Hmk, Hmnew.
  assert (Hget : map_get m line = Some old) by by apply map_get_Some.
  rewrite Hget in Hmnew. simpl in Hmnew.
  destruct (dedup_map_spec merged h Hmk) as [_ Hlines].
  destruct (Hlines line (old ++ new) Hmnew)
    as (ds' & Hin' & _ & _ & _ & _ & _ & Hone).
  exists ds'. split; [done|]. apply Hone; [done|done|].
  apply elem_of_app. by left.
Qed.

End WithDecorations.

Lemma removeDuplicateDecorations_one_per_range_witness :
  NoDup two_on_line_3.*1
  ∧ (removeDuplicateDecorations columns two_on_line_3 all_live).1
    = [(3, [1; 2])]
  ∧ disposed ((removeDuplicateDecorations columns two_on_line_3 all_live).2 0)
    = true
  ∧ (removeDuplicateDecorations columns two_on_line_3 all_live).1.*1
    = two_on_line_3.*1.
Proof.
  assert (Hnd : NoDup two_on_line_3.*1) by (apply NoDup_singleton).
  split; [done|]. split; [by vm_compute|]. split; [by vm_compute|].
  apply (removeDuplicateDecorations_one_per_range columns _ all_live Hnd).
Defined.

(** ** Colorizing an editor *)

Lemma getCachedDecorations_miss {V} (document : TextDocument)
    (this : CacheManager V) :
  (getCachedDecorations document this).1 = None →
  (getCachedDecorations document this).2 = this.
Proof.
  unfold getCachedDecorations.
  destruct (negb _ && _) eqn:Hsaved; simpl.
  - apply andb_true_iff in Hsaved as [_ [v Hv]%bool_decide_eq_true].
    by rewrite Hv.
  - destruct (bool_decide (is_Some (_dirtyCache this !! _))) eqn:Hdirty;
      simpl; [|done].
    apply bool_decide_eq_true in Hdirty as [v Hv]. by rewrite Hv.
Qed.

(** C3 (as the code behaves). When the editor can be colorized, nothing is
    cached for its document and [initDecorations] fails, the [finally]
    block still saves: the cache manager afterwards is the one before with
    whatever the live map then holds saved for the document of the editor
    the extension points at; the failure is passed on and the queue's
    callback is not called. *)
Theorem colorize_saves_after_failed_extraction
    (canColorize : TextDocument → bool)
    (initDecorations : ColorizeContext → ColorizeContext * option string)
    (ed : TextEditor) (st : Extension)
    (ctx : ColorizeContext) (error : string) (ed' : TextEditor) :
  canColorize (document ed) = true →
  (getCachedDecorations (document ed) (cacheManager st)).1 = None →
  initDecorations (mkContext (Some ed) (Some (lineCount ed)) []
                             (Some (selections ed)))
  = (ctx, Some error) →
  editor ctx = Some ed' →
  colorize canColorize initDecorations (Some ed) st
  = (mkExtension ctx
       (saveDecorations (document ed') (deco ctx) (cacheManager st))
       (called_back st),
     Thrown error).
Proof.
  intros Hcan Hmiss Hinit Hed. unfold colorize. rewrite Hcan. simpl.
  pose proof (getCachedDecorations_miss _ _ Hmiss) as Hsame.
  destruct (getCachedDecorations (document ed) (cacheManager st))
    as [found cache]. simpl in *. subst found cache.
  by rewrite Hinit, Hed.
Qed.

Lemma colorize_saves_after_failed_extraction_witness :
  colorize (λ _, true) failing_extraction (Some a_css) fresh
  = (mkExtension (mkContext (Some a_css) (Some 10) [] (Some [0]))
       (saveDecorations (document a_css) [] (cacheManager fresh))
       (called_back fresh),
     Thrown "extraction failed").
Proof.
  apply (colorize_saves_after_failed_extraction
           (λ _, true) failing_extraction a_css fresh
           (mkContext (Some a_css) (Some 10) [] (Some [0]))
           "extraction failed" a_css);
    reflexivity.
Defined.

(** The extraction fails and the cache is not what it was: it now holds an
    empty map for the document, which the next [colorize] will take for its
    annotations. *)
Lemma failed_extraction_is_cached :
  let after := (colorize (λ _, true) failing_extraction (Some a_css) fresh).1 in
  (colorize (λ _, true) failing_extraction (Some a_css) fresh).2
  = Thrown "extraction failed"
  ∧ (_decorationsCache (cacheManager fresh)) !! "a.css" = None
  ∧ (_decorationsCache (cacheManager after)) !! "a.css" = Some []
  ∧ cacheManager after ≠ cacheManager fresh.
Proof.
  cbv zeta. split; [reflexivity|]. split; [reflexivity|].
  assert (Hafter : (_decorationsCache (cacheManager
            (colorize (λ _, true) failing_extraction (Some a_css) fresh).1))
            !! "a.css" = Some []) by by vm_compute.
  split; [done|]. intros Heq. rewrite Heq in Hafter. done.
Qed.

End ColorizeFacts.

(** * Properties of the extraction handler *)

Module ServerFacts.
Import Server.
Local Open Scope Z_scope.

Lemma size_limit_message_kind fileName sizeLimit :
  is_size_limit_error (mkError fileName (size_limit_message sizeLimit)) = true.
Proof. reflexivity. Qed.

Lemma process_file_eq fs limit filesContent errors fileName :
  process_file fs limit (filesContent, errors) fileName =
  (filesContent ++ option_list (extracted fs limit fileName),
   errors ++ option_list (reported fs limit fileName)).
Proof.
  unfold process_file, extracted, reported.
  destruct (isFileSizeWithinLimit fs fileName (Some limit)); simpl.
  - destruct (extractFileContent fs fileName (Some limit)); simpl;
      by rewrite app_nil_r.
  - by rewrite app_nil_r.
Qed.

Lemma foldl_process_file fs limit files : ∀ filesContent errors,
  foldl (process_file fs limit) (filesContent, errors) files =
  (filesContent ++ omap (extracted fs limit) files,
   errors ++ omap (reported fs limit) files).
Proof.
  induction files as [|f files IH]; intros filesContent errors; cbn [foldl].
  - simpl. by rewrite !app_nil_r.
  - rewrite process_file_eq, IH, <- !app_assoc. simpl. f_equal.
    + f_equal. by destruct (extracted fs limit f).
    + f_equal. by destruct (reported fs limit f).
Qed.

(** The batches together are the whole array: with [length files] rounds of
    fuel the loop has gone through every file. *)
Lemma process_batches_all fuel fs limit files : ∀ i acc,
  (length files ≤ i + fuel)%nat →
  process_batches fuel fs limit files i acc =
  foldl (process_file fs limit) acc (drop i files).
Proof.
  induction fuel as [|fuel IH]; intros i acc Hfuel; simpl.
  - rewrite drop_ge by lia. done.
  - case_bool_decide as Hi.
    + rewrite IH by (unfold MAX_FILES_PER_BATCH; lia).
      rewrite <- foldl_app. f_equal. unfold slice.
      replace (i + MAX_FILES_PER_BATCH - i)%nat with MAX_FILES_PER_BATCH by lia.
      rewrite <- (take_drop MAX_FILES_PER_BATCH (drop i files)) at 2.
      by rewrite drop_drop.
    + rewrite drop_ge by lia. done.
Qed.

Lemma handler_eq fs settings files request :
  let limit := default settings (fileSizeLimit request) in
  handler fs (Ok settings) (Ok files) request =
  mkResponse (omap (extracted fs limit) files)
             (match omap (reported fs limit) files with
              | [] => None
              | e :: es => Some (e :: es)
              end).
Proof.
  simpl. unfold handler.
  replace (match fileSizeLimit request with
           | Some limit => limit
           | None => settings
           end) with (default settings (fileSizeLimit request))
    by by destruct (fileSizeLimit request).
  rewrite process_batches_all by lia. rewrite drop_0, foldl_process_file.
  simpl. by destruct (omap (reported _ _) files).
Qed.

Lemma error_list_handler fs settings files request :
  error_list (handler fs (Ok settings) (Ok files) request) =
  omap (reported fs (default settings (fileSizeLimit request))) files.
Proof.
  rewrite handler_eq. unfold error_list. simpl.
  by destruct (omap _ files).
Qed.

Lemma filesContent_handler fs settings files request :
  filesContent (handler fs (Ok settings) (Ok files) request) =
  omap (extracted fs (default settings (fileSizeLimit request))) files.
Proof. by rewrite handler_eq. Qed.

Lemma extracted_name fs limit f g content :
  extracted fs limit f = Some (g, content) →
  g = f ∧ isFileSizeWithinLimit fs f (Some limit) = true.
Proof.
  unfold extracted. destruct (isFileSizeWithinLimit fs f (Some limit)); [|done].
  destruct (extractFileContent _ _ _); [|done]. by intros [= <- <-].
Qed.

Lemma reported_name fs limit f e :
  reported fs limit f = Some e → error_fileName e = Some f.
Proof.
  unfold reported. destruct (isFileSizeWithinLimit fs f (Some limit)).
  - destruct (extractFileContent _ _ _); [done|]. by intros [= <-].
  - by intros [= <-].
Qed.

Lemma reported_outside_limit fs limit f :
  isFileSizeWithinLimit fs f (Some limit) = false →
  reported fs limit f = Some (mkError (Some f) (size_limit_message limit))
  ∧ extracted fs limit f = None.
Proof. intros Hf. unfold reported, extracted. by rewrite Hf. Qed.

Lemma omap_without {A} (g : string → option A) (f : string)
    (files : list string) :
  g f = None → omap g (filter (λ x, x ≠ f) files) = omap g files.
Proof.
  intros Hf. induction files as [|x files IH]; [done|].
  destruct (decide (x = f)) as [->|Hne].
  - rewrite filter_cons_False by naive_solver. csimpl. by rewrite Hf.
  - rewrite filter_cons_True by done. csimpl. by rewrite IH.
Qed.

Lemma reported_without fs limit f (files : list string) :
  filter (λ e, error_fileName e ≠ Some f) (omap (reported fs limit) files) =
  omap (reported fs limit) (filter (λ x, x ≠ f) files).
Proof.
  induction files as [|x files IH]; [done|]. csimpl.
  destruct (reported fs limit x) as [e|] eqn:He.
  - apply reported_name in He as Hname.
    destruct (decide (x = f)) as [->|Hne].
    + rewrite (filter_cons_False _ e) by naive_solver.
      rewrite (filter_cons_False _ f) by naive_solver. done.
    + rewrite (filter_cons_True _ e) by (rewrite Hname; congruence).
      rewrite (filter_cons_True _ x) by done. csimpl. by rewrite He, IH.
  - destruct (decide (x = f)) as [->|Hne].
    + rewrite (filter_cons_False _ f) by naive_solver. done.
    + rewrite (filter_cons_True _ x) by done. csimpl. by rewrite He, IH.
Qed.

Lemma outside_limit_in_response fs settings files request f :
  let limit := default settings (fileSizeLimit request) in
  let response := handler fs (Ok settings) (Ok files) request in
  f ∈ files →
  isFileSizeWithinLimit fs f (Some limit) = false →
  mkError (Some f) (size_limit_message limit) ∈ error_list response
  ∧ errors response ≠ None
  ∧ (∀ e, e ∈ error_list response → error_fileName e = Some f →
          error e = size_limit_message limit)
  ∧ (f ∉ (filesContent response).*1)
  ∧ filesContent response =
      filesContent (handler fs (Ok settings)
                            (Ok (filter (λ g, g ≠ f) files)) request)
  ∧ filter (λ e, error_fileName e ≠ Some f) (error_list response) =
      error_list (handler fs (Ok settings)
                          (Ok (filter (λ g, g ≠ f) files)) request).
Proof.
  intros limit response Hin Hout. subst response.
  destruct (reported_outside_limit fs limit f Hout) as [Hrep Hext].
  rewrite !error_list_handler, !filesContent_handler. fold limit.
  assert (Hmem : mkError (Some f) (size_limit_message limit)
                 ∈ omap (reported fs limit) files).
  { apply list_elem_of_omap. eauto. }
  split; [done|]. split.
  { rewrite handler_eq. simpl. fold limit.
    destruct (omap (reported fs limit) files); [|done].
    by apply elem_of_nil in Hmem. }
  split.
  { intros e (g & Hg & He)%list_elem_of_omap Hname.
    apply reported_name in He as Hname'. rewrite Hname in Hname'.
    injection Hname' as <-. rewrite Hrep in He. by injection He as <-. }
  split.
  { intros ([g c] & -> & (g' & Hg' & He)%list_elem_of_omap)%list_elem_of_fmap.
    simpl in *. apply extracted_name in He as [-> Hw]. congruence. }
  split.
  - by rewrite omap_without.
  - apply reported_without.
Qed.

(** C7. A file larger than the ceiling is reported in [errors] with the
    size-limit message, which the client recognises as such; it is not in
    [filesContent]; and the rest of the response is what it would be had the
    file not been among those found: every other file is still processed,
    and those within the ceiling that can be read are returned. *)
Theorem oversized_file_reported_not_fatal
    (fs : FileSystem) (settings : Z) (files : list string) (request : Request)
    (f : string) (size : Z) :
  let limit := default settings (fileSizeLimit request) in
  let response := handler fs (Ok settings) (Ok files) request in
  let others := handler fs (Ok settings) (Ok (filter (λ g, g ≠ f) files))
                        request in
  f ∈ files → statSync fs f = Ok size → limit < size →
  mkError (Some f) (size_limit_message limit) ∈ error_list response
  ∧ is_size_limit_error (mkError (Some f) (size_limit_message limit)) = true
  ∧ errors response ≠ None
  ∧ (f ∉ (filesContent response).*1)
  ∧ filesContent response = filesContent others
  ∧ filter (λ e, error_fileName e ≠ Some f) (error_list response)
    = error_list others
  ∧ (∀ g text, g ∈ files →
        isFileSizeWithinLimit fs g (Some limit) = true →
        readFileSync fs g = Ok text →
        (g, imap (λ index text, mkLine text index) (split_newline text))
        ∈ filesContent response).
Proof.
  intros limit response others Hin Hstat Hbig.
  assert (Hout : isFileSizeWithinLimit fs f (Some limit) = false).
  { unfold isFileSizeWithinLimit. rewrite Hstat. simpl.
    apply bool_decide_eq_false. lia. }
  destruct (outside_limit_in_response fs settings files request f Hin Hout)
    as (H1 & H2 & _ & H4 & H5 & H6).
  split; [done|]. split; [done|]. do 4 (split; [done|]).
  intros g text Hg Hw Hread. subst response.
  rewrite filesContent_handler. fold limit. apply list_elem_of_omap.
  exists g. split; [done|]. unfold extracted, extractFileContent. simpl.
  by rewrite Hw, Hread.
Qed.

(** C10. When the size of a file cannot be determined,
    [isFileSizeWithinLimit] answers [false]; so [extractFileContent] throws
    the size-limit error, and the request handler reports the file with the
    size-limit message and with no other error, and leaves it out of
    [filesContent]. *)
Theorem unknown_size_reported_as_size_limit
    (fs : FileSystem) (f : string) (message : string) :
  statSync fs f = Err message →
  (∀ sizeLimit, isFileSizeWithinLimit fs f sizeLimit = false)
  ∧ (∀ sizeLimit,
        extractFileContent fs f sizeLimit =
        Err (size_limit_message (default DEFAULT_FILE_SIZE_LIMIT sizeLimit)
             +:+ ": " +:+ f))
  ∧ (∀ settings files request,
        let limit := default settings (fileSizeLimit request) in
        let response := handler fs (Ok settings) (Ok files) request in
        f ∈ files →
        mkError (Some f) (size_limit_message limit) ∈ error_list response
        ∧ is_size_limit_error (mkError (Some f) (size_limit_message limit))
          = true
        ∧ (∀ e, e ∈ error_list response → error_fileName e = Some f →
                error e = size_limit_message limit)
        ∧ f ∉ ((filesContent response).*1)).
Proof.
  intros Hstat.
  assert (Hout : ∀ sizeLimit, isFileSizeWithinLimit fs f sizeLimit = false).
  { intros sizeLimit. unfold isFileSizeWithinLimit. by rewrite Hstat. }
  split; [done|]. split.
  - intros sizeLimit. unfold extractFileContent. by rewrite Hout.
  - intros settings files request limit response Hin.
    destruct (outside_limit_in_response fs settings files request f Hin
                (Hout _)) as (H1 & _ & H3 & H4 & _).
    done.
Qed.

Lemma oversized_file_reported_not_fatal_witness :
  "big.css" ∈ found
  ∧ statSync disk "big.css" = Ok (2 * 1024 * 1024)
  ∧ DEFAULT_FILE_SIZE_LIMIT < 2 * 1024 * 1024
  ∧ mkError (Some "big.css") (size_limit_message DEFAULT_FILE_SIZE_LIMIT)
    ∈ error_list (handler disk (Ok DEFAULT_FILE_SIZE_LIMIT) (Ok found)
                          plain_request).
Proof.
  assert (Hin : "big.css" ∈ found) by (right; left).
  assert (Hbig : DEFAULT_FILE_SIZE_LIMIT < 2 * 1024 * 1024) by reflexivity.
  split; [done|]. split; [reflexivity|]. split; [done|].
  apply (oversized_file_reported_not_fatal disk DEFAULT_FILE_SIZE_LIMIT found
           plain_request "big.css" (2 * 1024 * 1024) Hin eq_refl Hbig).
Defined.

Lemma unknown_size_reported_as_size_limit_witness :
  statSync disk "gone.css" = Err "ENOENT"
  ∧ isFileSizeWithinLimit disk "gone.css" None = false.
Proof.
  split; [reflexivity|].
  apply (unknown_size_reported_as_size_limit disk "gone.css" "ENOENT" eq_refl).
Defined.

End ServerFacts.

(** * More on the rate limiter *)

Module RateLimiterLaws.
Import RateLimiter RateLimiterFacts RateLimiterUse.
Local Open Scope Z_scope.





(** X3. [cancel()] gives up the promise of a call of [executeAsync] that is
    waiting for its timer: whatever happens afterwards, the promise is never
    settled, neither fulfilled nor rejected. *)
Theorem cancelled_promise_never_settles
    (I : Z) (tr : list Event) (w : Host) (p k : nat) (r : Outcome)
    (tr' : list Event) (w' : Host) :
  run (create I) tr = Some w →
  timeoutId (limiter w) ≠ None →
  queuedExecution (limiter w) = Some (Wrapper p k r) →
  run (cancel w) tr' = Some w' →
  promises w' !! p = Some Pending.
Proof.
  intros Hrun Harmed Hqueued Hrun'.
  destruct (reachable_wf I tr w Hrun) as [Hwf _].
  destruct (wf_queued _ Hwf p k r Harmed Hqueued) as [Hpending _].
  destruct (cancel_cases w Hwf) as (_ & Hps & _ & Hid & _).
  assert (Hab : abandoned p (cancel w)).
  { split; [by rewrite Hps|]. intros f Hne. by rewrite Hid in Hne. }
  by destruct (abandoned_run tr' p _ _ (wf_cancel w Hwf) Hab Hrun').
Qed.

(** *** Latency, when timers fire as they fall due *)








Lemma cancelled_promise_never_settles_witness :
  ∃ w w',
    run (create 300) [Execute 1000 0; ExecuteAsync 1050 7 (Returns 42)]
    = Some w
    ∧ queuedExecution (limiter w) = Some (Wrapper 0 7 (Returns 42))
    ∧ run (cancel w) [Execute 2000 1] = Some w'
    ∧ promises w' !! 0%nat = Some Pending.
Proof.
  do 2 eexists. split; [vm_compute; reflexivity|].
  split; [reflexivity|]. split; [vm_compute; reflexivity|].
  eapply (cancelled_promise_never_settles 300
            [Execute 1000 0; ExecuteAsync 1050 7 (Returns 42)] _
            0 7 (Returns 42) [Execute 2000 1]);
    [vm_compute; reflexivity|done|reflexivity|vm_compute; reflexivity].
Defined.


End RateLimiterLaws.

(** * Properties of debounce *)

Module DebounceFacts.
Import Debounce.
Local Open Scope Z_scope.

Section WithArgs.
Context {Args : Type}.
Implicit Types (w : Host Args) (e : Event Args).














End WithArgs.



End DebounceFacts.

(** * More on the cache manager *)

Module CacheManagerLaws.
Import CacheManager CacheManagerUse CacheManagerFacts.

Lemma filter_ne_absent (l : list string) f :
  f ∉ l → filter (λ g, g ≠ f) l = l.
Proof.
  induction l as [|x l IH]; [done|]. intros [Hx Hl]%not_elem_of_cons.
  rewrite filter_cons_True by done. by rewrite IH.
Qed.

Lemma delete_filter_NoDup (l : list string) i f :
  NoDup l → l !! i = Some f → delete i l = filter (λ g, g ≠ f) l.
Proof.
  intros Hnd. revert i. induction Hnd as [|x l Hx Hnd IH]; intros i Hi; [done|].
  destruct i as [|i]; simpl in *.
  - injection Hi as ->. rewrite filter_cons_False by naive_solver.
    by rewrite filter_ne_absent.
  - assert (x ≠ f).
    { intros ->. apply Hx. by eapply list_elem_of_lookup_2. }
    rewrite filter_cons_True by done. by rewrite (IH i Hi).
Qed.

Lemma updateLRU_filter l f :
  NoDup l → _updateLRU l f = filter (λ g, g ≠ f) l ++ [f].
Proof.
  intros Hnd. unfold _updateLRU. f_equal.
  destruct (indexOf l f) as [i|] eqn:Hi.
  - apply indexOf_Some in Hi. by apply delete_filter_NoDup.
  - apply indexOf_None in Hi. by rewrite filter_ne_absent.
Qed.

Section WithDecorations.
Context {V : Type}.
Implicit Types (cache : gmap string V) (lru : list string).
Implicit Types this : CacheManager V.

Lemma get_after_save (document : TextDocument) (deco : V) this :
  (getCachedDecorations document (saveDecorations document deco this)).1
  = Some deco.
Proof.
  unfold getCachedDecorations, saveDecorations.
  destruct (isDirty document) eqn:Hdirty.
  - unfold _saveDirtyDecoration.
    destruct (save_entry _ _ _ _ _) as [c l] eqn:Hsave. simpl.
    assert (Hc : c !! fileName document = Some deco).
    { unfold save_entry in Hsave.
      destruct (_ && _) in Hsave; [destruct (_dirtyCacheLRU this)|];
        injection Hsave as <- <-; apply lookup_insert_eq. }
    rewrite Hc. rewrite bool_decide_eq_true_2 by done. done.
  - unfold _saveSavedDecorations.
    destruct (save_entry _ _ _ _ _) as [c l] eqn:Hsave. simpl.
    assert (Hc : c !! fileName document = Some deco).
    { unfold save_entry in Hsave.
      destruct (_ && _) in Hsave; [destruct (_decorationsCacheLRU this)|];
        injection Hsave as <- <-; apply lookup_insert_eq. }
    rewrite Hc. rewrite bool_decide_eq_true_2 by done. done.
Qed.

Lemma get_after_get (document : TextDocument) this :
  (getCachedDecorations document (getCachedDecorations document this).2).1
  = (getCachedDecorations document this).1.
Proof.
  unfold getCachedDecorations.
  destruct (negb (isDirty document)
            && bool_decide (is_Some (_decorationsCache this
                                       !! fileName document))) eqn:Hhit;
    simpl.
  - by rewrite Hhit.
  - destruct (bool_decide (is_Some (_dirtyCache this !! fileName document)))
      eqn:Hhit'; simpl; rewrite Hhit; simpl; by rewrite Hhit'.
Qed.

Lemma caches_after_get (document : TextDocument) this :
  _dirtyCache (getCachedDecorations document this).2 = _dirtyCache this
  ∧ _decorationsCache (getCachedDecorations document this).2
    = _decorationsCache this.
Proof.
  unfold getCachedDecorations. destruct (_ && _); [done|].
  by destruct (bool_decide _).
Qed.

(** X7. What is saved for a document is what a read of that document returns,
    whatever the save had to evict. *)
Theorem saved_decorations_are_returned
    (document : TextDocument) (deco : V) this :
  (getCachedDecorations document (saveDecorations document deco this)).1
  = Some deco.
Proof. apply get_after_save. Qed.

(** X8. The two partitions.  Decorations saved while the document was dirty are
    what a read returns once it is clean, unless decorations were saved for
    it in the clean state, which then take precedence; decorations saved
    while it was clean are not seen while it is dirty. *)
Theorem dirty_and_saved_partitions (f : string) (v : V) this :
  (_decorationsCache this !! f = None →
   (getCachedDecorations (mkDocument f false)
      (saveDecorations (mkDocument f true) v this)).1 = Some v)
  ∧ (∀ v', _decorationsCache this !! f = Some v' →
       (getCachedDecorations (mkDocument f false)
          (saveDecorations (mkDocument f true) v this)).1 = Some v')
  ∧ (getCachedDecorations (mkDocument f true)
       (saveDecorations (mkDocument f false) v this)).1
    = _dirtyCache this !! f.
Proof.
  unfold getCachedDecorations, saveDecorations,
    _saveDirtyDecoration, _saveSavedDecorations. simpl.
  split; [|split].
  - intros Hnone.
    destruct (save_entry _ _ _ _ _) as [c l] eqn:Hsave. simpl.
    assert (Hc : c !! f = Some v).
    { unfold save_entry in Hsave.
      destruct (_ && _) in Hsave; [destruct (_dirtyCacheLRU this)|];
        injection Hsave as <- <-; apply lookup_insert_eq. }
    rewrite Hnone, Hc.
    rewrite bool_decide_eq_false_2 by (by intros [? ?]).
    by rewrite bool_decide_eq_true_2.
  - intros v' Hsome.
    destruct (save_entry _ _ _ _ _) as [c l] eqn:Hsave. simpl.
    rewrite Hsome. by rewrite bool_decide_eq_true_2.
  - destruct (save_entry _ _ _ _ _) as [c l] eqn:Hsave. simpl.
    case_bool_decide as Hd; [done|].
    destruct (_dirtyCache this !! f) eqn:Heq; [|done].
    exfalso. apply Hd. by eexists.
Qed.

Lemma save_entry_size max f v cache lru :
  in_step cache lru → cache !! EmptyString = None →
  1 ≤ max → size cache ≤ max →
  size (save_entry max f v cache lru).1 ≤ max.
Proof.
  intros Hin Hempty Hmax Hsize. unfold save_entry.
  destruct (bool_decide (max ≤ size cache)
            && negb (bool_decide (is_Some (cache !! f)))) eqn:Hcond.
  - apply andb_true_iff in Hcond as [Hfull%bool_decide_eq_true Hnew].
    apply negb_true_iff, bool_decide_eq_false in Hnew.
    assert (Hlen := in_step_size _ _ Hin).
    destruct lru as [|g lru]; simpl in *; [lia|].
    assert (Hg : is_Some (cache !! g)) by (apply Hin; by left).
    assert (Hne : g ≠ EmptyString).
    { intros ->. destruct Hg as [? Hg']. congruence. }
    apply truthy_nonempty in Hne as ->. simpl.
    rewrite map_size_insert_None.
    + rewrite (map_size_delete_Some _ _ Hg). lia.
    + rewrite lookup_delete_None. right.
      destruct (cache !! f) eqn:Hf; [|done]. exfalso. apply Hnew. eauto.
  - simpl. apply andb_false_iff in Hcond as [Hroom|Hold].
    + apply bool_decide_eq_false in Hroom.
      rewrite map_size_insert. destruct (cache !! f); simpl; lia.
    + apply negb_false_iff, bool_decide_eq_true in Hold.
      by rewrite (map_size_insert_Some _ _ _ Hold).
Qed.

Lemma MAX_CACHE_SIZE_apply this op :
  MAX_CACHE_SIZE (apply this op) = MAX_CACHE_SIZE this.
Proof.
  destruct op as [doc|doc v|]; simpl; [| |done].
  - unfold getCachedDecorations.
    destruct (_ && _); [done|]. by destruct (bool_decide _).
  - unfold saveDecorations, _saveDirtyDecoration, _saveSavedDecorations.
    destruct (isDirty doc); by destruct (save_entry _ _ _ _ _).
Qed.

Lemma within_capacity_apply this op :
  consistent this → no_empty_key this → 1 ≤ MAX_CACHE_SIZE this →
  (∀ document, op_document op = Some document →
               fileName document ≠ EmptyString) →
  within_capacity this → within_capacity (apply this op).
Proof.
  intros [Hd Hs] [Hed Hes] Hmax Hname [Hsd Hss].
  unfold within_capacity. rewrite MAX_CACHE_SIZE_apply.
  destruct op as [doc|doc v|]; simpl.
  - unfold getCachedDecorations.
    destruct (_ && _); [done|]. by destruct (bool_decide _).
  - unfold saveDecorations, _saveDirtyDecoration, _saveSavedDecorations.
    destruct (isDirty doc).
    + pose proof (save_entry_size (MAX_CACHE_SIZE this) (fileName doc) v _ _
                    Hd Hed Hmax Hsd).
      by destruct (save_entry _ _ _ _ _).
    + pose proof (save_entry_size (MAX_CACHE_SIZE this) (fileName doc) v _ _
                    Hs Hes Hmax Hss).
      by destruct (save_entry _ _ _ _ _).
  - rewrite map_size_empty. lia.
Qed.

(** X9. Neither cache ever holds more than [MAX_CACHE_SIZE = 100] files, as long
    as no document with an empty file name is handed to the manager. *)
Theorem cache_never_exceeds_capacity (ops : list (Op V)) :
  (∀ op document, op ∈ ops → op_document op = Some document →
                  fileName document ≠ EmptyString) →
  let this := apply_all new_CacheManager ops in
  size (_dirtyCache this) ≤ 100 ∧ size (_decorationsCache this) ≤ 100.
Proof.
  intros Hnames.
  assert (H0 : consistent (new_CacheManager (V:=V))
               ∧ no_empty_key (new_CacheManager (V:=V))
               ∧ MAX_CACHE_SIZE (new_CacheManager (V:=V)) = 100
               ∧ within_capacity (new_CacheManager (V:=V))).
  { split; [split; apply in_step_empty|]. split; [by split|].
    split; [done|]. split; simpl; rewrite map_size_empty; lia. }
  unfold apply_all. revert H0 Hnames. generalize (new_CacheManager (V:=V)).
  induction ops as [|op ops IH]; intros this (Hc & Hk & Hmax & Hw) Hnames.
  - simpl. destruct Hw as [? ?]. rewrite Hmax in *. done.
  - simpl. apply IH.
    + assert (Hop : ∀ document, op_document op = Some document →
                                fileName document ≠ EmptyString).
      { intros doc Hdoc. eapply Hnames; [by left|done]. }
      destruct (consistent_apply this op Hc Hk Hop) as [Hc' Hk'].
      split; [done|]. split; [done|].
      split; [by rewrite MAX_CACHE_SIZE_apply|].
      apply within_capacity_apply; try done. lia.
    + intros op' doc Hin. apply Hnames. by right.
Qed.

Lemma updateLRU_around (others : list string) pre f post g :
  NoDup (pre ++ f :: post) →
  (∀ x, x ∈ post → x ∈ others) →
  g = f ∨ g ∈ others →
  ∃ pre' post', _updateLRU (pre ++ f :: post) g = pre' ++ f :: post'
                ∧ ∀ x, x ∈ post' → x ∈ others.
Proof.
  intros Hnd Hpost Hg. rewrite updateLRU_filter by done.
  rewrite filter_app, filter_cons.
  destruct (decide (f ≠ g)) as [Hne|Heq].
  - exists (filter (λ x, x ≠ g) pre), (filter (λ x, x ≠ g) post ++ [g]).
    split; [by rewrite <- app_assoc|].
    intros x [Hx| ->%list_elem_of_singleton]%elem_of_app.
    + apply Hpost. by apply list_elem_of_filter in Hx as [_ ?].
    + destruct Hg as [->|?]; done.
  - assert (g = f) as -> by (destruct (decide (f = g)); [done|by exfalso; apply Heq]).
    exists (filter (λ x, x ≠ f) pre ++ filter (λ x, x ≠ f) post), [].
    split; [by rewrite <- app_assoc|]. by intros x ?%elem_of_nil.
Qed.

Lemma save_entry_around (others : list string) max name v cache pre f post :
  in_step cache (pre ++ f :: post) →
  (∀ x, x ∈ post → x ∈ others) →
  name = f ∨ name ∈ others →
  length (remove_dups others) < max →
  (∃ pre' post',
     (save_entry max name v cache (pre ++ f :: post)).2 = pre' ++ f :: post'
     ∧ ∀ x, x ∈ post' → x ∈ others)
  ∧ (name ≠ f →
     (save_entry max name v cache (pre ++ f :: post)).1 !! f = cache !! f).
Proof.
  intros Hs Hpost Hname Hfew.
  assert (Hnd : NoDup (pre ++ f :: post)) by by destruct Hs.
  unfold save_entry.
  destruct (bool_decide (max ≤ size cache)
            && negb (bool_decide (is_Some (cache !! name)))) eqn:Hcond.
  - apply andb_true_iff in Hcond as [Hfull%bool_decide_eq_true Hnew].
    apply negb_true_iff, bool_decide_eq_false in Hnew.
    assert (Hfresh : name ∉ pre ++ f :: post).
    { intros Hin. apply Hnew. by apply Hs. }
    assert (Hother : name ∈ others).
    { destruct Hname as [Heq|?]; [|done]. exfalso. apply Hfresh.
      rewrite Heq. apply elem_of_app. right. by left. }
    rewrite (in_step_size _ _ Hs) in Hfull.
    destruct pre as [|h pre]; simpl in *.
    + exfalso.
      assert (Hsub : post ++ [name] ⊆+ remove_dups others).
      { apply NoDup_submseteq.
        - apply NoDup_cons in Hnd as [_ Hnd]. apply NoDup_app.
          split; [done|]. split; [|apply NoDup_singleton].
          intros x Hx ->%list_elem_of_singleton. apply Hfresh. by right.
        - intros x [Hx| ->%list_elem_of_singleton]%elem_of_app;
            apply elem_of_remove_dups; [by apply Hpost|done]. }
      apply submseteq_length in Hsub. rewrite length_app in Hsub.
      simpl in Hsub. lia.
    + apply NoDup_cons in Hnd as [Hh Hnd].
      assert (Hfresh' : name ∉ pre ++ f :: post).
      { intros Hin. apply Hfresh. by right. }
      assert (Hhf : h ≠ f).
      { intros ->. apply Hh. apply elem_of_app. right. by left. }
      split.
      * rewrite updateLRU_fresh by done.
        exists pre, (post ++ [name]). split; [by rewrite <- app_assoc|].
        intros x [Hx| ->%list_elem_of_singleton]%elem_of_app; auto.
      * intros Hne. rewrite lookup_insert_ne by done.
        destruct (truthy h); [|done]. by rewrite lookup_delete_ne.
  - simpl. split; [by apply updateLRU_around|].
    intros Hne. by rewrite lookup_insert_ne.
Qed.

Lemma ahead_of_apply (others : list string) f dirty this op :
  consistent this →
  length (remove_dups others) < MAX_CACHE_SIZE this →
  (∃ document, op_document op = Some document
               ∧ (fileName document = f ∨ fileName document ∈ others)) →
  ahead_of others f dirty this →
  ahead_of others f dirty (apply this op)
  ∧ (¬ saves_into dirty f op →
     cache_of dirty (apply this op) !! f = cache_of dirty this !! f).
Proof.
  intros [Hd Hs] Hfew (doc & Hdoc & Hname) (pre & post & Hlru & Hpost).
  unfold ahead_of.
  destruct op as [doc'|doc' v|]; simpl in *; [| |done];
    injection Hdoc as ->.
  - split.
    2: { intros _. destruct (caches_after_get doc this) as [H1 H2].
         unfold cache_of. destruct dirty; congruence. }
    assert (Hnd : NoDup (pre ++ f :: post)).
    { rewrite <- Hlru. destruct dirty; [by destruct Hd|by destruct Hs]. }
    unfold getCachedDecorations.
    destruct (_ && _); simpl.
    + destruct dirty; simpl in *; [eauto|].
      rewrite Hlru. by apply updateLRU_around.
    + destruct (bool_decide _); simpl; [|eauto].
      destruct dirty; simpl in *; [|eauto].
      rewrite Hlru. by apply updateLRU_around.
  - unfold saveDecorations, _saveDirtyDecoration, _saveSavedDecorations.
    destruct (isDirty doc) eqn:Hdirty; destruct dirty; simpl in *.
    + rewrite Hlru in *.
      destruct (save_entry_around others (MAX_CACHE_SIZE this) (fileName doc)
                  v _ pre f post Hd Hpost Hname Hfew) as [Hshape Hval].
      destruct (save_entry _ _ _ _ _) as [c l]. simpl in *.
      split; [done|]. intros Hno. apply Hval. intros Heq. by apply Hno.
    + destruct (save_entry _ _ _ _ _) as [c l]. simpl. eauto.
    + destruct (save_entry _ _ _ _ _) as [c l]. simpl. eauto.
    + rewrite Hlru in *.
      destruct (save_entry_around others (MAX_CACHE_SIZE this) (fileName doc)
                  v _ pre f post Hs Hpost Hname Hfew) as [Hshape Hval].
      destruct (save_entry _ _ _ _ _) as [c l]. simpl in *.
      split; [done|]. intros Hno. apply Hval. intros Heq. by apply Hno.
Qed.

Lemma kept_apply_all (others : list string) f dirty (ops : list (Op V)) :
  ∀ this,
  consistent this → no_empty_key this →
  length (remove_dups others) < MAX_CACHE_SIZE this →
  ahead_of others f dirty this →
  (∀ op, op ∈ ops →
     ¬ saves_into dirty f op
     ∧ ∃ document, op_document op = Some document
                   ∧ fileName document ≠ EmptyString
                   ∧ (fileName document = f ∨ fileName document ∈ others)) →
  cache_of dirty (apply_all this ops) !! f = cache_of dirty this !! f.
Proof.
  unfold apply_all.
  induction ops as [|op ops IH]; intros this Hc Hk Hfew Hahead Hops; [done|].
  simpl. destruct (Hops op) as (Hno & doc & Hdoc & Hne & Hname); [by left|].
  assert (Hop : ∀ document, op_document op = Some document →
                            fileName document ≠ EmptyString).
  { intros doc' Hdoc'. congruence. }
  destruct (consistent_apply this op Hc Hk Hop) as [Hc' Hk'].
  destruct (ahead_of_apply others f dirty this op Hc Hfew) as [Ha Hv];
    [by exists doc|done|].
  rewrite IH; try done.
  - by apply Hv.
  - by rewrite MAX_CACHE_SIZE_apply.
  - intros op' Hop'. apply Hops. by right.
Qed.

Lemma save_entry_newest max f (v : V) cache lru :
  (save_entry max f v cache lru).1 !! f = Some v
  ∧ ∃ pre, (save_entry max f v cache lru).2 = pre ++ [f].
Proof.
  unfold save_entry.
  destruct (_ && _); [destruct lru as [|h t]|]; simpl;
    (split; [apply lookup_insert_eq|unfold _updateLRU; eauto]).
Qed.

Lemma newest_after_save (document : TextDocument) (v : V) this :
  let saved := saveDecorations document v this in
  cache_of (isDirty document) saved !! fileName document = Some v
  ∧ ∃ pre, lru_of (isDirty document) saved = pre ++ [fileName document].
Proof.
  unfold saveDecorations, _saveDirtyDecoration, _saveSavedDecorations.
  destruct (isDirty document).
  - pose proof (save_entry_newest (MAX_CACHE_SIZE this) (fileName document) v
                  (_dirtyCache this) (_dirtyCacheLRU this)) as Hnew.
    by destruct (save_entry _ _ _ _ _).
  - pose proof (save_entry_newest (MAX_CACHE_SIZE this) (fileName document) v
                  (_decorationsCache this) (_decorationsCacheLRU this))
      as Hnew.
    by destruct (save_entry _ _ _ _ _).
Qed.

Lemma get_cached (document : TextDocument) (v : V) this :
  cache_of (isDirty document) this !! fileName document = Some v →
  (getCachedDecorations document this).1 = Some v.
Proof.
  unfold getCachedDecorations, cache_of.
  destruct (isDirty document); simpl; intros Hv; rewrite Hv.
  - by rewrite bool_decide_eq_true_2.
  - by rewrite bool_decide_eq_true_2.
Qed.

(** X10. A file that has just been read or saved stays in its partition as long
    as fewer than [MAX_CACHE_SIZE] other files are read or saved, however
    often and in whatever order. *)
Theorem recently_used_file_survives
    this (dirty : bool) (f : string) (ops : list (Op V)) :
  consistent this → no_empty_key this →
  last (lru_of dirty this) = Some f →
  Forall (λ op, is_Some (op_document op)) ops →
  EmptyString ∉ names_used ops →
  length (remove_dups (filter (λ g, g ≠ f) (names_used ops)))
  < MAX_CACHE_SIZE this →
  is_Some (cache_of dirty (apply_all this ops) !! f).
Proof.
  intros Hc Hk Hlast Hdocs Hne Hfew.
  set (others := filter (λ g, g ≠ f) (names_used ops)) in *.
  assert (Hin : ∀ op, op ∈ ops →
            ∃ document, op_document op = Some document
                        ∧ fileName document ≠ EmptyString
                        ∧ (fileName document = f
                           ∨ fileName document ∈ others)).
  { intros op Hop. rewrite Forall_forall in Hdocs.
    destruct (Hdocs op Hop) as [doc Hdoc]. exists doc. split; [done|].
    assert (Hused : fileName doc ∈ names_used ops).
    { apply list_elem_of_omap. exists op. split; [done|]. by rewrite Hdoc. }
    split; [by intros Heq; rewrite Heq in Hused|].
    destruct (decide (fileName doc = f)); [by left|right].
    by apply list_elem_of_filter. }
  assert (Hahead : ahead_of others f dirty this).
  { destruct (lru_of dirty this) as [|x l] eqn:Hlru using rev_ind; [done|].
    rewrite last_snoc in Hlast. injection Hlast as ->.
    exists l, []. split; [done|]. by intros g ?%elem_of_nil. }
  clearbody others. clear Hlast Hdocs Hne.
  assert (Hgoal : consistent (apply_all this ops)
                  ∧ ahead_of others f dirty (apply_all this ops)).
  { unfold apply_all. revert this Hc Hk Hfew Hahead Hin.
    induction ops as [|op ops IH]; intros this Hc Hk Hfew Hahead Hin; simpl;
      [done|].
    destruct (Hin op) as (doc & Hdoc & Hdne & Hname); [by left|].
    assert (Hop : ∀ document, op_document op = Some document →
                              fileName document ≠ EmptyString).
    { intros doc' Hdoc'. congruence. }
    destruct (consistent_apply this op Hc Hk Hop) as [Hc' Hk'].
    apply IH; try done.
    - by rewrite MAX_CACHE_SIZE_apply.
    - apply ahead_of_apply; eauto.
    - intros op' Hop'. apply Hin. by right. }
  destruct Hgoal as [[Hd Hs] (pre & post & Hlru & _)].
  assert (Hf : f ∈ lru_of dirty (apply_all this ops)).
  { rewrite Hlru. apply elem_of_app. right. by left. }
  destruct dirty; [by apply Hd|by apply Hs].
Qed.

End WithDecorations.

Lemma cache_never_exceeds_capacity_witness :
  let this := apply_all new_CacheManager
                [Save (mkDocument "a.css" false) 1; Get (mkDocument "a.css" true);
                 Save (mkDocument "b.css" true) 2] in
  size (_dirtyCache this) ≤ 100 ∧ size (_decorationsCache this) ≤ 100.
Proof.
  apply (cache_never_exceeds_capacity
           [Save (mkDocument "a.css" false) 1; Get (mkDocument "a.css" true);
            Save (mkDocument "b.css" true) 2]).
  intros op document Hin Hdoc.
  repeat (apply elem_of_cons in Hin as [->|Hin];
          [injection Hdoc as <-; done|]).
  by apply elem_of_nil in Hin.
Defined.

Lemma recently_used_file_survives_witness :
  let this := apply_all new_CacheManager [Save (mkDocument "a.css" false) 1] in
  last (lru_of false this) = Some "a.css"
  ∧ is_Some (cache_of false
               (apply_all this [Save (mkDocument "b.css" false) 2;
                                Get (mkDocument "a.css" false);
                                Save (mkDocument "c.css" false) 3])
             !! "a.css").
Proof.
  intros this. split; [reflexivity|].
  assert (Hstart : consistent this ∧ no_empty_key this).
  { apply consistent_apply.
    - split; apply in_step_empty.
    - by split.
    - intros document [= <-]. done. }
  destruct Hstart as [Hc Hk].
  apply (recently_used_file_survives this false "a.css"
           [Save (mkDocument "b.css" false) 2; Get (mkDocument "a.css" false);
            Save (mkDocument "c.css" false) 3] Hc Hk).
  - reflexivity.
  - repeat constructor; by eexists.
  - apply (bool_decide_unpack _). by vm_compute.
  - vm_compute. lia.
Defined.

End CacheManagerLaws.

(** * More on the extraction handler *)

Module ServerLaws.
Import Server ServerUse ServerFacts.
Local Open Scope Z_scope.

Lemma split_newline_cons s : ∃ l ls, split_newline s = l :: ls.
Proof.
  induction s as [|c s (l & ls & IH)]; simpl; [by eexists _, _|].
  destruct (Ascii.eqb c "010"); [by eexists _, _|].
  rewrite IH. by eexists _, _.
Qed.

Lemma concat_split_newline s :
  String.concat newline (split_newline s) = s.
Proof.
  induction s as [|c s IH]; [done|]. simpl.
  destruct (split_newline_cons s) as (l & ls & Hs). rewrite Hs in *.
  destruct (Ascii.eqb c "010") eqn:Hc.
  - apply Ascii.eqb_eq in Hc as ->.
    change (String "010" (String.concat newline (l :: ls)) = String "010" s).
    by rewrite IH.
  - destruct ls as [|x xs].
    + simpl in *. by rewrite IH.
    + change (String c (l ++ newline ++ String.concat newline (x :: xs))
              = String c s).
      f_equal. exact IH.
Qed.

Lemma split_newline_no_newline s piece :
  piece ∈ split_newline s → "010"%char ∉ String.list_ascii_of_string piece.
Proof.
  revert piece. induction s as [|c s IH]; intros piece; simpl.
  - intros ->%list_elem_of_singleton. simpl. by intros ?%elem_of_nil.
  - destruct (Ascii.eqb c "010") eqn:Hc.
    + intros [->|Hin]%elem_of_cons; [simpl; by intros ?%elem_of_nil|].
      by apply IH.
    + destruct (split_newline_cons s) as (l & ls & Hs). rewrite Hs in *.
      intros [->|Hin]%elem_of_cons.
      * simpl. intros [Heq|Hin]%elem_of_cons.
        -- subst c. by rewrite Ascii.eqb_refl in Hc.
        -- revert Hin. apply IH. by left.
      * apply IH. by right.
Qed.

Lemma length_split_newline s :
  length (split_newline s) =
  S (length (filter (λ c, c = "010"%char) (String.list_ascii_of_string s))).
Proof.
  induction s as [|c s IH]; [done|]. simpl.
  destruct (Ascii.eqb c "010") eqn:Hc.
  - apply Ascii.eqb_eq in Hc as ->. rewrite filter_cons_True by done.
    simpl. by rewrite IH.
  - apply Ascii.eqb_neq in Hc. rewrite filter_cons_False by done.
    destruct (split_newline_cons s) as (l & ls & Hs). rewrite Hs in *.
    done.
Qed.

(** X11. What [extractFileContent] returns is the text of the file cut at its
    newlines: joining the lines with a newline gives the text back; no line
    contains a newline; there is one line more than there are newlines, so an
    empty file has one empty line; and the lines are numbered from 0 in
    order. *)
Theorem extractFileContent_lines
    (fs : FileSystem) (fileName : string) (sizeLimit : option Z)
    (content : list DocumentLine) :
  extractFileContent fs fileName sizeLimit = Ok content →
  ∃ file_text,
    readFileSync fs fileName = Ok file_text
    ∧ String.concat newline (text <$> content) = file_text
    ∧ (∀ l, l ∈ content → "010"%char ∉ String.list_ascii_of_string (text l))
    ∧ length content
      = S (length (filter (λ c, c = "010"%char)
                          (String.list_ascii_of_string file_text)))
    ∧ line <$> content = seq 0 (length content).
Proof.
  unfold extractFileContent. destruct (negb _); [done|].
  destruct (readFileSync fs fileName) as [file_text|]; [|done].
  intros [= <-]. exists file_text. split; [done|].
  assert (Htext : ∀ (l : list string) k,
            text <$> imap (λ index text, mkLine text (k + index)) l = l).
  { induction l as [|x l IH]; intros k; [done|]. simpl. f_equal.
    rewrite <- (IH (S k)) at 2. f_equal. apply imap_ext. intros i y _.
    simpl. f_equal. lia. }
  assert (Hline : ∀ (l : list string) k,
            line <$> imap (λ index text, mkLine text (k + index)) l
            = seq k (length l)).
  { induction l as [|x l IH]; intros k; [done|]. simpl. f_equal; [lia|].
    rewrite <- (IH (S k)). f_equal. apply imap_ext. intros i y _.
    simpl. f_equal. lia. }
  specialize (Htext (split_newline file_text) 0%nat).
  specialize (Hline (split_newline file_text) 0%nat).
  simpl in Htext, Hline.
  split; [rewrite Htext; apply concat_split_newline|].
  split.
  { intros l Hl. apply (split_newline_no_newline file_text).
    rewrite <- Htext. apply list_elem_of_fmap. by exists l. }
  rewrite length_imap. split; [apply length_split_newline|done].
Qed.

Lemma extracted_readable fs limit f :
  if readable fs limit f
  then (∃ content, extracted fs limit f = Some (f, content))
       ∧ reported fs limit f = None
  else extracted fs limit f = None
       ∧ ∃ e, reported fs limit f = Some e ∧ error_fileName e = Some f.
Proof.
  unfold readable, extracted, reported, extractFileContent.
  destruct (isFileSizeWithinLimit fs f (Some limit)) eqn:Hin; simpl.
  - rewrite Hin. simpl. destruct (readFileSync fs f); simpl; eauto.
  - eauto.
Qed.

Lemma omap_extracted_names fs limit (files : list string) :
  (omap (extracted fs limit) files).*1
  = filter (λ f, readable fs limit f) files.
Proof.
  induction files as [|f files IH]; [done|]. simpl.
  pose proof (extracted_readable fs limit f) as Hf.
  destruct (readable fs limit f) eqn:Hr.
  - destruct Hf as [[content ->] _]. rewrite filter_cons_True by by rewrite Hr.
    rewrite fmap_cons. f_equal. exact IH.
  - destruct Hf as [-> _].
    rewrite filter_cons_False by (rewrite Hr; intros H; exact H).
    exact IH.
Qed.

Lemma omap_reported_names fs limit (files : list string) :
  omap error_fileName (omap (reported fs limit) files)
  = filter (λ f, ¬ readable fs limit f) files.
Proof.
  induction files as [|f files IH]; [done|]. simpl.
  pose proof (extracted_readable fs limit f) as Hf.
  destruct (readable fs limit f) eqn:Hr.
  - destruct Hf as [_ ->].
    rewrite filter_cons_False by (rewrite Hr; naive_solver).
    exact IH.
  - destruct Hf as [_ (e & -> & He)].
    rewrite filter_cons_True by (rewrite Hr; intros H; exact H).
    change (omap error_fileName (e :: omap (reported fs limit) files)
            = f :: filter (λ f, ¬ readable fs limit f) files).
    cbn [omap list_omap]. rewrite He. f_equal. exact IH.
Qed.

Lemma length_omap_reported fs limit (files : list string) :
  (length (omap (extracted fs limit) files)
   + length (omap (reported fs limit) files) = length files)%nat.
Proof.
  induction files as [|f files IH]; [done|]. cbn [omap list_omap].
  pose proof (extracted_readable fs limit f) as Hf.
  destruct (readable fs limit f).
  - destruct Hf as [[content ->] ->]. cbn [length]. simpl in *. lia.
  - destruct Hf as [-> (e & -> & _)]. cbn [length]. simpl in *. lia.
Qed.

(** X12. Every file found is answered exactly once and in the order found: the
    files that can be extracted make up [filesContent], the others make up
    [errors], each under its own name; batches of a hundred leave no trace.
    [errors] is left out exactly when every file could be extracted. *)
Theorem every_file_is_answered_once
    (fs : FileSystem) (settings : Z) (files : list string)
    (request : Request) :
  let limit := default settings (fileSizeLimit request) in
  let response := handler fs (Ok settings) (Ok files) request in
  (filesContent response).*1 = filter (λ f, readable fs limit f) files
  ∧ omap error_fileName (error_list response)
    = filter (λ f, ¬ readable fs limit f) files
  ∧ (length (filesContent response) + length (error_list response)
     = length files)%nat
  ∧ (errors response = None ↔ ∀ f, f ∈ files → readable fs limit f).
Proof.
  intros limit response. subst response.
  rewrite filesContent_handler, error_list_handler. fold limit.
  split; [apply omap_extracted_names|].
  split; [apply omap_reported_names|].
  split; [apply length_omap_reported|].
  rewrite handler_eq. fold limit. simpl.
  pose proof (omap_reported_names fs limit files) as Hnames.
  destruct (omap (reported fs limit) files) as [|e es] eqn:Hrep.
  - split; [|done]. intros _ f Hf. simpl in Hnames.
    destruct (readable fs limit f) eqn:Hr; [done|].
    assert (Hin : f ∈ filter (λ f, ¬ readable fs limit f) files).
    { apply list_elem_of_filter. split; [|done].
      rewrite Hr. intros H. exact H. }
    rewrite <- Hnames in Hin. by apply elem_of_nil in Hin.
  - split; [done|]. intros Hall. exfalso.
    assert (Hnil : filter (λ f, ¬ readable fs limit f) files = []).
    { clear -Hall. induction files as [|f files IH]; [done|].
      rewrite filter_cons_False.
      - apply IH. intros g Hg. apply Hall. by right.
      - intros Hn. apply Hn, Hall. by left. }
    rewrite Hnil in Hnames. simpl in Hnames.
    pose proof (extracted_readable fs limit) as Hf.
    assert (Hin : e ∈ omap (reported fs limit) files)
      by (rewrite Hrep; by left).
    apply list_elem_of_omap in Hin as (f & _ & Hrf).
    apply reported_name in Hrf. rewrite Hrf in Hnames. done.
Qed.

Lemma extractFileContent_lines_witness :
  extractFileContent disk "a.css" None = Ok [mkLine "a: red" 0]
  ∧ ∃ file_text,
      readFileSync disk "a.css" = Ok file_text
      ∧ String.concat newline (text <$> [mkLine "a: red" 0]) = file_text
      ∧ (∀ l, l ∈ [mkLine "a: red" 0] →
              "010"%char ∉ String.list_ascii_of_string (text l))
      ∧ length [mkLine "a: red" 0]
        = S (length (filter (λ c, c = "010"%char)
                            (String.list_ascii_of_string file_text)))
      ∧ line <$> [mkLine "a: red" 0] = seq 0 (length [mkLine "a: red" 0]).
Proof.
  split; [reflexivity|].
  apply (extractFileContent_lines disk "a.css" None). reflexivity.
Defined.

End ServerLaws.

(** * Server and client together *)

Module VariablesExtractionFacts.
Import CacheManager Server ServerUse ServerFacts ServerLaws VariablesExtraction.
Local Open Scope Z_scope.

Lemma reported_cases fs limit f :
  reported fs limit f =
  if isFileSizeWithinLimit fs f (Some limit)
  then match readFileSync fs f with
       | Ok _ => None
       | Err message => Some (mkError (Some f) message)
       end
  else Some (mkError (Some f) (size_limit_message limit)).
Proof.
  unfold reported, extractFileContent.
  destruct (isFileSizeWithinLimit fs f (Some limit)) eqn:Hin; [|done].
  simpl. rewrite Hin. simpl. by destruct (readFileSync fs f).
Qed.

Lemma size_limit_errors_of_reported fs limit (files : list string) :
  (∀ f message, f ∈ files → readFileSync fs f = Err message →
                string_includes "File size exceeds limit" message = false) →
  length (filter (λ e, is_size_limit_error e) (omap (reported fs limit) files))
  = length (filter (λ f, ¬ isFileSizeWithinLimit fs f (Some limit)) files).
Proof.
  induction files as [|f files IH]; intros Hread; [done|].
  cbn [omap list_omap].
  assert (IH' := IH (λ g m Hg, Hread g m (list_elem_of_further _ _ _ Hg))).
  rewrite reported_cases.
  destruct (isFileSizeWithinLimit fs f (Some limit)) eqn:Hin.
  - rewrite (filter_cons_False _ f) by (rewrite Hin; naive_solver).
    destruct (readFileSync fs f) as [file_text|message] eqn:Hr; [exact IH'|].
    rewrite filter_cons_False; [exact IH'|].
    unfold is_size_limit_error. simpl.
    rewrite (Hread f message); [naive_solver|by left|done].
  - rewrite (filter_cons_True _ f) by (rewrite Hin; naive_solver).
    rewrite filter_cons_True.
    + cbn [length]. f_equal. exact IH'.
    + by rewrite size_limit_message_kind.
Qed.

(** X13. Server and client together.  When no read error happens to contain the
    phrase of the size-limit message, the warning the user sees counts
    exactly the files found whose size is over the ceiling or unknown, and
    it is shown exactly when there is such a file; one line is logged for
    every file that was not extracted; no error message is shown; and
    [VariablesManager.getWorkspaceVariables] gets the files that could be
    extracted, in the order found, or is not called when there is none. *)
Theorem warning_counts_the_skipped_files
    (fs : FileSystem) (settings : Z) (files : list string)
    (request : Request) :
  let limit := default settings (fileSizeLimit request) in
  let shown := on_response (Ok (handler fs (Ok settings) (Ok files) request)) in
  let skipped :=
    filter (λ f, ¬ isFileSizeWithinLimit fs f (Some limit)) files in
  (∀ f message, f ∈ files → readFileSync fs f = Err message →
                string_includes "File size exceeds limit" message = false) →
  warningMessage shown
  = match skipped with
    | [] => None
    | _ :: _ => Some (size_limit_warning (length skipped))
    end
  ∧ length (console shown)
    = length (filter (λ f, ¬ readable fs limit f) files)
  ∧ errorMessage shown = None
  ∧ match workspaceVariables shown with
    | Some filesContent =>
        filesContent.*1 = filter (λ f, readable fs limit f) files
        ∧ filesContent ≠ []
    | None => filter (λ f, readable fs limit f) files = []
    end.
Proof.
  intros limit shown skipped Hread. subst shown. unfold on_response.
  rewrite handler_eq. fold limit. simpl.
  pose proof (size_limit_errors_of_reported fs limit files Hread) as Hcount.
  fold skipped in Hcount.
  pose proof (omap_reported_names fs limit files) as Hnames.
  pose proof (omap_extracted_names fs limit files) as Hext.
  assert (Hall : ∀ l : list ExtractVariablesError,
            (∀ x, x ∈ l → is_Some (error_fileName x)) →
            length (omap error_fileName l) = length l).
  { induction l as [|x l IHl]; intros Hl; [done|]. cbn [omap list_omap].
    destruct (Hl x) as [n Hn]; [by left|]. rewrite Hn. simpl. f_equal.
    apply IHl. intros y Hy. apply Hl. by right. }
  assert (Hvars :
    match match omap (extracted fs limit) files with
          | [] => None
          | _ :: _ => Some (omap (extracted fs limit) files)
          end with
    | Some filesContent =>
        filesContent.*1 = filter (λ f, readable fs limit f) files
        ∧ filesContent ≠ []
    | None => filter (λ f, readable fs limit f) files = []
    end).
  { rewrite <- Hext.
    by destruct (omap (extracted fs limit) files) as [|c cs]. }
  destruct (omap (reported fs limit) files) as [|e es] eqn:Hrep; simpl.
  - split; [|split; [|split; [done|exact Hvars]]].
    + simpl in Hcount. destruct skipped; [done|simpl in Hcount; lia].
    + by rewrite <- Hnames.
  - split; [|split; [|split; [done|exact Hvars]]].
    + rewrite Hcount. case_bool_decide as Hpos.
      * destruct skipped; [simpl in Hpos; lia|done].
      * destruct skipped; [done|simpl in Hpos; lia].
    + rewrite <- Hnames, length_fmap. rewrite Hall; [done|].
      intros x Hx. rewrite <- Hrep in Hx.
      apply list_elem_of_omap in Hx as (f & _ & Hf).
      apply reported_name in Hf. by eexists.
Qed.

Lemma warning_counts_the_skipped_files_witness :
  warningMessage
    (on_response (Ok (handler disk (Ok DEFAULT_FILE_SIZE_LIMIT) (Ok found)
                              plain_request)))
  = Some (size_limit_warning 2).
Proof.
  assert (Hread : ∀ f message,
            f ∈ found → readFileSync disk f = Err message →
            string_includes "File size exceeds limit" message = false).
  { intros f message _ Hread. unfold disk in Hread. simpl in Hread.
    case_decide; [|done]. injection Hread as <-. reflexivity. }
  pose proof (warning_counts_the_skipped_files disk DEFAULT_FILE_SIZE_LIMIT
                found plain_request Hread) as [Hwarning _].
  vm_compute in Hwarning |- *. exact Hwarning.
Defined.

End VariablesExtractionFacts.

(** * Properties of the cache of document settings *)

Module DocumentSettingsFacts.
Import CacheManager CacheManagerFacts CacheManagerLaws.
Import Server DocumentSettings.

Section WithClient.
Variable getConfiguration : nat → string → Result ColorizeSettings.

Lemma ensure_fileSizeLimit_defined settings :
  is_Some (settings_fileSizeLimit (ensure_fileSizeLimit settings)).
Proof.
  unfold ensure_fileSizeLimit.
  destruct (settings_fileSizeLimit settings) eqn:Heq; simpl; [|by eexists].
  rewrite Heq. by eexists.
Qed.

Lemma settled_getDocumentSettings resource s :
  resource ≠ EmptyString → settled s →
  settled (getDocumentSettings getConfiguration resource s).2.
Proof.
  intros Hne [Hin Hempty Hsize]. unfold getDocumentSettings.
  destruct (hasConfigurationCapability s); simpl; [|done].
  fold (_updateLRU (documentSettingsLRU s) resource).
  destruct (documentSettings s !! resource) as [result|] eqn:Hres; simpl.
  - split; simpl; [|done..]. apply in_step_promote; [done|by eexists].
  - assert (Hfresh : resource ∉ documentSettingsLRU s).
    { intros Hr. apply Hin in Hr as [? ?]. congruence. }
    rewrite (updateLRU_fresh _ _ Hfresh).
    assert (Hlen := in_step_size _ _ Hin).
    case_bool_decide as Hfull; simpl.
    + destruct (documentSettingsLRU s) as [|h t] eqn:Hlru; simpl in *.
      { unfold MAX_DOCUMENT_SETTINGS in *. lia. }
      
      assert (Hh : is_Some (documentSettings s !! h)) by (apply Hin; by left).
      assert (Hhne : h ≠ EmptyString).
      { intros ->. destruct Hh as [? Hh']. congruence. }
      apply truthy_nonempty in Hhne as ->.
      pose proof (in_step_shift _ _ _ Hin) as Hshift.
      assert (Hfresh' : resource ∉ t).
      { intros Hr. apply Hfresh. by right. }
      split; simpl.
      * rewrite <- (updateLRU_fresh _ _ Hfresh'). by apply in_step_insert.
      * rewrite lookup_insert_ne by done. rewrite lookup_delete_None. by right.
      * rewrite map_size_insert_None.
        -- rewrite (map_size_delete_Some _ _ Hh). lia.
        -- rewrite lookup_delete_None. by right.
    + simpl. split; simpl.
      * rewrite <- (updateLRU_fresh _ _ Hfresh). by apply in_step_insert.
      * by rewrite lookup_insert_ne.
      * rewrite map_size_insert_None by done. lia.
Qed.

Lemma settled_onDidClose uri s : settled s → settled (onDidClose uri s).
Proof.
  intros [[Hnd Hiff] Hempty Hsize]. unfold onDidClose. split; simpl.
  - assert (Hlru : match indexOf (documentSettingsLRU s) uri with
                   | Some lruIndex => delete lruIndex (documentSettingsLRU s)
                   | None => documentSettingsLRU s
                   end = filter (λ g, g ≠ uri) (documentSettingsLRU s)).
    { destruct (indexOf _ uri) as [i|] eqn:Hi.
      - apply indexOf_Some in Hi. by apply delete_filter_NoDup.
      - apply indexOf_None in Hi. by rewrite filter_ne_absent. }
    rewrite Hlru. split; [by apply NoDup_filter|].
    intros g. rewrite list_elem_of_filter, lookup_delete_is_Some, Hiff.
    split; [intros [? ?]|intros [? ?]]; split; done.
  - rewrite lookup_delete_None. by right.
  - rewrite map_size_delete. destruct (documentSettings s !! uri); simpl; lia.
Qed.

Lemma settled_initialized capability : settled (initialized capability).
Proof.
  split; simpl; [apply in_step_empty|done|].
  rewrite map_size_empty. unfold MAX_DOCUMENT_SETTINGS. lia.
Qed.

Lemma settled_handle s e :
  (∀ uri, resource_of e = Some uri → uri ≠ EmptyString) →
  settled s → settled (handle getConfiguration s e).
Proof.
  intros Hne Hs. destruct e as [uri|uri| |root]; simpl.
  - apply settled_getDocumentSettings; [by apply Hne|done].
  - by apply settled_onDidClose.
  - unfold onDidChangeConfiguration.
    destruct (hasConfigurationCapability s); [|done].
    split; simpl; [apply in_step_empty|done|].
    rewrite map_size_empty. unfold MAX_DOCUMENT_SETTINGS. lia.
  - apply settled_getDocumentSettings; [by apply Hne|done].
Qed.

Lemma limits_defined_getDocumentSettings resource s :
  limits_defined s →
  limits_defined (getDocumentSettings getConfiguration resource s).2.
Proof.
  intros Hs. unfold getDocumentSettings.
  destruct (hasConfigurationCapability s); simpl; [|done].
  destruct (documentSettings s !! resource) as [result|] eqn:Hres; simpl;
    [done|].
  set (lru := _ ++ [resource]).
  destruct (_ && _); [destruct lru as [|h t]|]; simpl;
    intros uri settings; simpl;
    (destruct (decide (uri = resource)) as [->|Hne];
     [rewrite lookup_insert_eq; intros [= Heq];
      destruct (getConfiguration _ _); simpl in Heq; [|done];
      injection Heq as <-; apply ensure_fileSizeLimit_defined
     |rewrite lookup_insert_ne by done]);
    try apply Hs.
  destruct (truthy h); [|apply Hs].
  intros [_ Hd]%lookup_delete_Some. by eapply Hs.
Qed.

Lemma limits_defined_handle s e :
  limits_defined s → limits_defined (handle getConfiguration s e).
Proof.
  intros Hs. destruct e as [uri|uri| |root]; simpl.
  - by apply limits_defined_getDocumentSettings.
  - intros u settings. simpl. intros [_ Hd]%lookup_delete_Some.
    by eapply Hs.
  - unfold onDidChangeConfiguration.
    destruct (hasConfigurationCapability s); [|done].
    intros u settings. simpl. by rewrite lookup_empty.
  - by apply limits_defined_getDocumentSettings.
Qed.

(** X14. The settings kept for documents and their LRU array stay in step, and no
    more than a hundred settings are kept, whatever is opened, closed and
    asked for, as long as no resource is the empty string. *)
Theorem document_settings_stay_in_step
    (capability : bool) (events : list Event) :
  (∀ e uri, e ∈ events → resource_of e = Some uri → uri ≠ EmptyString) →
  let s := foldl (handle getConfiguration) (initialized capability) events in
  in_step (documentSettings s) (documentSettingsLRU s)
  ∧ size (documentSettings s) ≤ 100.
Proof.
  intros Hne s.
  assert (Hs : settled s).
  { subst s. pose proof (settled_initialized capability) as H0.
    revert H0 Hne. generalize (initialized capability).
    induction events as [|e events IH]; intros s0 H0 Hne; simpl; [done|].
    apply IH.
    - apply settled_handle; [|done]. intros uri Huri. eapply Hne; [by left|done].
    - intros e' uri Hin. apply Hne. by right. }
  destruct Hs as [? ? ?]. done.
Qed.

(** X15. The settings the extraction handler awaits always carry a file size
    limit: the default settings have one, and a limit the client leaves out
    is filled in before the settings are kept. *)
Theorem awaited_settings_have_a_limit
    (capability : bool) (events : list Event) (resource : string) :
  let s := foldl (handle getConfiguration) (initialized capability) events in
  match (getDocumentSettings getConfiguration resource s).1 with
  | Ok settings => is_Some (settings_fileSizeLimit settings)
  | Err _ => True
  end.
Proof.
  intros s.
  assert (Hs : limits_defined s).
  { subst s.
    assert (H0 : limits_defined (initialized capability)).
    { intros uri settings. simpl. by rewrite lookup_empty. }
    revert H0. generalize (initialized capability).
    induction events as [|e events IH]; intros s0 H0; simpl; [done|].
    apply IH. by apply limits_defined_handle. }
  unfold getDocumentSettings.
  destruct (hasConfigurationCapability s); simpl; [|by eexists].
  destruct (documentSettings s !! resource) as [[settings|]|] eqn:Hres; simpl;
    [by eapply Hs|done|].
  destruct (_ && _); [destruct (_ ++ [resource])|]; simpl;
    (destruct (getConfiguration _ _); simpl;
     [apply ensure_fileSizeLimit_defined|done]).
Qed.

(** X16. Asking for the settings of a resource twice in a row asks the client at
    most once: the second call returns what the first returned, a failure
    included, and makes no call of [getConfiguration]. *)
Theorem settings_are_fetched_once (resource : string) (s : State) :
  let first := getDocumentSettings getConfiguration resource s in
  let second := getDocumentSettings getConfiguration resource first.2 in
  second.1 = first.1 ∧ asked second.2 = asked first.2.
Proof.
  unfold getDocumentSettings.
  destruct (hasConfigurationCapability s) eqn:Hcap; simpl.
  2: { by rewrite Hcap. }
  destruct (documentSettings s !! resource) as [result|] eqn:Hres; simpl.
  - by rewrite Hres.
  - set (lru := _ ++ [resource]).
    destruct (_ && _); [destruct lru as [|h t]|]; simpl;
      rewrite lookup_insert_eq; done.
Qed.

(** X17. Settings are kept for open documents only, and only until the
    configuration changes: after either, the next request for the resource
    asks the client again. *)
Theorem closed_documents_are_asked_for_again (uri : string) (s : State) :
  hasConfigurationCapability s = true →
  asked (getDocumentSettings getConfiguration uri (onDidClose uri s)).2
  = asked s ++ [uri]
  ∧ asked (getDocumentSettings getConfiguration uri
             (onDidChangeConfiguration s)).2
    = asked s ++ [uri].
Proof.
  intros Hcap. unfold getDocumentSettings,
    onDidClose, onDidChangeConfiguration.
  rewrite Hcap. simpl. rewrite lookup_delete_eq, lookup_empty. split.
  - set (lru := _ ++ [uri]).
    by destruct (_ && _); [destruct lru as [|h t]|].
  - done.
Qed.

Lemma getDocumentSettings_hit resource result s :
  hasConfigurationCapability s = true →
  documentSettings s !! resource = Some result →
  getDocumentSettings getConfiguration resource s =
  (result, mkState true (documentSettings s)
                   (_updateLRU (documentSettingsLRU s) resource) (asked s)).
Proof.
  intros Hcap Hres. unfold getDocumentSettings. by rewrite Hcap, Hres.
Qed.

Lemma getDocumentSettings_miss resource s :
  hasConfigurationCapability s = true → settled s →
  documentSettings s !! resource = None →
  let result := then_ ensure_fileSizeLimit
                      (getConfiguration (length (asked s)) resource) in
  let saved := save_entry MAX_DOCUMENT_SETTINGS resource result
                          (documentSettings s) (documentSettingsLRU s) in
  getDocumentSettings getConfiguration resource s =
  (result, mkState true saved.1 saved.2 (asked s ++ [resource])).
Proof.
  intros Hcap [Hin _ _] Hres result saved. subst saved.
  assert (Hfresh : resource ∉ documentSettingsLRU s).
  { intros Hr. apply Hin in Hr as [? ?]. congruence. }
  assert (Hlen := in_step_size _ _ Hin).
  unfold getDocumentSettings, save_entry.
  rewrite Hcap, Hres. cbn [negb].
  fold (_updateLRU (documentSettingsLRU s) resource).
  rewrite (updateLRU_fresh _ _ Hfresh).
  rewrite (bool_decide_eq_false_2 (is_Some None)) by (by intros [? ?]).
  cbn [negb]. rewrite andb_true_r.
  rewrite (bool_decide_eq_true_2 (0 < _)%nat)
    by (rewrite length_app; simpl; lia).
  rewrite andb_true_r.
  case_bool_decide as Hfull;
    [|cbn [fst snd]; by rewrite (updateLRU_fresh _ _ Hfresh)].
  destruct (documentSettingsLRU s) as [|h t] eqn:Hlru.
  { simpl in Hlen. unfold MAX_DOCUMENT_SETTINGS in *. lia. }
  cbn [app fst snd]. rewrite updateLRU_fresh; [done|].
  intros Hr. apply Hfresh. by right.
Qed.

Lemma kept_ahead_request (others : list string) f v resource s :
  hasConfigurationCapability s = true → settled s →
  resource ≠ EmptyString →
  length (remove_dups others) < MAX_DOCUMENT_SETTINGS →
  resource = f ∨ resource ∈ others →
  kept_ahead others f v s →
  kept_ahead others f v (getDocumentSettings getConfiguration resource s).2.
Proof.
  intros Hcap Hs Hne Hfew Hname [Hv (pre & post & Hlru & Hpost)].
  destruct (documentSettings s !! resource) as [result|] eqn:Hres.
  - rewrite (getDocumentSettings_hit _ _ _ Hcap Hres). simpl.
    split; [done|]. rewrite Hlru. apply updateLRU_around; try done.
    rewrite <- Hlru. by destruct Hs as [[? _] _ _].
  - rewrite (getDocumentSettings_miss _ _ Hcap Hs Hres).
    assert (Hrf : resource ≠ f) by congruence.
    destruct Hs as [Hin _ _]. rewrite Hlru in *.
    destruct (save_entry_around others MAX_DOCUMENT_SETTINGS resource
                (then_ ensure_fileSizeLimit
                   (getConfiguration (length (asked s)) resource))
                _ pre f post Hin Hpost Hname Hfew) as [Hshape Hval].
    unfold kept_ahead. cbn [snd documentSettings documentSettingsLRU].
    split; [by rewrite Hval|done].
Qed.

Lemma capability_getDocumentSettings resource s :
  hasConfigurationCapability (getDocumentSettings getConfiguration resource s).2
  = hasConfigurationCapability s.
Proof.
  unfold getDocumentSettings.
  destruct (hasConfigurationCapability s) eqn:Hcap; simpl; [|done].
  destruct (documentSettings s !! resource); simpl; [done|].
  set (lru := _ ++ [resource]).
  by destruct (_ && _); [destruct lru|].
Qed.

(** X26. The settings of a resource that has been asked for stay cached while
    fewer than a hundred other resources are asked for, however often:
    asking for it again returns the same settings and makes no call of
    [getConfiguration]. *)
Theorem settings_stay_cached_while_in_use
    (f : string) (resources : list string) (s : State) :
  hasConfigurationCapability s = true → settled s →
  f ≠ EmptyString → EmptyString ∉ resources →
  length (remove_dups (filter (λ g, g ≠ f) resources))
  < MAX_DOCUMENT_SETTINGS →
  let first := getDocumentSettings getConfiguration f s in
  let later := requests getConfiguration resources first.2 in
  let again := getDocumentSettings getConfiguration f later in
  again.1 = first.1 ∧ asked again.2 = asked later.
Proof.
  intros Hcap Hs Hf Hne Hfew first later again.
  set (others := filter (λ g, g ≠ f) resources) in *.
  assert (Hcap1 : hasConfigurationCapability first.2 = true).
  { subst first. by rewrite capability_getDocumentSettings. }
  assert (Hs1 : settled first.2).
  { by apply settled_getDocumentSettings. }
  assert (Hk1 : kept_ahead others f first.1 first.2).
  { subst first.
    destruct (documentSettings s !! f) as [result|] eqn:Hres.
    - rewrite (getDocumentSettings_hit _ _ _ Hcap Hres). simpl.
      split; [done|]. exists (filter (λ g, g ≠ f) (documentSettingsLRU s)), [].
      split; [|by intros g ?%elem_of_nil].
      apply updateLRU_filter. by destruct Hs as [[? _] _ _].
    - rewrite (getDocumentSettings_miss _ _ Hcap Hs Hres).
      unfold kept_ahead. cbn [fst snd documentSettings documentSettingsLRU].
      destruct (save_entry_newest MAX_DOCUMENT_SETTINGS f
                  (then_ ensure_fileSizeLimit
                     (getConfiguration (length (asked s)) f))
                  (documentSettings s) (documentSettingsLRU s))
        as [Hv [pre Hpre]].
      split; [done|]. exists pre, []. split; [done|].
      by intros g ?%elem_of_nil. }
  assert (Hin : ∀ r, r ∈ resources →
                     r ≠ EmptyString ∧ (r = f ∨ r ∈ others)).
  { intros r Hr. split; [by intros ->|].
    destruct (decide (r = f)); [by left|right].
    by apply list_elem_of_filter. }
  assert (Hlater : hasConfigurationCapability later = true
                   ∧ kept_ahead others f first.1 later).
  { subst later. clearbody others first. clear Hne.
    revert Hcap1 Hs1 Hk1 Hin. generalize (first.2).
    induction resources as [|r resources IH]; intros s1 Hcap1 Hs1 Hk1 Hin;
      [done|].
    unfold requests in *. simpl. destruct (Hin r) as [Hr Hname]; [by left|].
    apply IH.
    - by rewrite capability_getDocumentSettings.
    - by apply settled_getDocumentSettings.
    - by apply kept_ahead_request.
    - intros r' Hr'. apply Hin. by right. }
  destruct Hlater as [Hcap2 [Hv _]]. subst again.
  by rewrite (getDocumentSettings_hit _ _ _ Hcap2 Hv).
Qed.

End WithClient.

Lemma settings_stay_cached_while_in_use_witness :
  let first := getDocumentSettings (λ _ _, Ok (mkSettings None)) "a.css"
                                   (initialized true) in
  let later := requests (λ _ _, Ok (mkSettings None)) ["b.css"; "/"; "b.css"]
                        first.2 in
  let again := getDocumentSettings (λ _ _, Ok (mkSettings None)) "a.css"
                                   later in
  again.1 = first.1 ∧ asked again.2 = asked later.
Proof.
  apply (settings_stay_cached_while_in_use (λ _ _, Ok (mkSettings None))
           "a.css" ["b.css"; "/"; "b.css"] (initialized true)).
  - reflexivity.
  - apply settled_initialized.
  - done.
  - apply (bool_decide_unpack _). by vm_compute.
  - vm_compute. lia.
Defined.

Lemma document_settings_stay_in_step_witness :
  let s := foldl (handle (λ _ _, Ok (mkSettings None))) (initialized true)
                 [DidOpen "a.css"; ExtractVariables "/"; DidClose "a.css"] in
  in_step (documentSettings s) (documentSettingsLRU s)
  ∧ size (documentSettings s) ≤ 100.
Proof.
  apply (document_settings_stay_in_step (λ _ _, Ok (mkSettings None)) true
           [DidOpen "a.css"; ExtractVariables "/"; DidClose "a.css"]).
  intros e uri Hin Huri.
  repeat (apply elem_of_cons in Hin as [->|Hin];
          [injection Huri as <-; done|]).
  by apply elem_of_nil in Hin.
Defined.

Lemma closed_documents_are_asked_for_again_witness :
  let s := (getDocumentSettings (λ _ _, Ok (mkSettings None)) "a.css"
              (initialized true)).2 in
  asked s = ["a.css"]
  ∧ asked (getDocumentSettings (λ _ _, Ok (mkSettings None)) "a.css"
             (onDidClose "a.css" s)).2
    = ["a.css"; "a.css"].
Proof.
  split; [reflexivity|].
  apply (closed_documents_are_asked_for_again (λ _ _, Ok (mkSettings None))
           "a.css"). reflexivity.
Defined.

End DocumentSettingsFacts.

(** * More on the live map and on colorize *)

Module HandlersFacts.
Import CacheManager CacheManagerUse Colorize Handlers.
Import CacheManagerFacts ColorizeFacts.
Import CacheManagerLaws.

Lemma map_set_middle (m1 m2 : DecoMap) line old new :
  line ∉ m1.*1 → line ∉ m2.*1 →
  map_set (m1 ++ (line, old) :: m2) line new = m1 ++ (line, new) :: m2.
Proof.
  intros H1 H2. unfold map_set, map_has.
  rewrite bool_decide_eq_true_2.
  2: { rewrite fmap_app. apply elem_of_app. right. by left. }
  rewrite fmap_app, fmap_cons. simpl. rewrite decide_True by done.
  assert (Hid : ∀ m : DecoMap, line ∉ m.*1 →
            (λ e : nat * list nat,
               if decide (e.1 = line) then (line, new) else e) <$> m = m).
  { induction m as [|[l d] m IH]; [done|]. rewrite !fmap_cons.
    intros [Hl Hm]%not_elem_of_cons. cbn [fst] in *.
    rewrite decide_False by done. f_equal. by apply IH. }
  by rewrite !Hid.
Qed.

Lemma cleanDecorationList_eq (deco : DecoMap) (h : Heap) :
  NoDup deco.*1 →
  cleanDecorationList deco h = (λ e, (e.1, live h e.2)) <$> deco.
Proof.
  intros Hnd. unfold cleanDecorationList.
  set (step := λ (deco : DecoMap) (entry : nat * list nat), _).
  assert (Hgen : ∀ post pre, NoDup (pre ++ post).*1 →
            foldl step (((λ e, (e.1, live h e.2)) <$> pre) ++ post) post
            = (λ e, (e.1, live h e.2)) <$> (pre ++ post)).
  { induction post as [|[line ds] post IH]; intros pre Hnd'.
    - simpl. by rewrite !app_nil_r.
    - simpl. rewrite fmap_app, fmap_cons in Hnd'. simpl in Hnd'.
      apply NoDup_app in Hnd' as (Hpre & Hdisj & [Hline Hpost]%NoDup_cons).
      rewrite map_set_middle; [| |done].
      2: { rewrite <- list_fmap_compose. simpl. intros Hin.
           apply (Hdisj line Hin). by left. }
      replace (((λ e : nat * list nat, (e.1, live h e.2)) <$> pre)
               ++ (line, filter (λ d, disposed (h d) = false) ds) :: post)
        with (((λ e : nat * list nat, (e.1, live h e.2)) <$> (pre ++ [(line, ds)]))
              ++ post).
      2: { rewrite fmap_app. simpl. by rewrite <- app_assoc. }
      rewrite IH.
      + by rewrite <- app_assoc.
      + rewrite <- app_assoc. simpl. rewrite fmap_app, fmap_cons. simpl.
        apply NoDup_app. split; [done|]. split; [done|].
        by apply NoDup_cons. }
  apply (Hgen deco []). by rewrite app_nil_l.
Qed.

Lemma live_live (h : Heap) ds : live h (live h ds) = live h ds.
Proof.
  unfold live. induction ds as [|d ds IH]; [done|].
  rewrite filter_cons. case_decide as Hd; [|done].
  rewrite filter_cons_True by done. by rewrite IH.
Qed.

Lemma map_get_fmap_snd (f : list nat → list nat) (m : DecoMap) line :
  map_get ((λ e, (e.1, f e.2)) <$> m) line = f <$> map_get m line.
Proof.
  unfold map_get. induction m as [|[l d] m IH]; [done|].
  rewrite fmap_cons. cbn [list_find]. simpl.
  case_decide as Hl; [done|].
  destruct (list_find (λ e, e.1 = line) m) as [[i [l' d']]|] eqn:Hf;
    destruct (list_find (λ e, e.1 = line)
                ((λ e : nat * list nat, (e.1, f e.2)) <$> m))
      as [[i' [l'' d'']]|] eqn:Hf'; simpl in *; congruence.
Qed.

(** X19. [cleanDecorationList] keeps the lines and their order, and on every line
    exactly the decorations that are not disposed, in their order; nothing
    disposed is left, and cleaning again changes nothing. *)
Theorem cleanDecorationList_keeps_the_live (deco : DecoMap) (h : Heap) :
  NoDup deco.*1 →
  let cleaned := cleanDecorationList deco h in
  cleaned.*1 = deco.*1
  ∧ (∀ line, map_get cleaned line = live h <$> map_get deco line)
  ∧ (∀ line decorations x,
       (line, decorations) ∈ cleaned → x ∈ decorations →
       disposed (h x) = false)
  ∧ cleanDecorationList cleaned h = cleaned.
Proof.
  intros Hnd cleaned. subst cleaned. rewrite cleanDecorationList_eq by done.
  assert (Hkeys : ((λ e : nat * list nat, (e.1, live h e.2)) <$> deco).*1
                  = deco.*1).
  { rewrite <- list_fmap_compose. by apply list_fmap_ext. }
  split; [done|]. split; [intros line; apply map_get_fmap_snd|]. split.
  - intros line ds x ([l d] & [= -> ->] & _)%list_elem_of_fmap Hx.
    simpl in Hx. unfold live in Hx. by apply list_elem_of_filter in Hx as [? _].
  - rewrite cleanDecorationList_eq by by rewrite Hkeys.
    rewrite <- list_fmap_compose. apply list_fmap_ext.
    intros i [l d] _. simpl. by rewrite live_live.
Qed.

Lemma filter_not_in_snoc (keys : list nat) line (l : list nat) :
  line ∉ l →
  filter (λ x, x ∉ keys ++ [line]) l = filter (λ x, x ∉ keys) l.
Proof.
  induction l as [|x l IH]; [done|]. intros [Hx Hl]%not_elem_of_cons.
  rewrite !filter_cons, IH by done.
  destruct (decide (x ∉ keys)) as [Hk|Hk].
  - rewrite decide_True; [done|]. rewrite not_elem_of_app.
    split; [done|]. by intros ?%list_elem_of_singleton.
  - rewrite decide_False; [done|]. intros Hn. apply Hk. intros Hin.
    apply Hn. apply elem_of_app. by left.
Qed.

Lemma updateContextDecorations_keys (decorations deco : DecoMap) :
  NoDup decorations.*1 →
  (updateContextDecorations decorations deco).*1
  = deco.*1 ++ filter (λ line, line ∉ deco.*1) decorations.*1.
Proof.
  unfold updateContextDecorations.
  set (step := λ (deco : DecoMap) (entry : nat * list nat), _).
  assert (Hgen : ∀ (post cur : DecoMap), NoDup post.*1 →
            (foldl step cur post).*1
            = cur.*1 ++ filter (λ line, line ∉ cur.*1) post.*1).
  { induction post as [|[line new] post IH]; intros cur Hnd.
    - simpl. by rewrite app_nil_r.
    - rewrite fmap_cons in Hnd. apply NoDup_cons in Hnd as [Hline Hnd].
      cbn [foldl]. rewrite (IH _ Hnd).
      assert (Hkeys : (step cur (line, new)).*1
                      = if map_has cur line then cur.*1 else cur.*1 ++ [line]).
      { unfold step. simpl. destruct (map_get cur line); apply map_set_keys. }
      rewrite Hkeys, fmap_cons, filter_cons. unfold map_has. simpl.
      case_bool_decide as Hin.
      + rewrite decide_False by naive_solver. done.
      + rewrite decide_True by done. rewrite <- app_assoc. simpl.
        by rewrite filter_not_in_snoc. }
  intros Hnd. by apply Hgen.
Qed.

(** X18. Merging new decorations into the live map: a line found in both gets the
    decorations it had followed by the new ones, a line found in one of them
    keeps what that one has; the lines of the live map keep their place, and
    the new lines follow in the order of the map merged in. *)
Theorem updateContextDecorations_lookup (decorations deco : DecoMap) :
  NoDup decorations.*1 → NoDup deco.*1 →
  let merged := updateContextDecorations decorations deco in
  merged.*1 = deco.*1 ++ filter (λ line, line ∉ deco.*1) decorations.*1
  ∧ ∀ line,
      map_get merged line =
      match map_get deco line, map_get decorations line with
      | Some old, Some new => Some (old ++ new)
      | Some old, None => Some old
      | None, Some new => Some new
      | None, None => None
      end.
Proof.
  intros HndD Hnd merged.
  pose proof (updateContextDecorations_keys decorations deco HndD) as Hkeys.
  fold merged in Hkeys. split; [done|]. intros line.
  destruct (updateContextDecorations_spec decorations deco HndD Hnd)
    as (Hndm & Hnew & Hold). fold merged in Hndm, Hnew, Hold.
  destruct (map_get decorations line) as [new|] eqn:Hd.
  - apply (map_get_Some _ _ _ HndD) in Hd. specialize (Hnew _ _ Hd).
    apply (map_get_Some _ _ _ Hndm) in Hnew. rewrite Hnew.
    by destruct (map_get deco line).
  - apply map_get_None in Hd.
    destruct (map_get deco line) as [old|] eqn:Ho.
    + apply (map_get_Some _ _ _ Hndm). apply Hold; [|done].
      by apply (map_get_Some _ _ _ Hnd).
    + apply map_get_None in Ho. apply map_get_None. rewrite Hkeys.
      rewrite not_elem_of_app. split; [done|].
      intros [_ Hin]%list_elem_of_filter. done.
Qed.

Section WithDecorations.
Variable rangeAt : nat → nat → Range.

Lemma dedup_line_distinct line (ds : list nat) (h : Heap) :
  NoDup ((λ d, rangeAt d line) <$> ds) →
  (dedup_line rangeAt line ds h).1 = ds
  ∧ (∀ x, disposed ((dedup_line rangeAt line ds h).2 x) = disposed (h x))
  ∧ (∀ x, x ∈ ds →
          currentRange ((dedup_line rangeAt line ds h).2 x) = rangeAt x line).
Proof.
  induction ds as [|d pre IH] using rev_ind; intros Hnd.
  - split; [done|]. split; [done|]. by intros x ?%elem_of_nil.
  - rewrite fmap_app in Hnd. apply NoDup_app in Hnd as (Hpre & Hdisj & _).
    destruct (IH Hpre) as (Hnd1 & Hdisp & Hrange).
    unfold dedup_line in *. rewrite foldl_app. simpl.
    destruct (foldl (dedup_one rangeAt line) ([], h) pre) as [nd h1] eqn:Hfold.
    simpl in Hnd1, Hdisp, Hrange. subst nd.
    assert (Hfresh : ∀ x, x ∈ pre → rangeAt d line ≠ rangeAt x line).
    { intros x Hx Heq. apply (Hdisj (rangeAt x line)).
      - apply list_elem_of_fmap. by exists x.
      - rewrite <- Heq. simpl. by left. }
    unfold dedup_one.
    assert (Hnone :
      findIndex (λ x, isEqual
                        (currentRange (generateRange rangeAt d line h1 d))
                        (currentRange (generateRange rangeAt d line h1 x)))
                pre = None).
    { unfold findIndex.
      destruct (list_find _ pre) as [[i x]|] eqn:Hfind; [|done]. exfalso.
      apply list_find_Some in Hfind as (Hi & Heq & _).
      apply list_elem_of_lookup_2 in Hi.
      unfold isEqual in Heq. apply bool_decide_unpack in Heq.
      rewrite !currentRange_generateRange in Heq.
      rewrite decide_True in Heq by done.
      destruct (decide (d = x)) as [->|Hne].
      - by apply (Hfresh x).
      - rewrite (Hrange x Hi) in Heq. by apply (Hfresh x). }
    rewrite Hnone. simpl. split; [done|]. split.
    + intros x. by rewrite disposed_generateRange.
    + intros x [Hx| ->%list_elem_of_singleton]%elem_of_app;
        rewrite currentRange_generateRange.
      * case_decide as Hd; [by subst|by apply Hrange].
      * by rewrite decide_True.
Qed.

Lemma removeDuplicateDecorations_distinct (m : DecoMap) (h : Heap) :
  NoDup m.*1 →
  (∀ line ds, (line, ds) ∈ m → NoDup ((λ d, rangeAt d line) <$> ds)) →
  (removeDuplicateDecorations rangeAt m h).1 = m
  ∧ ∀ x, disposed ((removeDuplicateDecorations rangeAt m h).2 x)
         = disposed (h x).
Proof.
  induction m as [|[line ds] m IH] using rev_ind; intros Hnd Hdist; [done|].
  rewrite fmap_app in Hnd. apply NoDup_app in Hnd as (Hm & Hdisj & _).
  destruct IH as [IHm IHd]; [done| |].
  { intros l d Hin. apply Hdist. apply elem_of_app. by left. }
  unfold removeDuplicateDecorations in *.
  set (step := λ (acc : DecoMap * Heap) (entry : nat * list nat), _) in *.
  rewrite foldl_app. cbn [foldl].
  destruct (foldl step ([], h) m) as [m1 h1] eqn:Hfold. simpl in IHm, IHd.
  subst m1. unfold step at 1 2.
  destruct (dedup_line_distinct line ds h1) as (Hnd1 & Hdisp & _).
  { apply Hdist. apply elem_of_app. right. by left. }
  destruct (dedup_line rangeAt line ds h1) as [nd h2]. simpl in *. subst nd.
  rewrite map_set_fresh.
  - split; [done|]. intros x. by rewrite Hdisp.
  - intros Hin. apply (Hdisj line Hin). by left.
Qed.

Lemma entry_unique (m : DecoMap) line ds ds' :
  NoDup m.*1 → (line, ds) ∈ m → (line, ds') ∈ m → ds = ds'.
Proof.
  intros Hnd H1 H2. apply (map_get_Some m line) in H1, H2; [|done..].
  congruence.
Qed.

Lemma deduplicated_distinct (m : DecoMap) (h : Heap) :
  NoDup m.*1 →
  let m' := (removeDuplicateDecorations rangeAt m h).1 in
  NoDup m'.*1
  ∧ ∀ line ds', (line, ds') ∈ m' → NoDup ((λ d, rangeAt d line) <$> ds').
Proof.
  intros Hnd m'.
  destruct (dedup_map_spec rangeAt m h Hnd) as [Hkeys Hlines].
  fold m' in Hkeys, Hlines.
  assert (Hnd' : NoDup m'.*1) by by rewrite Hkeys.
  split; [done|]. intros line ds' Hin.
  assert (Hline : line ∈ m.*1).
  { rewrite <- Hkeys. apply list_elem_of_fmap. by exists (line, ds'). }
  apply list_elem_of_fmap in Hline as ([l ds] & -> & Hin0). simpl in *.
  destruct (Hlines _ _ Hin0) as (ds'' & Hin'' & Hnodup & _).
  by rewrite (entry_unique m' l ds' ds'' Hnd' Hin Hin'').
Qed.

(** X20. Deduplicating twice is deduplicating once: the second pass leaves the
    live map as the first left it and disposes nothing. *)
Theorem removeDuplicateDecorations_twice (m : DecoMap) (h : Heap) :
  NoDup m.*1 →
  let once := removeDuplicateDecorations rangeAt m h in
  let twice := removeDuplicateDecorations rangeAt once.1 once.2 in
  twice.1 = once.1 ∧ ∀ x, disposed (twice.2 x) = disposed (once.2 x).
Proof.
  intros Hnd once twice.
  destruct (deduplicated_distinct m h Hnd) as [Hnd' Hdist].
  by apply removeDuplicateDecorations_distinct.
Qed.

Lemma deduplicated_live (m : DecoMap) (h : Heap) :
  NoDup m.*1 → NoDup (mjoin m.*2) →
  (∀ line ds x, (line, ds) ∈ m → x ∈ ds → disposed (h x) = false) →
  let m' := (removeDuplicateDecorations rangeAt m h).1 in
  let h' := (removeDuplicateDecorations rangeAt m h).2 in
  ∀ line ds' x, (line, ds') ∈ m' → x ∈ ds' → disposed (h' x) = false.
Proof.
  intros Hnd Hobj Hlive m' h' line ds' x Hin Hx.
  destruct (removeDuplicateDecorations_inv rangeAt m h Hnd)
    as [Hkeys Hlines _ _ Hframe].
  fold m' in Hkeys, Hlines. fold h' in Hlines, Hframe.
  assert (Hnd' : NoDup m'.*1) by by rewrite Hkeys.
  assert (Hline : line ∈ m.*1).
  { rewrite <- Hkeys. apply list_elem_of_fmap. by exists (line, ds'). }
  apply list_elem_of_fmap in Hline as ([l ds] & -> & Hin0). simpl in *.
  destruct (Hlines _ _ Hin0) as (ds'' & Hin'' & Hnodup & Hsub & _ & Hlast).
  rewrite <- (entry_unique m' l ds' ds'' Hnd' Hin Hin'') in *.
  destruct (disposed (h' x)) eqn:Hd; [exfalso|done].
  destruct (Hframe x Hd) as [Hbefore|(l0 & ds0 & i & j & b & Hin1 & Hij & Hi & Hj & Heq)].
  { rewrite (Hlive l ds x Hin0 (Hsub x Hx)) in Hbefore. done. }
  (* [x] sits on one line only, at one place *)
  apply list_elem_of_lookup in Hin0 as [p Hp].
  apply list_elem_of_lookup in Hin1 as [p0 Hp0].
  assert (Hp' : m.*2 !! p = Some ds) by by rewrite list_lookup_fmap, Hp.
  assert (Hp0' : m.*2 !! p0 = Some ds0) by by rewrite list_lookup_fmap, Hp0.
  destruct (NoDup_mjoin_inv m.*2 p p0 ds ds0 x Hobj Hp' Hp0' (Hsub x Hx))
    as [-> Hndds]; [by eapply list_elem_of_lookup_2|].
  assert (ds0 = ds ∧ l0 = l) as [-> ->] by (split; congruence).
  (* the last annotation with the range of [x] is kept, and is not [x] *)
  destruct (last_occurrence (λ d, rangeAt d l) ds b)
    as (j' & c & Hj' & Hrange & Hafter); [by eapply list_elem_of_lookup_2|].
  assert (Hc : c ∈ ds').
  { apply (Hlast j' c Hj'). intros k e Hk He. by apply (Hafter k e). }
  assert (x = c).
  { apply (NoDup_fmap_eq (λ d, rangeAt d l) ds'); try done. congruence. }
  subst c.
  assert (i = j') by (by eapply NoDup_lookup). subst j'.
  destruct (decide (j = i)) as [->|Hne]; [lia|].
  destruct (decide (i < j)) as [Hlt|]; [|lia].
  by apply (Hafter j b Hlt Hj).
Qed.

(** X21. Deduplication leaves no disposed annotation in the live map, when every
    annotation listed was live and none was listed twice: the annotations it
    disposes are the ones it drops, so that [cleanDecorationList] finds
    nothing to remove afterwards. *)
Theorem removeDuplicateDecorations_leaves_the_live (m : DecoMap) (h : Heap) :
  NoDup m.*1 → NoDup (mjoin m.*2) →
  (∀ line ds x, (line, ds) ∈ m → x ∈ ds → disposed (h x) = false) →
  let m' := (removeDuplicateDecorations rangeAt m h).1 in
  let h' := (removeDuplicateDecorations rangeAt m h).2 in
  (∀ line ds' x, (line, ds') ∈ m' → x ∈ ds' → disposed (h' x) = false)
  ∧ cleanDecorationList m' h' = m'.
Proof.
  intros Hnd Hobj Hlive m' h'.
  pose proof (deduplicated_live m h Hnd Hobj Hlive) as Hall.
  fold m' h' in Hall. split; [done|].
  destruct (deduplicated_distinct m h Hnd) as [Hnd' _]. fold m' in Hnd'.
  rewrite cleanDecorationList_eq by done.
  rewrite <- (list_fmap_id m') at 2. apply list_fmap_ext.
  intros i [l d] Hi. simpl. f_equal. unfold live.
  apply list_elem_of_lookup_2 in Hi.
  clear -Hall Hi. assert (Hd : ∀ x, x ∈ d → disposed (h' x) = false)
    by (intros x Hx; by eapply Hall).
  clear Hi. induction d as [|x d IH]; [done|].
  rewrite filter_cons_True by (apply Hd; by left).
  f_equal. apply IH. intros y Hy. apply Hd. by right.
Qed.

End WithDecorations.

(** ** Colorizing, closing and colorizing again *)

Section WithCollaborators.
Variable canColorize : TextDocument → bool.


(** X23. Colorizing an editor a second time takes the decorations from the cache:
    the live map is what the first pass left, a failed first pass included,
    and [initDecorations] is not consulted. *)
Theorem colorize_again_takes_from_cache
    (initDecorations initDecorations' :
       ColorizeContext → ColorizeContext * option string)
    (ed : TextEditor) (st : Extension) :
  canColorize (document ed) = true →
  let first := colorize canColorize initDecorations (Some ed) st in
  editor (extension first.1) = Some ed →
  let second := colorize canColorize initDecorations' (Some ed) first.1 in
  second.2 = Returned
  ∧ deco (extension second.1) = deco (extension first.1)
  ∧ editor (extension second.1) = Some ed
  ∧ _decorationsCache (cacheManager second.1)
    = _decorationsCache (cacheManager first.1)
  ∧ _dirtyCache (cacheManager second.1) = _dirtyCache (cacheManager first.1).
Proof.
  intros Hcan first. subst first. unfold colorize at 1 2 4 5 6.
  rewrite Hcan. simpl.
  destruct (getCachedDecorations (document ed) (cacheManager st))
    as [[cached|] cache] eqn:Hget.
  - simpl. intros _. unfold colorize. rewrite Hcan. simpl.
    pose proof (get_after_get (document ed) (cacheManager st)) as Hagain.
    pose proof (caches_after_get (document ed)
                  (getCachedDecorations (document ed) (cacheManager st)).2)
      as [Hd Hs].
    rewrite Hget in Hagain, Hd, Hs. simpl in Hagain, Hd, Hs.
    destruct (getCachedDecorations (document ed) cache) as [deco' cache'].
    simpl in Hagain, Hd, Hs. subst deco'. done.
  - destruct (initDecorations _) as [ctx failure] eqn:Hinit.
    assert (Hed : ∀ x, x = editor ctx → x = Some ed →
              editor ctx = Some ed) by congruence.
    destruct failure as [error|]; simpl; intros Hsame;
      rewrite Hsame; unfold colorize; rewrite Hcan; simpl;
      pose proof (get_after_save (document ed) (deco ctx) cache) as Hagain;
      pose proof (caches_after_get (document ed)
                    (saveDecorations (document ed) (deco ctx) cache))
        as [Hd Hs];
      destruct (getCachedDecorations (document ed)
                  (saveDecorations (document ed) (deco ctx) cache))
        as [deco' cache'];
      simpl in Hagain, Hd, Hs; subst deco'; done.
Qed.

(** X24. When the document of the active editor is saved or closed, its
    decorations go to the cache, and colorizing an editor on that document
    afterwards brings them back without extraction. *)
Theorem closed_document_is_restored
    (initDecorations : ColorizeContext → ColorizeContext * option string)
    (ed e : TextEditor) (st : Extension) :
  canColorize (document ed) = true →
  editor (extension st) = Some e →
  fileName (document e) = fileName (document ed) →
  let closed := handleCloseOpen (document ed) st in
  let result := colorize canColorize initDecorations (Some ed) closed in
  result.2 = Returned
  ∧ deco (extension result.1) = deco (extension st)
  ∧ editor (extension result.1) = Some ed
  ∧ called_back result.1 = S (S (called_back st)).
Proof.
  intros Hcan He Hname closed. subst closed. unfold handleCloseOpen.
  rewrite He. rewrite decide_True by done.
  unfold colorize. rewrite Hcan. simpl.
  pose proof (get_after_save (document ed) (deco (extension st))
                (cacheManager st)) as Hagain.
  destruct (getCachedDecorations (document ed)
              (saveDecorations (document ed) (deco (extension st))
                 (cacheManager st))) as [deco' cache'].
  simpl in Hagain. subst deco'. done.
Qed.

(** What [colorize] does to the cache: it reads the document of the editor,
    and saves for it when nothing was cached. *)
Lemma colorize_cache
    (initDecorations : ColorizeContext → ColorizeContext * option string)
    (ed : TextEditor) (st : Extension) :
  (∀ ctx, editor (initDecorations ctx).1 = editor ctx) →
  let result := colorize canColorize initDecorations (Some ed) st in
  (editor (extension result.1) = None
   ∨ editor (extension result.1) = Some ed)
  ∧ ∃ ops, cacheManager result.1 = apply_all (cacheManager st) ops
           ∧ ∀ op, op ∈ ops →
                   (op = Get (document ed) ∨ ∃ v, op = Save (document ed) v).
Proof.
  intros Hinit. unfold colorize.
  destruct (canColorize (document ed)); simpl.
  2: { split; [by left|]. exists []. split; [done|].
       by intros op ?%elem_of_nil. }
  destruct (getCachedDecorations (document ed) (cacheManager st))
    as [[cached|] cache] eqn:Hget.
  - simpl. split; [by right|]. exists [Get (document ed)].
    split; [unfold apply_all; simpl; by rewrite Hget|].
    intros op ->%list_elem_of_singleton. by left.
  - pose proof (Hinit (mkContext (Some ed) (Some (lineCount ed)) []
                                 (Some (selections ed)))) as Hed.
    destruct (initDecorations _) as [ctx failure] eqn:Hrun.
    simpl in Hed. rewrite Hed.
    assert (Hgoal :
      ∃ ops, saveDecorations (document ed) (deco ctx) cache
             = apply_all (cacheManager st) ops
             ∧ ∀ op, op ∈ ops →
                     (op = Get (document ed)
                      ∨ ∃ v, op = Save (document ed) v)).
    { exists [Get (document ed); Save (document ed) (deco ctx)].
      split; [unfold apply_all; simpl; by rewrite Hget|].
      intros op [->|[->|?%elem_of_nil]%elem_of_cons]%elem_of_cons;
        [by left|right; by eexists|done]. }
    destruct failure; simpl; (split; [by right|done]).
Qed.

(** X25. Switching to another file and back: the decorations of the editor left
    go to the cache, and when it becomes active again [colorize] brings
    them back without extraction, whether or not the other file could be
    colorized or was cached.  With one editor visible, the only task queued
    by a switch is the [colorize] of the new active editor. *)
Theorem switching_back_restores_the_decorations
    (initDecorations initDecorations' :
       ColorizeContext → ColorizeContext * option string)
    (A B : TextEditor) (st : Extension) :
  consistent (cacheManager st) → no_empty_key (cacheManager st) →
  2 ≤ MAX_CACHE_SIZE (cacheManager st) →
  (∀ ctx, editor (initDecorations ctx).1 = editor ctx) →
  editor (extension st) = Some A →
  canColorize (document A) = true →
  fileName (document A) ≠ EmptyString →
  fileName (document B) ≠ EmptyString →
  fileName (document B) ≠ fileName (document A) →
  let away := handleChangeActiveTextEditor (Some B) [B] st in
  let there := colorize canColorize initDecorations (Some B) away.1 in
  let back := handleChangeActiveTextEditor (Some A) [A] there.1 in
  let again := colorize canColorize initDecorations' (Some A) back.1 in
  away.2 = [B] ∧ back.2 = [A]
  ∧ again.2 = Returned
  ∧ deco (extension again.1) = deco (extension st)
  ∧ editor (extension again.1) = Some A.
Proof.
  intros Hc Hk Hmax Hinit HA Hcan HneA HneB Hdiff away there back again.
  assert (Htasks : ∀ (e : TextEditor), filter (λ x, x ≠ e) [e] ++ [e] = [e]).
  { intros e. rewrite filter_cons_False by naive_solver. done. }
  split; [apply Htasks|]. split; [apply Htasks|].
  (* the cache when [A] becomes active again *)
  set (cm1 := saveDecorations (document A) (deco (extension st))
                              (cacheManager st)).
  assert (Hcm1 : cacheManager away.1 = cm1).
  { subst away. simpl. by rewrite HA. }
  destruct (consistent_apply (cacheManager st)
              (Save (document A) (deco (extension st))) Hc Hk)
    as [Hc1 Hk1]; [by intros doc [= <-]|]. simpl in Hc1, Hk1. fold cm1 in Hc1, Hk1.
  destruct (newest_after_save (document A) (deco (extension st))
              (cacheManager st)) as [Hval [pre Hlru]].
  fold cm1 in Hval, Hlru.
  assert (Hmax1 : MAX_CACHE_SIZE cm1 = MAX_CACHE_SIZE (cacheManager st)).
  { apply (MAX_CACHE_SIZE_apply (cacheManager st)
             (Save (document A) (deco (extension st)))). }
  destruct (colorize_cache initDecorations B away.1 Hinit)
    as (Hed & ops & Hops & Hall).
  fold there in Hed, Hops. rewrite Hcm1 in Hops.
  assert (Hback : ∃ ops', cacheManager back.1 = apply_all cm1 ops'
                          ∧ ∀ op, op ∈ ops' →
                                  (op = Get (document B)
                                   ∨ ∃ v, op = Save (document B) v)).
  { subst back. simpl. destruct Hed as [-> | ->].
    - exists ops. done.
    - exists (ops ++ [Save (document B) (deco (extension there.1))]).
      simpl. split.
      { unfold apply_all in *. rewrite foldl_app. simpl. by rewrite <- Hops. }
      intros op [Hop| ->%list_elem_of_singleton]%elem_of_app;
        [by apply Hall|right; by eexists]. }
  destruct Hback as (ops' & Hcache & Hall').
  assert (Hkept : cache_of (isDirty (document A)) (cacheManager back.1)
                  !! fileName (document A) = Some (deco (extension st))).
  { rewrite Hcache.
    rewrite (kept_apply_all [fileName (document B)] (fileName (document A))
               (isDirty (document A)) ops' cm1 Hc1 Hk1); [done| | |].
    - rewrite Hmax1. simpl. lia.
    - exists pre, []. split; [done|]. by intros g ?%elem_of_nil.
    - intros op Hop. destruct (Hall' op Hop) as [-> | [v ->]]; simpl.
      + split; [tauto|]. exists (document B).
        split; [done|]. split; [done|]. right. by left.
      + split; [by intros [? _]|]. exists (document B).
        split; [done|]. split; [done|]. right. by left. }
  (* colorizing [A] again *)
  subst again. pose proof (get_cached _ _ _ Hkept) as Hget.
  clear -Hget Hcan. set (stb := back.1) in *. clearbody stb.
  unfold colorize. rewrite Hcan. simpl.
  destruct (getCachedDecorations (document A) (cacheManager stb))
    as [cached cache']. simpl in Hget. subst cached. done.
Qed.

End WithCollaborators.

Lemma cleanDecorationList_keeps_the_live_witness :
  NoDup two_on_line_3.*1
  ∧ cleanDecorationList two_on_line_3 first_disposed = [(3, [1; 2])]
  ∧ (cleanDecorationList two_on_line_3 first_disposed).*1 = two_on_line_3.*1.
Proof.
  assert (Hnd : NoDup two_on_line_3.*1) by (apply NoDup_singleton).
  split; [done|]. split; [by vm_compute|].
  apply (cleanDecorationList_keeps_the_live two_on_line_3 first_disposed Hnd).
Defined.

Lemma removeDuplicateDecorations_twice_witness :
  NoDup two_on_line_3.*1
  ∧ (removeDuplicateDecorations columns
       (removeDuplicateDecorations columns two_on_line_3 all_live).1
       (removeDuplicateDecorations columns two_on_line_3 all_live).2).1
    = (removeDuplicateDecorations columns two_on_line_3 all_live).1.
Proof.
  assert (Hnd : NoDup two_on_line_3.*1) by (apply NoDup_singleton).
  split; [done|].
  apply (removeDuplicateDecorations_twice columns two_on_line_3 all_live Hnd).
Defined.

Lemma removeDuplicateDecorations_leaves_the_live_witness :
  NoDup two_on_line_3.*1
  ∧ NoDup (mjoin two_on_line_3.*2)
  ∧ cleanDecorationList
      (removeDuplicateDecorations columns two_on_line_3 all_live).1
      (removeDuplicateDecorations columns two_on_line_3 all_live).2
    = (removeDuplicateDecorations columns two_on_line_3 all_live).1.
Proof.
  assert (Hnd : NoDup two_on_line_3.*1) by (apply NoDup_singleton).
  assert (Hobj : NoDup (mjoin two_on_line_3.*2)).
  { apply (bool_decide_unpack _). by vm_compute. }
  split; [done|]. split; [done|].
  apply (removeDuplicateDecorations_leaves_the_live columns two_on_line_3
           all_live Hnd Hobj).
  intros line ds x _ _. reflexivity.
Defined.

Lemma updateContextDecorations_lookup_witness :
  NoDup [(3, [7]); (5, [8])].*1
  ∧ NoDup two_on_line_3.*1
  ∧ (updateContextDecorations [(3, [7]); (5, [8])] two_on_line_3).*1 = [3; 5]
  ∧ (updateContextDecorations [(3, [7]); (5, [8])] two_on_line_3).*1
    = two_on_line_3.*1
      ++ filter (λ line, line ∉ two_on_line_3.*1) [(3, [7]); (5, [8])].*1.
Proof.
  assert (Hnd : NoDup two_on_line_3.*1) by (apply NoDup_singleton).
  assert (Hnew : NoDup [(3, [7]); (5, [8])].*1).
  { apply (bool_decide_unpack _). by vm_compute. }
  split; [done|]. split; [done|]. split; [by vm_compute|].
  apply (updateContextDecorations_lookup [(3, [7]); (5, [8])] two_on_line_3
           Hnew Hnd).
Defined.

Lemma colorize_again_takes_from_cache_witness :
  (colorize (λ _, true) failing_extraction (Some a_css) fresh).2
  = Thrown "extraction failed"
  ∧ (colorize (λ _, true) failing_extraction (Some a_css)
       (colorize (λ _, true) failing_extraction (Some a_css) fresh).1).2
    = Returned.
Proof.
  split; [reflexivity|].
  apply (colorize_again_takes_from_cache (λ _, true) failing_extraction
           failing_extraction a_css fresh); reflexivity.
Defined.

Lemma closed_document_is_restored_witness :
  (colorize (λ _, true) failing_extraction (Some a_css)
     (handleCloseOpen (document a_css) showing_a_css)).2 = Returned
  ∧ deco (extension
            (colorize (λ _, true) failing_extraction (Some a_css)
               (handleCloseOpen (document a_css) showing_a_css)).1)
    = two_on_line_3.
Proof.
  split;
    apply (closed_document_is_restored (λ _, true) failing_extraction
             a_css a_css showing_a_css); reflexivity.
Defined.

Lemma switching_back_restores_the_decorations_witness :
  deco (extension
          (colorize (λ _, true) failing_extraction (Some a_css)
             (handleChangeActiveTextEditor (Some a_css) [a_css]
                (colorize (λ _, true) no_colours (Some b_less)
                   (handleChangeActiveTextEditor (Some b_less) [b_less]
                      showing_a_css).1).1).1).1)
  = two_on_line_3.
Proof.
  assert (Hstart : consistent (cacheManager showing_a_css)
                   ∧ no_empty_key (cacheManager showing_a_css)).
  { split; [split; apply in_step_empty|by split]. }
  destruct Hstart as [Hc Hk].
  apply (switching_back_restores_the_decorations (λ _, true) no_colours
           failing_extraction a_css b_less showing_a_css Hc Hk);
    [simpl; lia|done..].
Defined.

End HandlersFacts.
